(** * The particle engine of particles.js

    A shallow embedding of the three classes of [particles.js]
    ([Particle], [ParticlePool], [ParticleEngine]) and the properties of
    the engine's pooling, budget and lifetime behaviour.

    Modelling conventions.
    - JavaScript numbers are modelled as real numbers ([R]); rounding,
      NaN and infinities of IEEE doubles are outside the model.  Counts
      and array lengths are integers ([Z], [nat]).
    - Particle objects live in a store ([heap]) and are handled through
      references (their allocation index); the arrays [pool] and [active]
      of a [ParticlePool] hold references, so that [indexOf], object
      identity and reuse of an object are those of the source.
    - [Math.random()] and [Date.now()] are read from an ambient state: an
      infinite sequence of draws with a cursor, and a clock.
    - Methods are written in a state-and-exception monad, one layer per
      class; a method call through a null field throws [TypeError]. *)

From Stdlib Require Import Reals Lra ZArith Lia.
From stdpp Require Import base list strings pretty.

#[global] Instance Rle_decision (a b : R) : Decision (a <= b)%R := Rle_dec a b.
#[global] Instance R_eq_decision : EqDecision R := Req_dec_T.

(** ** JavaScript values, arrays and control *)

Module JS.

(** A key of an options object: missing, present with a nullish value
    ([null] or [undefined]), or present with a value. *)
Inductive prop (A : Type) : Type :=
| Absent
| Nullish
| Given (a : A).
Arguments Absent {A}.
Arguments Nullish {A}.
Arguments Given {A} a.

(** [p ?? d] *)
Definition coalesce {A} (p : prop A) (d : A) : A :=
  match p with Given a => a | _ => d end.

(** The key [k] of [{k: v, ...options}]: an own key of [options], even
    a nullish one, replaces [v]. *)
Definition spread {A} (v : A) (p : prop A) : prop A :=
  match p with Absent => Given v | _ => p end.

Inductive error : Type :=
| TypeError (msg : string).

Inductive outcome (A : Type) : Type :=
| Return (a : A)
| Throw (e : error).
Arguments Return {A} a.
Arguments Throw {A} e.

(** [Array.prototype.pop]: the last element, [None] for [undefined]. *)
Definition pop {A} (l : list A) : option A * list A :=
  (last l, removelast l).

(** [Array.prototype.push] *)
Definition push {A} (l : list A) (a : A) : list A := l ++ [a].

(** [Array.prototype.indexOf] on object references (strict equality is
    identity); [None] stands for -1. *)
Fixpoint indexOf (l : list nat) (r : nat) : option nat :=
  match l with
  | [] => None
  | a :: l' => if decide (a = r) then Some 0%nat else S <$> indexOf l' r
  end.

(** [l.splice(index, 1)] *)
Definition splice1 {A} (index : nat) (l : list A) : list A := delete index l.

(** [Math.floor] and [Math.ceil] *)
Definition floor (r : R) : Z := Int_part r.
Definition ceil (r : R) : Z := (- Int_part (- r))%Z.

End JS.

Import JS.

(** ** The monad of methods: state [S], result or exception *)

Definition M (S A : Type) : Type := S → outcome A * S.

#[global] Instance M_ret {S} : MRet (M S) := λ A a s, (Return a, s).

#[global] Instance M_bind {S} : MBind (M S) := λ A B f m s,
  match m s with
  | (Return a, s') => f a s'
  | (Throw e, s') => (Throw e, s')
  end.

Definition throw {S A} (e : error) : M S A := λ s, (Throw e, s).
Definition gets {S A} (f : S → A) : M S A := λ s, (Return (f s), s).
Definition modify {S} (f : S → S) : M S unit := λ s, (Return tt, f s).

(** Run a method of a component stored inside the state. *)
Definition zoom {S T A} (proj : S → T) (inj : T → S → S) (m : M T A) : M S A :=
  λ s, let '(o, t') := m (proj s) in (o, inj t' s).

(** [for (let i = start; i < start + n; i++) body(i)] *)
Fixpoint for_range {S} (start n : nat) (body : nat → M S unit) : M S unit :=
  match n with
  | O => mret tt
  | Datatypes.S k => body start ;; for_range (Datatypes.S start) k body
  end.

(** ** PARTICLE_CONFIG *)

Module Config.

Record range : Type := mk_range { min : R; max : R }.

Record mobile_t : Type := mk_mobile {
  m_maxParticles : nat;
  m_lifetime : R;
  spawnRate : R
}.

Record t : Type := mk {
  maxParticles : nat;
  poolSize : nat;
  targetFPS : nat;
  lifetime : R;
  speed : range;
  size : range;
  colors : list string;
  gravity : R;
  friction : R;
  fadeOut : bool;
  mobile : mobile_t
}.

(** [Object.assign(PARTICLE_CONFIG, PARTICLE_CONFIG.mobile)]: the keys
    [maxParticles] and [lifetime] are overwritten (the copied key
    [spawnRate] is read nowhere at the top level). *)
Definition assign_mobile (c : t) : t :=
  {| maxParticles := m_maxParticles (mobile c);
     poolSize := poolSize c;
     targetFPS := targetFPS c;
     lifetime := m_lifetime (mobile c);
     speed := speed c;
     size := size c;
     colors := colors c;
     gravity := gravity c;
     friction := friction c;
     fadeOut := fadeOut c;
     mobile := mobile c |}.

End Config.

Definition PARTICLE_CONFIG_literal : Config.t :=
  {| Config.maxParticles := 200;
     Config.poolSize := 300;
     Config.targetFPS := 60;
     Config.lifetime := 2000;
     Config.speed := {| Config.min := 1; Config.max := 4 |};
     Config.size := {| Config.min := 4; Config.max := 10 |};
     Config.colors := ["#4A90E2"; "#2ECC71"; "#A8E6CF"; "#FF7F50"; "#FF6B9D"];
     Config.gravity := 0.05;
     Config.friction := 0.98;
     Config.fadeOut := true;
     Config.mobile := {| Config.m_maxParticles := 100;
                         Config.m_lifetime := 1500;
                         Config.spawnRate := 0.5 |} |}.

(** The configuration in force once the script has loaded. *)
Definition PARTICLE_CONFIG (IS_MOBILE_DEVICE : bool) : Config.t :=
  if IS_MOBILE_DEVICE then Config.assign_mobile PARTICLE_CONFIG_literal
  else PARTICLE_CONFIG_literal.

(** ** Ambient sources: Math.random() and Date.now() *)

Record Ambient : Type := mk_ambient {
  randoms : nat → R;  (* the successive results of Math.random() *)
  drawn : nat;        (* how many of them have been consumed *)
  clock : R           (* the current value of Date.now() *)
}.

Definition Math_random : M Ambient R := λ a,
  (Return (randoms a (drawn a)),
   {| randoms := randoms a; drawn := S (drawn a); clock := clock a |}).

Definition Date_now : M Ambient R := gets clock.

(** ** class Particle *)

Module Particle.

Record t : Type := mk {
  active : bool;
  x : R;
  y : R;
  vx : R;
  vy : R;
  size : R;
  color : string;
  life : R;
  maxLife : R;
  birthTime : R;
  rotation : R;
  rotationSpeed : R
}.

(** Field assignments [this.f = v]. *)
Definition set_active (v : bool) (p : t) : t :=
  mk v (x p) (y p) (vx p) (vy p) (size p) (color p) (life p) (maxLife p)
     (birthTime p) (rotation p) (rotationSpeed p).
Definition set_x (v : R) (p : t) : t :=
  mk (active p) v (y p) (vx p) (vy p) (size p) (color p) (life p) (maxLife p)
     (birthTime p) (rotation p) (rotationSpeed p).
Definition set_y (v : R) (p : t) : t :=
  mk (active p) (x p) v (vx p) (vy p) (size p) (color p) (life p) (maxLife p)
     (birthTime p) (rotation p) (rotationSpeed p).
Definition set_vx (v : R) (p : t) : t :=
  mk (active p) (x p) (y p) v (vy p) (size p) (color p) (life p) (maxLife p)
     (birthTime p) (rotation p) (rotationSpeed p).
Definition set_vy (v : R) (p : t) : t :=
  mk (active p) (x p) (y p) (vx p) v (size p) (color p) (life p) (maxLife p)
     (birthTime p) (rotation p) (rotationSpeed p).
Definition set_size (v : R) (p : t) : t :=
  mk (active p) (x p) (y p) (vx p) (vy p) v (color p) (life p) (maxLife p)
     (birthTime p) (rotation p) (rotationSpeed p).
Definition set_color (v : string) (p : t) : t :=
  mk (active p) (x p) (y p) (vx p) (vy p) (size p) v (life p) (maxLife p)
     (birthTime p) (rotation p) (rotationSpeed p).
Definition set_life (v : R) (p : t) : t :=
  mk (active p) (x p) (y p) (vx p) (vy p) (size p) (color p) v (maxLife p)
     (birthTime p) (rotation p) (rotationSpeed p).
Definition set_maxLife (v : R) (p : t) : t :=
  mk (active p) (x p) (y p) (vx p) (vy p) (size p) (color p) (life p) v
     (birthTime p) (rotation p) (rotationSpeed p).
Definition set_birthTime (v : R) (p : t) : t :=
  mk (active p) (x p) (y p) (vx p) (vy p) (size p) (color p) (life p) (maxLife p)
     v (rotation p) (rotationSpeed p).
Definition set_rotation (v : R) (p : t) : t :=
  mk (active p) (x p) (y p) (vx p) (vy p) (size p) (color p) (life p) (maxLife p)
     (birthTime p) v (rotationSpeed p).
Definition set_rotationSpeed (v : R) (p : t) : t :=
  mk (active p) (x p) (y p) (vx p) (vy p) (size p) (color p) (life p) (maxLife p)
     (birthTime p) (rotation p) v.

(** The options object of [spawn] and of the engine's spawn methods. *)
Record options : Type := mk_options {
  o_angle : prop R;
  o_speed : prop R;
  o_size : prop R;
  o_color : prop string;
  o_lifetime : prop R
}.

(** [{}] *)
Definition no_options : options := mk_options Absent Absent Absent Absent Absent.

(** The object before the constructor body has run.  Its fields are not
    yet defined in the source; [reset] assigns every one of them. *)
Definition blank : t := mk false 0 0 0 0 0 "" 0 0 0 0 0.

Section methods.
Context (cfg : Config.t).
Local Open Scope R_scope.

Definition reset (this : t) : t :=
  let this := set_active false this in
  let this := set_x 0 this in
  let this := set_y 0 this in
  let this := set_vx 0 this in
  let this := set_vy 0 this in
  let this := set_size 5 this in
  let this := set_color "#4A90E2" this in
  let this := set_life 1 this in
  let this := set_maxLife (Config.lifetime cfg) this in
  let this := set_birthTime 0 this in
  let this := set_rotation 0 this in
  set_rotationSpeed 0 this.

(** [new Particle()] *)
Definition new : t := reset blank.

(** [options.k ?? e], where [e] is evaluated only for a nullish key. *)
Definition or_else {A} (p : prop A) (e : M Ambient A) : M Ambient A :=
  match p with Given a => mret a | _ => e end.

Definition random_speed : M Ambient R :=
  r ← Math_random;
  mret (r * (Config.max (Config.speed cfg) - Config.min (Config.speed cfg))
        + Config.min (Config.speed cfg)).

Definition random_size : M Ambient R :=
  r ← Math_random;
  mret (r * (Config.max (Config.size cfg) - Config.min (Config.size cfg))
        + Config.min (Config.size cfg)).

(** [colors[Math.floor(Math.random() * colors.length)]].  A draw lies
    in [0, 1), so the index is one of the palette; the default stands
    for [undefined], which no draw produces. *)
Definition random_color : M Ambient string :=
  r ← Math_random;
  mret (nth (Z.to_nat (floor (r * INR (length (Config.colors cfg)))))
            (Config.colors cfg) "undefined"%string).

Definition spawn (x y : R) (options : options) (this : t) : M Ambient t :=
  let this := set_active true this in
  let this := set_x x this in
  let this := set_y y this in
  angle ← or_else (o_angle options) (r ← Math_random; mret (r * PI * 2));
  speed ← or_else (o_speed options) random_speed;
  let this := set_vx (cos angle * speed) this in
  let this := set_vy (sin angle * speed) this in
  size ← or_else (o_size options) random_size;
  let this := set_size size this in
  color ← or_else (o_color options) random_color;
  let this := set_color color this in
  let this := set_life 1 this in
  let this := set_maxLife (coalesce (o_lifetime options) (Config.lifetime cfg)) this in
  now ← Date_now;
  let this := set_birthTime now this in
  r ← Math_random;
  let this := set_rotation (r * PI * 2) this in
  r ← Math_random;
  let this := set_rotationSpeed ((r - 0.5) * 0.1) this in
  mret this.

Definition update (deltaTime : R) (this : t) : M Ambient t :=
  if negb (active this) then mret this else
  let this := set_vy (vy this + Config.gravity cfg) this in
  let this := set_vx (vx this * Config.friction cfg) this in
  let this := set_vy (vy this * Config.friction cfg) this in
  let this := set_x (x this + vx this) this in
  let this := set_y (y this + vy this) this in
  let this := set_rotation (rotation this + rotationSpeed this) this in
  now ← Date_now;
  let age := now - birthTime this in
  let this := set_life (1 - age / maxLife this) this in
  if bool_decide (life this <= 0) then mret (set_active false this)
  else mret this.

End methods.

End Particle.

(** [array.forEach(callback)] on an array that the callback may mutate:
    the length is read once, and an index is visited only if the array
    still has it when its turn comes. *)
Definition forEach {S A} (array : S → list A) (callback : A → M S unit) : M S unit :=
  len ← gets (λ s, length (array s));
  for_range 0 len (λ k,
    o ← gets (λ s, array s !! k);
    match o with
    | Some v => callback v
    | None => mret tt
    end).

(** [for (let i = n - 1; i >= 0; i--) body(i)] *)
Fixpoint for_down {S} (n : nat) (body : nat → M S unit) : M S unit :=
  match n with
  | O => mret tt
  | Datatypes.S i => body i ;; for_down i body
  end.

(** ** class ParticlePool *)

Module ParticlePool.

(** The two arrays of the pool; their elements are references. *)
Record t : Type := mk {
  pool : list nat;
  active : list nat
}.

(** What a method of the pool can reach: its own fields, the particle
    objects, and the ambient sources. *)
Record state : Type := mk_state {
  ambient : Ambient;
  heap : list Particle.t;
  this : t
}.

Definition set_ambient (a : Ambient) (s : state) : state :=
  mk_state a (heap s) (this s).
Definition set_heap (h : list Particle.t) (s : state) : state :=
  mk_state (ambient s) h (this s).
Definition set_pool (l : list nat) (s : state) : state :=
  mk_state (ambient s) (heap s) (mk l (active (this s))).
Definition set_active (l : list nat) (s : state) : state :=
  mk_state (ambient s) (heap s) (mk (pool (this s)) l).

Section methods.
Context (cfg : Config.t).

(** [new Particle()]: a fresh object, initialised by [reset]. *)
Definition new_Particle : M state nat := λ s,
  (Return (length (heap s)), set_heap (heap s ++ [Particle.new cfg]) s).

(** A method call [particle.method(...)].  A reference held by the
    pool always denotes an allocated object; on any other index the
    call leaves the store as it is. *)
Definition invoke (particle : nat)
    (method : Particle.t → M Ambient Particle.t) : M state unit :=
  o ← gets (λ s, heap s !! particle);
  match o with
  | Some p =>
      p' ← zoom ambient set_ambient (method p);
      modify (λ s, set_heap (<[particle := p']> (heap s)) s)
  | None => mret tt
  end.

(** [constructor(size)], run on the object with both arrays empty. *)
Definition constructor (size : nat) : M state unit :=
  for_range 0 size (λ _,
    p ← new_Particle;
    modify (λ s, set_pool (push (pool (this s)) p) s)).

Definition get : M state nat :=
  particle ← (λ s, let '(o, l) := pop (pool (this s)) in (Return o, set_pool l s));
  particle ← match particle with
             | Some p => mret p
             | None => new_Particle
             end;
  modify (λ s, set_active (push (active (this s)) particle) s);;
  mret particle.

Definition release (particle : nat) : M state unit :=
  invoke particle (λ p, mret (Particle.reset cfg p));;
  index ← gets (λ s, indexOf (active (this s)) particle);
  match index with
  | Some i => modify (λ s, set_active (splice1 i (active (this s))) s)
  | None => mret tt
  end;;
  n ← gets (λ s, length (pool (this s)));
  if decide (n < Config.poolSize cfg)%nat
  then modify (λ s, set_pool (push (pool (this s)) particle) s)
  else mret tt.

Definition getActiveCount : M state nat :=
  gets (λ s, length (active (this s))).

Definition update (deltaTime : R) : M state unit :=
  n ← gets (λ s, length (active (this s)));
  for_down n (λ i,
    o ← gets (λ s, active (this s) !! i);
    match o with
    | None => throw (TypeError "Cannot read properties of undefined (reading 'update')")
    | Some particle =>
        invoke particle (Particle.update cfg deltaTime);;
        p ← gets (λ s, heap s !! particle);
        match p with
        | Some p => if negb (Particle.active p) then release particle else mret tt
        | None => mret tt
        end
    end).

Definition clear : M state unit :=
  forEach (λ s, active (this s)) release.

End methods.

End ParticlePool.

(** ** class ParticleEngine *)

Module ParticleEngine.

(** The canvas element (its backing-store size) and its 2D context. *)
Record Canvas : Type := mk_canvas { canvas_width : R; canvas_height : R }.
Inductive Context2D : Type := context_2d.

(** The fields of the engine that the spawn methods and [init] use.  The
    frame-timing fields ([lastTime], [fps], [frameCount],
    [fpsUpdateTime]) are written by the frame loop only and left out. *)
Record t : Type := mk {
  canvas : option Canvas;
  ctx : option Context2D;
  pool : option ParticlePool.t;
  animationId : option nat;
  width : option R;
  height : option R
}.

(** What the browser answers to the calls of [init]. *)
Record Host : Type := mk_host {
  getContext_2d : option Context2D;  (* canvas.getContext('2d', ...), null if unavailable *)
  devicePixelRatio : R;
  rect_width : R;                    (* canvas.getBoundingClientRect() *)
  rect_height : R;
  frame_handle : nat                 (* the handle requestAnimationFrame returns *)
}.

Record World : Type := mk_world {
  ambient : Ambient;
  heap : list Particle.t;
  host : Host;
  engine : t
}.

Definition set_engine (e : t) (w : World) : World :=
  mk_world (ambient w) (heap w) (host w) e.

Definition set_canvas (c : option Canvas) (e : t) : t :=
  mk c (ctx e) (pool e) (animationId e) (width e) (height e).
Definition set_ctx (c : option Context2D) (e : t) : t :=
  mk (canvas e) c (pool e) (animationId e) (width e) (height e).
Definition set_pool (p : option ParticlePool.t) (e : t) : t :=
  mk (canvas e) (ctx e) p (animationId e) (width e) (height e).
Definition set_animationId (a : option nat) (e : t) : t :=
  mk (canvas e) (ctx e) (pool e) a (width e) (height e).
Definition set_size (w h : R) (e : t) : t :=
  mk (canvas e) (ctx e) (pool e) (animationId e) (Some w) (Some h).

(** [constructor()] *)
Definition constructor : t := mk None None None None None None.

(** The view a pool method has of the world, and the write-back. *)
Definition pool_state (P : ParticlePool.t) (w : World) : ParticlePool.state :=
  ParticlePool.mk_state (ambient w) (heap w) P.
Definition put_pool_state (s : ParticlePool.state) (w : World) : World :=
  mk_world (ParticlePool.ambient s) (ParticlePool.heap s) (host w)
           (set_pool (Some (ParticlePool.this s)) (engine w)).

(** [this.pool.method(...)]: a TypeError when [this.pool] is null. *)
Definition this_pool {A} (method : M ParticlePool.state A) : M World A := λ w,
  match pool (engine w) with
  | None => (Throw (TypeError "Cannot read properties of null"), w)
  | Some P => let '(o, s') := method (pool_state P w) in (o, put_pool_state s' w)
  end.

(** [this.ctx.method(...)], for the methods that only draw. *)
Definition this_ctx : M World unit := λ w,
  match ctx (engine w) with
  | None => (Throw (TypeError "Cannot read properties of null"), w)
  | Some _ => (Return tt, w)
  end.

Section methods.
Context (IS_MOBILE_DEVICE : bool) (cfg : Config.t).
Local Open Scope R_scope.

Definition resize : M World unit :=
  d ← gets (λ w, devicePixelRatio (host w));
  let dpr := if decide (d = 0) then 1 else d in
  rw ← gets (λ w, rect_width (host w));
  rh ← gets (λ w, rect_height (host w));
  c ← gets (λ w, canvas (engine w));
  match c with
  | None => throw (TypeError "Cannot read properties of null")
  | Some _ =>
      modify (λ w, set_engine (set_canvas (Some (mk_canvas (rw * dpr) (rh * dpr))) (engine w)) w)
  end;;
  this_ctx;;                                  (* this.ctx.scale(dpr, dpr) *)
  modify (λ w, set_engine (set_size rw rh (engine w)) w).

(** One turn of the frame loop; what it draws is not part of the state. *)
Definition animate (deltaTime : R) : M World unit :=
  h ← gets (λ w, frame_handle (host w));
  modify (λ w, set_engine (set_animationId (Some h) (engine w)) w);;
  this_ctx;;                                  (* this.ctx.clearRect(...) *)
  this_pool (ParticlePool.update cfg deltaTime).

(** [start] calls [animate()] without a time; the [deltaTime] of that
    first turn is not a number in the source, and no method reads it. *)
Definition start : M World unit :=
  a ← gets (λ w, animationId (engine w));
  match a with
  | Some _ => mret tt
  | None => animate 0
  end.

Definition init : M World bool :=
  (* document.createElement('canvas'), a 300 x 150 element appended to the body *)
  modify (λ w, set_engine (set_canvas (Some (mk_canvas 300 150)) (engine w)) w);;
  c ← gets (λ w, getContext_2d (host w));
  modify (λ w, set_engine (set_ctx c (engine w)) w);;
  resize;;
  (* this.pool = new ParticlePool(PARTICLE_CONFIG.poolSize) *)
  (λ w, let '(o, s') := ParticlePool.constructor cfg (Config.poolSize cfg)
                          (pool_state (ParticlePool.mk [] []) w) in
        (o, put_pool_state s' w));;
  start;;
  mret true.

(** [if (IS_MOBILE_DEVICE) count = Math.ceil(count * PARTICLE_CONFIG.mobile.spawnRate)] *)
Definition mobile_count (count : Z) : Z :=
  if IS_MOBILE_DEVICE
  then ceil (IZR count * Config.spawnRate (Config.mobile cfg))
  else count.

(** A draw made while a pool method is running. *)
Definition ambiently {A} (m : M Ambient A) : M ParticlePool.state A :=
  zoom ParticlePool.ambient ParticlePool.set_ambient m.

(** [{angle: a, speed: s, size: z, lifetime: l, ...options}], where a
    pattern that does not set a key passes [Absent] for it. *)
Definition with_defaults (a s z l : prop R) (options : Particle.options)
    : Particle.options :=
  let over (d p : prop R) : prop R :=
    match d with Given v => spread v p | _ => p end in
  Particle.mk_options
    (over a (Particle.o_angle options))
    (over s (Particle.o_speed options))
    (over z (Particle.o_size options))
    (Particle.o_color options)
    (over l (Particle.o_lifetime options)).

Definition over_budget : M World bool :=
  n ← this_pool ParticlePool.getActiveCount;
  mret (bool_decide (Config.maxParticles cfg ≤ n)%nat).

Definition spawnBurst (x y : R) (count : Z) (options : Particle.options) : M World unit :=
  full ← over_budget;
  if full : bool then mret tt else
  let count := mobile_count count in
  for_range 0 (Z.to_nat count) (λ i,
    let angle := PI * 2 * INR i / IZR count in
    this_pool (
      particle ← ParticlePool.get cfg;
      ParticlePool.invoke particle (Particle.spawn cfg x y
        (with_defaults (Given angle) Absent Absent Absent options)))).

Definition spawnExplosion (x y : R) (count : Z) (options : Particle.options) : M World unit :=
  full ← over_budget;
  if full : bool then mret tt else
  let count := mobile_count count in
  for_range 0 (Z.to_nat count) (λ i,
    this_pool (
      particle ← ParticlePool.get cfg;
      r1 ← ambiently Math_random;
      r2 ← ambiently Math_random;
      ParticlePool.invoke particle (Particle.spawn cfg x y
        (with_defaults (Given (r1 * PI * 2)) (Given (r2 * 6 + 2)) Absent Absent options)))).

Definition spawnFountain (x y : R) (count : Z) (options : Particle.options) : M World unit :=
  full ← over_budget;
  if full : bool then mret tt else
  let count := mobile_count count in
  for_range 0 (Z.to_nat count) (λ i,
    this_pool (
      particle ← ParticlePool.get cfg;
      let spread := 0.5 in
      r1 ← ambiently Math_random;
      let angle := - PI / 2 + (r1 - 0.5) * spread in
      r2 ← ambiently Math_random;
      ParticlePool.invoke particle (Particle.spawn cfg x y
        (with_defaults (Given angle) (Given (r2 * 5 + 3)) Absent Absent options)))).

(** [count] defaults to 3 at the call sites that omit it. *)
Definition spawnTrail (x y : R) (count : Z) (options : Particle.options) : M World unit :=
  full ← over_budget;
  if full : bool then mret tt else
  for_range 0 (Z.to_nat count) (λ i,
    this_pool (
      particle ← ParticlePool.get cfg;
      r1 ← ambiently Math_random;
      r2 ← ambiently Math_random;
      r3 ← ambiently Math_random;
      ParticlePool.invoke particle (Particle.spawn cfg x y
        (with_defaults (Given (r1 * PI * 2)) (Given (r2 * 2)) (Given (r3 * 4 + 2))
                       (Given 1000) options)))).

Definition clear : M World unit :=
  this_pool (ParticlePool.clear cfg).

End methods.

End ParticleEngine.

(** ** Calls of the spawn methods, as data *)

Inductive spawn_call : Type :=
| Burst (x y : R) (count : Z) (options : Particle.options)
| Explosion (x y : R) (count : Z) (options : Particle.options)
| Fountain (x y : R) (count : Z) (options : Particle.options)
| Trail (x y : R) (count : Z) (options : Particle.options).

Section calls.
Context (IS_MOBILE_DEVICE : bool) (cfg : Config.t).

Definition call (c : spawn_call) : M ParticleEngine.World unit :=
  match c with
  | Burst x y count options => ParticleEngine.spawnBurst IS_MOBILE_DEVICE cfg x y count options
  | Explosion x y count options => ParticleEngine.spawnExplosion IS_MOBILE_DEVICE cfg x y count options
  | Fountain x y count options => ParticleEngine.spawnFountain IS_MOBILE_DEVICE cfg x y count options
  | Trail x y count options => ParticleEngine.spawnTrail cfg x y count options
  end.

Fixpoint calls (cs : list spawn_call) : M ParticleEngine.World unit :=
  match cs with
  | [] => mret tt
  | c :: cs => call c ;; calls cs
  end.

(** The number of loop turns of a call that passes the budget check. *)
Definition turns (c : spawn_call) : nat :=
  match c with
  | Burst _ _ count _ | Explosion _ _ count _ | Fountain _ _ count _ =>
      Z.to_nat (ParticleEngine.mobile_count IS_MOBILE_DEVICE cfg count)
  | Trail _ _ count _ => Z.to_nat count
  end.

(** The size of the live set after a sequence of calls, from size [n]:
    a call made at or over the budget adds nothing, any other call adds
    one particle per turn. *)
Fixpoint live_after (n : nat) (cs : list spawn_call) : nat :=
  match cs with
  | [] => n
  | c :: cs =>
      live_after (if bool_decide (Config.maxParticles cfg ≤ n) then n else n + turns c) cs
  end.

End calls.

(** [getStats().activeParticles] *)
Definition activeCount : M ParticleEngine.World nat :=
  ParticleEngine.this_pool ParticlePool.getActiveCount.

(** ** Well-formed pools *)

(** The references of the two arrays are pairwise distinct and denote
    allocated objects. *)
Definition wf (s : ParticlePool.state) : Prop :=
  NoDup (ParticlePool.pool (ParticlePool.this s) ++ ParticlePool.active (ParticlePool.this s)) ∧
  ∀ r, r ∈ ParticlePool.pool (ParticlePool.this s) ++ ParticlePool.active (ParticlePool.this s) →
       r < length (ParticlePool.heap s).

(** The reference [get] returns, and the state it leaves. *)
Definition acquired (s : ParticlePool.state) : nat :=
  match last (ParticlePool.pool (ParticlePool.this s)) with
  | Some r => r
  | None => length (ParticlePool.heap s)
  end.

Definition after_get (cfg : Config.t) (s : ParticlePool.state) : ParticlePool.state :=
  ParticlePool.mk_state (ParticlePool.ambient s)
    (match last (ParticlePool.pool (ParticlePool.this s)) with
     | Some _ => ParticlePool.heap s
     | None => ParticlePool.heap s ++ [Particle.new cfg]
     end)
    (ParticlePool.mk (removelast (ParticlePool.pool (ParticlePool.this s)))
                     (ParticlePool.active (ParticlePool.this s) ++ [acquired s])).

(** [particles.forEach(p => pool.release(p))] on an array of the caller. *)
Fixpoint release_all (cfg : Config.t) (particles : list nat) : M ParticlePool.state unit :=
  match particles with
  | [] => mret tt
  | p :: rest => ParticlePool.release cfg p ;; release_all cfg rest
  end.

(** [n] calls of [get], collecting the particles returned. *)
Fixpoint get_many (cfg : Config.t) (n : nat) : M ParticlePool.state (list nat) :=
  match n with
  | O => mret []
  | S k => p ← ParticlePool.get cfg; ps ← get_many cfg k; mret (p :: ps)
  end.

(** The number of [Math.random()] calls of one [spawn]. *)
Definition draws (o : Particle.options) : nat :=
  let draw {A} (p : prop A) : nat := match p with Given _ => 0 | _ => 1 end in
  draw (Particle.o_angle o) + (draw (Particle.o_speed o) +
    (draw (Particle.o_size o) + (draw (Particle.o_color o) + 2))).

(** The speed a [spawn] gives: the override, or the draw of index [d]
    scaled into the configured range. *)
Definition speed_at (cfg : Config.t) (speed : prop R) (a : Ambient) (d : nat) : R :=
  match speed with
  | Given v => v
  | _ => (randoms a d * (Config.max (Config.speed cfg) - Config.min (Config.speed cfg))
          + Config.min (Config.speed cfg))%R
  end.

(** With a given angle the speed is the first draw of the [spawn]. *)
Definition launch_speed (cfg : Config.t) (o : Particle.options) (a : Ambient) : R :=
  speed_at cfg (Particle.o_speed o) a (drawn a).

(** The state [release] leaves. *)
Definition after_release (cfg : Config.t) (particle : nat) (s : ParticlePool.state)
    : ParticlePool.state :=
  ParticlePool.mk_state (ParticlePool.ambient s)
    (match ParticlePool.heap s !! particle with
     | Some p => <[particle := Particle.reset cfg p]> (ParticlePool.heap s)
     | None => ParticlePool.heap s
     end)
    (ParticlePool.mk
       (if decide (length (ParticlePool.pool (ParticlePool.this s)) < Config.poolSize cfg)
        then ParticlePool.pool (ParticlePool.this s) ++ [particle]
        else ParticlePool.pool (ParticlePool.this s))
       (match indexOf (ParticlePool.active (ParticlePool.this s)) particle with
        | Some i => delete i (ParticlePool.active (ParticlePool.this s))
        | None => ParticlePool.active (ParticlePool.this s)
        end)).

(** A loop turn that acquires one particle and (re)initialises objects
    without touching the arrays otherwise. *)
Definition acquires_one (cfg : Config.t) (turn : M ParticlePool.state unit) : Prop :=
  ∀ s, ∃ s', turn s = (Return tt, s') ∧
             ParticlePool.this s' = ParticlePool.this (after_get cfg s) ∧
             length (ParticlePool.heap s') = length (ParticlePool.heap (after_get cfg s)).

(** The speed of the [i]-th particle of a burst that passes no angle:
    every [spawn] of the burst makes the same number of draws, the first
    of them for the speed. *)
Definition burst_speed (cfg : Config.t) (options : Particle.options) (a : Ambient) (i : nat) : R :=
  speed_at cfg (Particle.o_speed options) a
    (i * draws (ParticleEngine.with_defaults (Given 0%R) Absent Absent Absent options) + drawn a).

(** A live particle whose lifetime is over on the clock of [s]. *)
Definition expired (s : ParticlePool.state) (r : nat) : Prop :=
  ∃ p, ParticlePool.heap s !! r = Some p ∧
       Particle.active p = true ∧
       (0 < Particle.maxLife p)%R ∧
       (Particle.birthTime p + Particle.maxLife p <= clock (ParticlePool.ambient s))%R.

(** The turn of the loop of [update] at index [i]. *)
Definition update_turn (cfg : Config.t) (deltaTime : R) (i : nat) : M ParticlePool.state unit :=
  o ← gets (λ s, ParticlePool.active (ParticlePool.this s) !! i);
  match o with
  | None => throw (TypeError "Cannot read properties of undefined (reading 'update')")
  | Some particle =>
      ParticlePool.invoke particle (Particle.update cfg deltaTime);;
      p ← gets (λ s, ParticlePool.heap s !! particle);
      match p with
      | Some p => if negb (Particle.active p) then ParticlePool.release cfg particle else mret tt
      | None => mret tt
      end
  end.

(** [pool.release(particle); const p = pool.get(); p.spawn(x, y, options)],
    returning [p]. *)
Definition recycle (cfg : Config.t) (particle : nat) (x y : R) (options : Particle.options)
    : M ParticlePool.state nat :=
  ParticlePool.release cfg particle;;
  p ← ParticlePool.get cfg;
  ParticlePool.invoke p (Particle.spawn cfg x y options);;
  mret p.

(** The turn of [forEach] at index [k] inside [clear]. *)
Definition clear_visit (cfg : Config.t) (k : nat) : M ParticlePool.state unit :=
  o ← gets (λ s, ParticlePool.active (ParticlePool.this s) !! k);
  match o with
  | Some v => ParticlePool.release cfg v
  | None => mret tt
  end.

(** ** Concrete worlds *)

(** The configuration on a desktop browser and on a phone. *)
Definition desktop : Config.t := PARTICLE_CONFIG false.
Definition phone : Config.t := PARTICLE_CONFIG true.

(** Every draw is 0.5, the clock reads 1000. *)
Definition still_ambient : Ambient :=
  {| randoms := λ _, 0.5%R; drawn := 0; clock := 1000 |}.

(** A page whose script has just been loaded: the engine is constructed,
    no particle is allocated; [context] is what [getContext('2d')] will
    answer. *)
Definition page (context : option ParticleEngine.Context2D) : ParticleEngine.World :=
  {| ParticleEngine.ambient := still_ambient;
     ParticleEngine.heap := [];
     ParticleEngine.host :=
       {| ParticleEngine.getContext_2d := context;
          ParticleEngine.devicePixelRatio := 2;
          ParticleEngine.rect_width := 1280;
          ParticleEngine.rect_height := 720;
          ParticleEngine.frame_handle := 1 |};
     ParticleEngine.engine := ParticleEngine.constructor |}.

(** The world once [init] has run, on a device of either kind. *)
Definition started (IS_MOBILE_DEVICE : bool) : ParticleEngine.World :=
  snd (ParticleEngine.init (PARTICLE_CONFIG IS_MOBILE_DEVICE)
         (page (Some ParticleEngine.context_2d))).


(** The desktop page with its 200 particles live. *)
Definition full_house : ParticleEngine.World :=
  snd (ParticleEngine.spawnBurst false desktop 640 360 200 Particle.no_options (started false)).

(** The options the piano passes for a white key. *)
Definition white_key : Particle.options :=
  {| Particle.o_angle := Absent;
     Particle.o_speed := Absent;
     Particle.o_size := Given 5%R;
     Particle.o_color := Given "#4A90E2";
     Particle.o_lifetime := Given 1500%R |}.

(** A particle spawned at time 1000 with the default lifetime. *)
Definition young_particle : Particle.t :=
  {| Particle.active := true;
     Particle.x := 100; Particle.y := 100;
     Particle.vx := 2; Particle.vy := -1;
     Particle.size := 5;
     Particle.color := "#FF7F50";
     Particle.life := 1;
     Particle.maxLife := 2000;
     Particle.birthTime := 1000;
     Particle.rotation := 0;
     Particle.rotationSpeed := 0.01 |}.

(** Every draw is 0.5, the clock reads [t]. *)
Definition at_time (t : R) : Ambient :=
  {| randoms := λ _, 0.5%R; drawn := 0; clock := t |}.

(** The state in which a first pool is constructed: no particle exists,
    both arrays of the new pool are empty. *)
Definition fresh_state : ParticlePool.state :=
  ParticlePool.mk_state still_ambient [] (ParticlePool.mk [] []).

(** A pool whose only particle is live, as a coral or as a pink one. *)
Definition one_live (color : string) : ParticlePool.state :=
  {| ParticlePool.ambient := at_time 5000;
     ParticlePool.heap := [Particle.set_color color young_particle];
     ParticlePool.this := {| ParticlePool.pool := []; ParticlePool.active := [0] |} |}.

(** ** Uses of the pool *)

(** The particle after one [update] under the ambient [a]. *)
Definition stepped (cfg : Config.t) (a : Ambient) (p : Particle.t) : Particle.t :=
  match fst (Particle.update cfg 0 p a) with
  | Return q => q
  | Throw _ => p
  end.

(** Whether the live particle [r] is still active after its [update]. *)
Definition survives (cfg : Config.t) (s : ParticlePool.state) (r : nat) : bool :=
  match ParticlePool.heap s !! r with
  | Some p => Particle.active (stepped cfg (ParticlePool.ambient s) p)
  | None => true
  end.

(** What [update] leaves of the particle [p]: the particle one step
    older, or a reset one if that step has ended its life. *)
Definition swept (cfg : Config.t) (a : Ambient) (p : Particle.t) : Particle.t :=
  if Particle.active (stepped cfg a p) then stepped cfg a p else Particle.new cfg.

(** The particle after the frames that run at the times [nows]. *)
Definition frames (cfg : Config.t) (nows : list R) (p : Particle.t) : Particle.t :=
  fold_left (λ p now, stepped cfg (at_time now) p) nows p.

(** [f + f^2 + ... + f^n] *)
Fixpoint geometric (f : R) (n : nat) : R :=
  match n with
  | O => 0
  | S k => f ^ S k + geometric f k
  end.

(** The elements at the positions 1, 3, 5, ... and 0, 2, 4, ... of a list. *)
Fixpoint odd_positions {A} (l : list A) : list A :=
  match l with
  | _ :: b :: rest => b :: odd_positions rest
  | _ => []
  end.

Fixpoint even_positions {A} (l : list A) : list A :=
  match l with
  | [] => []
  | [a] => [a]
  | a :: _ :: rest => a :: even_positions rest
  end.

(** What a user of the pool can do with it, and the passing of time. *)
Inductive pool_call : Type :=
| Get
| Release (particle : nat)
| Spawn (particle : nat) (x y : R) (options : Particle.options)
| Update (deltaTime : R)
| Clear
| Wait (now : R).

Definition pool_step (cfg : Config.t) (c : pool_call) : M ParticlePool.state unit :=
  match c with
  | Get => ParticlePool.get cfg ;; mret tt
  | Release particle => ParticlePool.release cfg particle
  | Spawn particle x y options => ParticlePool.invoke particle (Particle.spawn cfg x y options)
  | Update deltaTime => ParticlePool.update cfg deltaTime
  | Clear => ParticlePool.clear cfg
  | Wait now =>
      modify (λ s, ParticlePool.set_ambient
                     (mk_ambient (randoms (ParticlePool.ambient s))
                                 (drawn (ParticlePool.ambient s)) now) s)
  end.

Fixpoint pool_steps (cfg : Config.t) (cs : list pool_call) : M ParticlePool.state unit :=
  match cs with
  | [] => mret tt
  | c :: cs => pool_step cfg c ;; pool_steps cfg cs
  end.

(** Every [release] of the sequence is given a particle that is live
    when the call is made. *)
Fixpoint releases_live (cfg : Config.t) (cs : list pool_call) (s : ParticlePool.state) : Prop :=
  match cs with
  | [] => True
  | c :: cs =>
      match c with
      | Release particle => particle ∈ ParticlePool.active (ParticlePool.this s)
      | _ => True
      end ∧ releases_live cfg cs (snd (pool_step cfg c s))
  end.

(** Three live particles and one free one, at time 5000; the particle
    spawned at 1000 is beyond its lifetime of 2000. *)
Definition three_live : ParticlePool.state :=
  {| ParticlePool.ambient := at_time 5000;
     ParticlePool.heap := [Particle.set_birthTime 4000 young_particle;
                           young_particle;
                           Particle.set_birthTime 4500 young_particle;
                           Particle.new desktop];
     ParticlePool.this := {| ParticlePool.pool := [3]; ParticlePool.active := [0; 1; 2] |} |}.

(** ** The rest of the particle engine: drawing, the frame loop, the
    life cycle and the global instance *)

(** The calls made on the 2D context, in the order they are made. *)
Module Canvas.

Inductive command : Type :=
| save
| restore
| translate (x y : R)
| rotate (angle : R)
| globalAlpha (alpha : R)
| fillStyle (color : string)
| fillRect (x y w h : R)
| clearRect (x y : R) (w h : option R).

(** Whether the commands leave the state of the context as they found
    it: [save] and [restore] are matched, and the transform, the alpha and
    the fill style are set between a [save] and its [restore] only.
    [depth] is the number of [save]s that are open. *)
Fixpoint scoped (depth : nat) (commands : list command) : bool :=
  match commands with
  | [] => bool_decide (depth = 0)
  | save :: rest => scoped (S depth) rest
  | restore :: rest =>
      match depth with
      | O => false
      | S d => scoped d rest
      end
  | (translate _ _ | rotate _ | globalAlpha _ | fillStyle _) :: rest =>
      match depth with
      | O => false
      | S _ => scoped depth rest
      end
  | (fillRect _ _ _ _ | clearRect _ _ _ _) :: rest => scoped depth rest
  end.

(** The squares painted. *)
Definition is_fillRect (c : command) : bool :=
  match c with fillRect _ _ _ _ => true | _ => false end.

Definition painted (commands : list command) : nat :=
  length (List.filter is_fillRect commands).

End Canvas.

(** [Particle.draw(ctx)] and [ParticlePool.draw(ctx)] *)
Module Drawing.
Section methods.
Context (cfg : Config.t).
Local Open Scope R_scope.

Definition Particle_draw (this : Particle.t) : list Canvas.command :=
  if negb (Particle.active this) || bool_decide (Particle.life this <= 0) then [] else
  let alpha := if Config.fadeOut cfg then Particle.life this else 1 in
  [ Canvas.save;
    Canvas.translate (Particle.x this) (Particle.y this);
    Canvas.rotate (Particle.rotation this);
    Canvas.globalAlpha alpha;
    Canvas.fillStyle (Particle.color this);
    Canvas.fillRect (- Particle.size this / 2) (- Particle.size this / 2)
                    (Particle.size this) (Particle.size this);
    Canvas.restore ].

(** [this.active.forEach(particle => particle.draw(ctx))]; the callback
    leaves the array alone. *)
Definition ParticlePool_draw (s : ParticlePool.state) : list Canvas.command :=
  concat (map (λ particle,
                 match ParticlePool.heap s !! particle with
                 | Some p => Particle_draw p
                 | None => []
                 end)
              (ParticlePool.active (ParticlePool.this s))).

End methods.
End Drawing.

(** [Math.round] *)
Definition Math_round (r : R) : Z := floor (r + 1 / 2).

(** The frame loop of [ParticleEngine], with the timing fields the spawn
    methods do not use.  A time that is [undefined] (the direct call
    [this.animate()] of [start] and [resume]) is [None], and so is the
    [NaN] it makes of [deltaTime]. *)
Module Loop.

Record Timing : Type := mk_timing {
  lastTime : option R;
  fps : Z;
  frameCount : nat;
  fpsUpdateTime : R
}.

(** The timing fields as [constructor()] sets them. *)
Definition constructor : Timing := mk_timing (Some 0%R) 0 0 0.

(** The engine with its timing fields, what it has sent to the canvas,
    and the frame requests of the browser: the handles that are
    outstanding, and the handle the next request will get. *)
Record Stage : Type := mk_stage {
  timing : Timing;
  canvas_calls : list Canvas.command;
  requests : list nat;
  next_request : nat;
  world : ParticleEngine.World
}.

Definition set_timing (t : Timing) (st : Stage) : Stage :=
  mk_stage t (canvas_calls st) (requests st) (next_request st) (world st).
Definition set_world (w : ParticleEngine.World) (st : Stage) : Stage :=
  mk_stage (timing st) (canvas_calls st) (requests st) (next_request st) w.
Definition set_requests (rs : list nat) (st : Stage) : Stage :=
  mk_stage (timing st) (canvas_calls st) rs (next_request st) (world st).
Definition call_canvas (commands : list Canvas.command) (st : Stage) : Stage :=
  mk_stage (timing st) (canvas_calls st ++ commands) (requests st) (next_request st) (world st).

Definition set_lastTime (v : option R) (t : Timing) : Timing :=
  mk_timing v (fps t) (frameCount t) (fpsUpdateTime t).

Definition in_world {A} (m : M ParticleEngine.World A) : M Stage A :=
  zoom world set_world m.

(** [requestAnimationFrame(callback)] and [cancelAnimationFrame(handle)] *)
Definition requestAnimationFrame : M Stage nat := λ st,
  (Return (next_request st),
   mk_stage (timing st) (canvas_calls st) (requests st ++ [next_request st])
            (S (next_request st)) (world st)).

Definition cancelAnimationFrame (handle : nat) : M Stage unit :=
  modify (λ st, set_requests (List.filter (λ h, negb (Nat.eqb h handle)) (requests st)) st).

(** [if (this.animationId)]: [null] and 0 are falsy. *)
Definition truthy (a : option nat) : bool :=
  match a with
  | Some (S _) => true
  | _ => false
  end.

Definition this_animationId : M Stage (option nat) :=
  gets (λ st, ParticleEngine.animationId (ParticleEngine.engine (world st))).

Definition set_this_animationId (a : option nat) : M Stage unit :=
  in_world (modify (λ w, ParticleEngine.set_engine
                           (ParticleEngine.set_animationId a (ParticleEngine.engine w)) w)).

Section methods.
Context (cfg : Config.t).
Local Open Scope R_scope.

Definition updateFPS (currentTime : option R) : M Stage unit :=
  modify (λ st, set_timing (mk_timing (lastTime (timing st)) (fps (timing st))
                                      (S (frameCount (timing st)))
                                      (fpsUpdateTime (timing st))) st);;
  t0 ← gets (λ st, fpsUpdateTime (timing st));
  match currentTime with
  | Some t =>
      if bool_decide (t0 + 1000 <= t)
      then modify (λ st, set_timing
                     (mk_timing (lastTime (timing st))
                                (Math_round (INR (frameCount (timing st)) * 1000 / (t - t0)))
                                0 t) st)
      else mret tt
  | None => mret tt
  end.

Definition animate (currentTime : option R) : M Stage unit :=
  h ← requestAnimationFrame;
  set_this_animationId (Some h);;
  last ← gets (λ st, lastTime (timing st));
  let deltaTime := match currentTime, last with
                   | Some t, Some l => Some (t - l)
                   | _, _ => None
                   end in
  modify (λ st, set_timing (set_lastTime currentTime (timing st)) st);;
  updateFPS currentTime;;
  (* this.ctx.clearRect(0, 0, this.width, this.height) *)
  in_world ParticleEngine.this_ctx;;
  wh ← gets (λ st, (ParticleEngine.width (ParticleEngine.engine (world st)),
                    ParticleEngine.height (ParticleEngine.engine (world st))));
  modify (call_canvas [Canvas.clearRect 0 0 wh.1 wh.2]);;
  (* this.pool.update(deltaTime); no method reads the argument *)
  in_world (ParticleEngine.this_pool (ParticlePool.update cfg (default 0 deltaTime)));;
  (* this.pool.draw(this.ctx) *)
  commands ← in_world (ParticleEngine.this_pool (gets (Drawing.ParticlePool_draw cfg)));
  modify (call_canvas commands).

(** [start()] and [resume()]; [now] is what [performance.now()] answers. *)
Definition start (now : R) : M Stage unit :=
  a ← this_animationId;
  if truthy a then mret tt else
  modify (λ st, set_timing (set_lastTime (Some now) (timing st)) st);;
  animate None.

Definition pause : M Stage unit :=
  a ← this_animationId;
  if truthy a
  then cancelAnimationFrame (default 0%nat a);;
       set_this_animationId None
  else mret tt.

Definition resume (now : R) : M Stage unit :=
  a ← this_animationId;
  if negb (truthy a)
  then modify (λ st, set_timing (set_lastTime (Some now) (timing st)) st);;
       animate None
  else mret tt.

(** [getStats()] *)
Record Stats : Type := mk_stats {
  activeParticles : nat;
  maxParticles : nat;
  poolSize : nat;
  stats_fps : Z;
  canvasSize : option R * option R
}.

Definition getStats : M Stage Stats :=
  n ← in_world (ParticleEngine.this_pool ParticlePool.getActiveCount);
  f ← gets (λ st, fps (timing st));
  wh ← gets (λ st, (ParticleEngine.width (ParticleEngine.engine (world st)),
                    ParticleEngine.height (ParticleEngine.engine (world st))));
  mret (mk_stats n (Config.maxParticles cfg) (Config.poolSize cfg) f wh).

(** [destroy()]; that the canvas leaves the document is not part of the
    state. *)
Definition destroy : M Stage unit :=
  pause;;
  in_world (ParticleEngine.this_pool (ParticlePool.clear cfg)).

End methods.

(** What happens to an engine: calls of its methods, the browser running
    the frame it was asked for, and the clock of [Date.now()] moving. *)
Inductive event : Type :=
| Start (now : R)
| Pause
| Resume (now : R)
| Destroy
| Frame (time : R)
| Tick (now : R).

Definition handle (cfg : Config.t) (e : event) : M Stage unit :=
  match e with
  | Start now => start cfg now
  | Pause => pause
  | Resume now => resume cfg now
  | Destroy => destroy cfg
  | Frame time =>
      rs ← gets requests;
      match rs with
      | [] => mret tt
      | _ :: rest => modify (set_requests rest);; animate cfg (Some time)
      end
  | Tick now =>
      in_world (modify (λ w, ParticleEngine.mk_world
                               (mk_ambient (randoms (ParticleEngine.ambient w))
                                           (drawn (ParticleEngine.ambient w)) now)
                               (ParticleEngine.heap w) (ParticleEngine.host w)
                               (ParticleEngine.engine w)))
  end.

(** The events one after the other; an exception of a handler is
    reported by the browser and the page goes on. *)
Fixpoint play (cfg : Config.t) (es : list event) (st : Stage) : Stage :=
  match es with
  | [] => st
  | e :: es => play cfg es (snd (handle cfg e st))
  end.

(** The stage when [animate] has requested the next frame and done its
    timing. *)
Definition timed (currentTime : option R) (st : Stage) : Stage :=
  snd ((h ← requestAnimationFrame;
        set_this_animationId (Some h);;
        modify (λ st, set_timing (set_lastTime currentTime (timing st)) st);;
        updateFPS currentTime) st).

(** The frame counter after frames at the times [times]. *)
Definition counted (times : list R) (st : Stage) : Stage :=
  fold_left (λ st t, snd (updateFPS (Some t) st)) times st.

(** The frame requests that are outstanding are the one whose handle
    [animationId] holds, if it holds one. *)
Definition one_loop (st : Stage) : Prop :=
  0 < next_request st ∧
  match ParticleEngine.animationId (ParticleEngine.engine (world st)) with
  | Some h => 0 < h ∧ requests st = [h]
  | None => requests st = []
  end.

End Loop.

(** An engine that has just been constructed, in a browser that has
    given out no frame handle yet. *)
Definition new_engine (context : option ParticleEngine.Context2D) : Loop.Stage :=
  {| Loop.timing := Loop.constructor;
     Loop.canvas_calls := [];
     Loop.requests := [];
     Loop.next_request := 1;
     Loop.world := page context |}.

(** Three live particles on an engine that is initialised and stopped. *)
Definition small_stage : Loop.Stage :=
  {| Loop.timing := Loop.constructor;
     Loop.canvas_calls := [];
     Loop.requests := [];
     Loop.next_request := 1;
     Loop.world :=
       {| ParticleEngine.ambient := at_time 5000;
          ParticleEngine.heap := ParticlePool.heap three_live;
          ParticleEngine.host := ParticleEngine.host (page (Some ParticleEngine.context_2d));
          ParticleEngine.engine :=
            {| ParticleEngine.canvas := Some (ParticleEngine.mk_canvas 2560 1440);
               ParticleEngine.ctx := Some ParticleEngine.context_2d;
               ParticleEngine.pool := Some (ParticlePool.this three_live);
               ParticleEngine.animationId := None;
               ParticleEngine.width := Some 1280%R;
               ParticleEngine.height := Some 720%R |} |} |}.

(** ** The global instance and its callers *)

Module Script.

(** The page the script runs in: the [ParticleEngine] objects by
    reference, the module variable [particleEngine], what the script has
    put on [window], and whether [initParticles] waits for
    [DOMContentLoaded].  [None] is [undefined]. *)
Record Page : Type := mk_page {
  ambient : Ambient;
  heap : list Particle.t;
  host : ParticleEngine.Host;
  engines : list ParticleEngine.t;
  particleEngine : option nat;
  listener : bool;
  window_particleEngine : option nat;
  window_spawnParticles : bool
}.

Definition set_particleEngine (v : option nat) (p : Page) : Page :=
  mk_page (ambient p) (heap p) (host p) (engines p) v (listener p)
          (window_particleEngine p) (window_spawnParticles p).
Definition set_listener (v : bool) (p : Page) : Page :=
  mk_page (ambient p) (heap p) (host p) (engines p) (particleEngine p) v
          (window_particleEngine p) (window_spawnParticles p).
Definition set_window_particleEngine (v : option nat) (p : Page) : Page :=
  mk_page (ambient p) (heap p) (host p) (engines p) (particleEngine p) (listener p)
          v (window_spawnParticles p).
Definition set_window_spawnParticles (v : bool) (p : Page) : Page :=
  mk_page (ambient p) (heap p) (host p) (engines p) (particleEngine p) (listener p)
          (window_particleEngine p) v.

(** The page before the script is evaluated. *)
Definition before (a : Ambient) (h : list Particle.t) (ho : ParticleEngine.Host) : Page :=
  mk_page a h ho [] None false None false.

(** [new ParticleEngine()] *)
Definition new_ParticleEngine : M Page nat := λ p,
  (Return (length (engines p)),
   mk_page (ambient p) (heap p) (host p) (engines p ++ [ParticleEngine.constructor])
           (particleEngine p) (listener p) (window_particleEngine p) (window_spawnParticles p)).

(** A method call [engine.method(...)] on the engine [e]. *)
Definition on_engine {A} (e : nat) (method : M ParticleEngine.World A) : M Page A := λ p,
  match engines p !! e with
  | None => (Throw (TypeError "Cannot read properties of undefined"), p)
  | Some this =>
      let '(o, w) := method (ParticleEngine.mk_world (ambient p) (heap p) (host p) this) in
      (o, mk_page (ParticleEngine.ambient w) (ParticleEngine.heap w) (host p)
                  (<[e := ParticleEngine.engine w]> (engines p))
                  (particleEngine p) (listener p) (window_particleEngine p)
                  (window_spawnParticles p))
  end.

Section script.
Context (IS_MOBILE_DEVICE : bool) (cfg : Config.t).

Definition initParticles : M Page nat :=
  pe ← gets particleEngine;
  match pe with
  | Some e => mret e
  | None =>
      e ← new_ParticleEngine;
      modify (set_particleEngine (Some e));;
      on_engine e (ParticleEngine.init cfg);;
      mret e
  end.

(** The top level of the script; [loading] is
    [document.readyState === 'loading']. *)
Definition evaluate (loading : bool) : M Page unit :=
  (if loading then modify (set_listener true) else initParticles;; mret tt);;
  pe ← gets particleEngine;
  modify (set_window_particleEngine pe);;
  modify (set_window_spawnParticles true).

(** The browser firing [DOMContentLoaded]. *)
Definition DOMContentLoaded : M Page unit :=
  l ← gets listener;
  if l : bool then initParticles;; mret tt else mret tt.

(** [window.spawnParticles(x, y, count, options)] *)
Definition spawnParticles (x y : R) (count : Z) (options : Particle.options) : M Page unit :=
  f ← gets window_spawnParticles;
  if negb f then throw (TypeError "window.spawnParticles is not a function") else
  pe ← gets particleEngine;
  match pe with
  | Some e => on_engine e (ParticleEngine.spawnBurst IS_MOBILE_DEVICE cfg x y count options)
  | None => mret tt
  end.

(** The particles of [PianoKeyHandler.activateKey] and [unlockPiano]:
    [if (window.particleEngine) window.particleEngine.spawn...(...)]. *)
Definition piano_key_particles (x y : R) (count : Z) (color : string) (size lifetime : R)
    : M Page unit :=
  pe ← gets window_particleEngine;
  match pe with
  | Some e =>
      on_engine e (ParticleEngine.spawnBurst IS_MOBILE_DEVICE cfg x y count
                     (Particle.mk_options Absent Absent (Given size) (Given color)
                                          (Given lifetime)))
  | None => mret tt
  end.

Definition piano_unlock_particles (centerX centerY : R) : M Page unit :=
  pe ← gets window_particleEngine;
  match pe with
  | Some e =>
      on_engine e (ParticleEngine.spawnExplosion IS_MOBILE_DEVICE cfg centerX centerY 30
                     (Particle.mk_options Absent (Given 5%R) Absent Absent Absent))
  | None => mret tt
  end.

End script.

End Script.

(** ** The message form: strings and patterns *)

(** JavaScript strings, as the sequences of their UTF-16 code units. *)
Module Str.

Definition t : Type := list N.

(** A string literal of the source that is plain ASCII. *)
Definition lit (s : string) : t := map Ascii.N_of_ascii (String.list_ascii_of_string s).

(** LineTerminator: LF, CR, LS, PS. *)
Definition is_line_terminator (c : N) : bool :=
  (c =? 0x0A)%N || (c =? 0x0D)%N || (c =? 0x2028)%N || (c =? 0x2029)%N.

(** WhiteSpace and LineTerminator: what [trim()] strips and [\s] matches. *)
Definition is_white_space (c : N) : bool :=
  ((0x09 <=? c)%N && (c <=? 0x0D)%N) || (c =? 0x20)%N || (c =? 0xA0)%N || (c =? 0x1680)%N
  || ((0x2000 <=? c)%N && (c <=? 0x200A)%N) || (c =? 0x2028)%N || (c =? 0x2029)%N
  || (c =? 0x202F)%N || (c =? 0x205F)%N || (c =? 0x3000)%N || (c =? 0xFEFF)%N.

Fixpoint trimStart (s : t) : t :=
  match s with
  | c :: rest => if is_white_space c then trimStart rest else s
  | [] => []
  end.

Definition trimEnd (s : t) : t := rev (trimStart (rev s)).

Definition trim (s : t) : t := trimEnd (trimStart s).

(** [s.substring(0, n)] *)
Definition substring0 (n : nat) (s : t) : t := take n s.

End Str.

(** Regular expressions over code units, matched by derivatives. *)
Module RegExp.

Inductive t : Type :=
| Empty                      (* matches nothing *)
| Eps                        (* the empty string *)
| Class (p : N → bool)       (* one code unit of a class *)
| Cat (r1 r2 : t)
| Alt (r1 r2 : t)
| Star (r : t).

(** [r+] *)
Definition Plus (r : t) : t := Cat r (Star r).

Fixpoint nullable (r : t) : bool :=
  match r with
  | Empty => false
  | Eps => true
  | Class _ => false
  | Cat r1 r2 => nullable r1 && nullable r2
  | Alt r1 r2 => nullable r1 || nullable r2
  | Star _ => true
  end.

Fixpoint deriv (c : N) (r : t) : t :=
  match r with
  | Empty => Empty
  | Eps => Empty
  | Class p => if p c then Eps else Empty
  | Cat r1 r2 =>
      if nullable r1 then Alt (Cat (deriv c r1) r2) (deriv c r2)
      else Cat (deriv c r1) r2
  | Alt r1 r2 => Alt (deriv c r1) (deriv c r2)
  | Star r1 => Cat (deriv c r1) (Star r1)
  end.

(** [/^r$/.test(s)] *)
Fixpoint test (r : t) (s : Str.t) : bool :=
  match s with
  | [] => nullable r
  | c :: rest => test (deriv c r) rest
  end.

(** The strings a pattern denotes. *)
Inductive lang : t → Str.t → Prop :=
| lang_eps : lang Eps []
| lang_class p c : p c = true → lang (Class p) [c]
| lang_cat r1 r2 s1 s2 : lang r1 s1 → lang r2 s2 → lang (Cat r1 r2) (s1 ++ s2)
| lang_alt_l r1 r2 s : lang r1 s → lang (Alt r1 r2) s
| lang_alt_r r1 r2 s : lang r2 s → lang (Alt r1 r2) s
| lang_star_nil r : lang (Star r) []
| lang_star_cons r s1 s2 : lang r s1 → lang (Star r) s2 → lang (Star r) (s1 ++ s2).

End RegExp.

(** [/^[^\s@]+@[^\s@]+\.[^\s@]+$/] *)
Definition email_class (c : N) : bool := negb (Str.is_white_space c || (c =? 0x40)%N).

Definition email_regex : RegExp.t :=
  RegExp.Cat (RegExp.Plus (RegExp.Class email_class))
    (RegExp.Cat (RegExp.Class (N.eqb 0x40))
       (RegExp.Cat (RegExp.Plus (RegExp.Class email_class))
          (RegExp.Cat (RegExp.Class (N.eqb 0x2E))
             (RegExp.Plus (RegExp.Class email_class))))).

(** [/(.)\1{10,}/.test(s)]: at some index, a code unit that is not a
    line terminator, followed by ten or more copies of itself. *)
Fixpoint run_of (c : N) (s : Str.t) : nat :=
  match s with
  | d :: rest => if (d =? c)%N then S (run_of c rest) else 0
  | [] => 0
  end.

Fixpoint spam_test (s : Str.t) : bool :=
  match s with
  | [] => false
  | c :: rest =>
      (negb (Str.is_line_terminator c) && (10 <=? run_of c rest)) || spam_test rest
  end.

(** ** MESSAGE_CONFIG, FormStateManager, FormValidator *)

Module MessageConfig.
Record t : Type := mk {
  maxChars : nat;
  minChars : nat;
  enableEmailSending : bool;
  chikawaImages : list string;
  rainDuration : R;
  rainBurstInterval : R;
  rainEmojis : list string;
  maxRetries : nat
}.
End MessageConfig.

(** The emojis are written by their names. *)
Definition MESSAGE_CONFIG : MessageConfig.t :=
  {| MessageConfig.maxChars := 2000;
     MessageConfig.minChars := 5;
     MessageConfig.enableEmailSending := true;
     MessageConfig.chikawaImages :=
       ["images/chiikawa-falling-1.png"; "images/chiikawa-falling-2.png"];
     MessageConfig.rainDuration := 4;
     MessageConfig.rainBurstInterval := 500;
     MessageConfig.rainEmojis :=
       ["party popper"; "sparkles"; "green heart"; "wrapped gift"; "star"];
     MessageConfig.maxRetries := 3 |}.

Module FormStateManager.

Record state : Type := mk_state {
  message : Str.t;
  name : Str.t;
  email : Str.t;
  isValid : bool;
  isSubmitting : bool;
  submitCount : nat;
  emailSent : bool;
  timestamp : Z
}.

(** The object passed to [setState]: the keys it has. *)
Record updates : Type := mk_updates {
  u_message : option Str.t;
  u_name : option Str.t;
  u_email : option Str.t;
  u_isValid : option bool;
  u_isSubmitting : option bool;
  u_submitCount : option nat;
  u_emailSent : option bool
}.

Definition no_updates : updates := mk_updates None None None None None None None.

(** [Object.assign(state, updates)] *)
Definition assign (s : state) (u : updates) : state :=
  mk_state (default (message s) (u_message u))
           (default (name s) (u_name u))
           (default (email s) (u_email u))
           (default (isValid s) (u_isValid u))
           (default (isSubmitting s) (u_isSubmitting u))
           (default (submitCount s) (u_submitCount u))
           (default (emailSent s) (u_emailSent u))
           (timestamp s).

Record entry : Type := mk_entry {
  e_timestamp : Z;
  e_old : state;
  e_new : state
}.

Record t : Type := mk {
  state_of : state;
  history : list entry
}.

Definition initial (now : Z) : state :=
  mk_state [] [] [] false false 0 false now.

(** [constructor()], [getState()], [setState(updates)] and [reset()];
    [now] is [Date.now()]. *)
Definition constructor (now : Z) : t := mk (initial now) [].

Definition getState (this : t) : state := state_of this.

Definition setState (now : Z) (u : updates) (this : t) : t :=
  let old := state_of this in
  let new := assign old u in
  mk new (history this ++ [mk_entry now old new]).

Definition reset (now : Z) (this : t) : t := mk (initial now) (history this).

End FormStateManager.

Module FormValidator.

(** The messages [errors] can hold. *)
Inductive reason : Type :=
| Blank          (* 'Lời nhắn không được bỏ trống' *)
| TooShort       (* `Tối thiểu ${MESSAGE_CONFIG.minChars} ký tự` *)
| TooLong        (* `Tối đa ${MESSAGE_CONFIG.maxChars} ký tự` *)
| Repeats        (* 'Không được lặp ký tự quá nhiều' *)
| BadEmail       (* 'Email không hợp lệ' *)
| ShortName.     (* 'Tên phải ít nhất 2 ký tự' *)

(** [this.errors]: the keys it has. *)
Record errors : Type := mk_errors {
  e_message : option reason;
  e_email : option reason;
  e_name : option reason
}.

Definition no_errors : errors := mk_errors None None None.

Section methods.
Context (cfg : MessageConfig.t).

Definition validateMessage (message : Str.t) : M errors bool :=
  modify (λ _, no_errors);;
  if bool_decide (length (Str.trim message) = 0) then
    modify (λ e, mk_errors (Some Blank) (e_email e) (e_name e));; mret false
  else if bool_decide (length (Str.trim message) < MessageConfig.minChars cfg) then
    modify (λ e, mk_errors (Some TooShort) (e_email e) (e_name e));; mret false
  else if bool_decide (MessageConfig.maxChars cfg < length message) then
    modify (λ e, mk_errors (Some TooLong) (e_email e) (e_name e));; mret false
  else if spam_test message then
    modify (λ e, mk_errors (Some Repeats) (e_email e) (e_name e));; mret false
  else mret true.

Definition validateEmail (email : Str.t) : M errors bool :=
  if bool_decide (email = []) then mret true
  else if negb (RegExp.test email_regex email) then
    modify (λ e, mk_errors (e_message e) (Some BadEmail) (e_name e));; mret false
  else mret true.

Definition validateName (name : Str.t) : M errors bool :=
  if bool_decide (name = []) then mret true
  else if bool_decide (length (Str.trim name) < 2) then
    modify (λ e, mk_errors (e_message e) (e_email e) (Some ShortName));; mret false
  else mret true.

Definition validate (message name email : Str.t) : M errors bool :=
  modify (λ _, no_errors);;
  msgValid ← validateMessage message;
  emailValid ← validateEmail email;
  nameValid ← validateName name;
  mret (msgValid && emailValid && nameValid).

End methods.

End FormValidator.

(** ** localStorage *)

(** The items of the storage, in the order [key(i)] enumerates them. *)
Module Storage.

Definition t : Type := list (string * string).

Definition key (i : nat) (st : t) : option string := fst <$> st !! i.

Definition getItem (k : string) (st : t) : option string :=
  snd <$> List.find (λ kv, String.eqb (fst kv) k) st.

Fixpoint setItem (k v : string) (st : t) : t :=
  match st with
  | [] => [(k, v)]
  | (k', v') :: rest => if String.eqb k' k then (k, v) :: rest else (k', v') :: setItem k v rest
  end.

Definition removeItem (k : string) (st : t) : t :=
  List.filter (λ kv, negb (String.eqb (fst kv) k)) st.

End Storage.

(** ** MessageFormController and the storage utilities *)

Module MessageForm.

Record FormData : Type := mk_data {
  fd_message : Str.t;
  fd_name : Str.t;
  fd_email : Str.t;
  fd_timestamp : Z          (* new Date().toISOString(), as the time it renders *)
}.

(** The controller with the page it works on.  An input element that is
    missing is [None]; of the styling only the [disabled] flags are kept. *)
Record t : Type := mk {
  messageInput : Str.t;              (* messageInput.value *)
  nameInput : option Str.t;          (* nameInput?.value *)
  emailInput : option Str.t;         (* emailInput?.value *)
  submitBtn : option bool;           (* submitBtn.disabled *)
  fields_disabled : bool;            (* the inputs and the textarea of the form *)
  isSubmitted : bool;
  stateManager : FormStateManager.t;
  validator : FormValidator.errors;
  localStorage : Storage.t;
  storage_full : bool;               (* setItem throws QuotaExceededError *)
  now : Z;                           (* Date.now() *)
  alerts : nat;                      (* the calls of alert() *)
  mail : list FormData;              (* the calls of emailService.send() *)
  sending : bool                     (* the promise of the last send is pending *)
}.

Definition set_messageInput (v : Str.t) (f : t) : t :=
  mk v (nameInput f) (emailInput f) (submitBtn f) (fields_disabled f) (isSubmitted f)
     (stateManager f) (validator f) (localStorage f) (storage_full f) (now f) (alerts f)
     (mail f) (sending f).
Definition set_nameInput (v : option Str.t) (f : t) : t :=
  mk (messageInput f) v (emailInput f) (submitBtn f) (fields_disabled f) (isSubmitted f)
     (stateManager f) (validator f) (localStorage f) (storage_full f) (now f) (alerts f)
     (mail f) (sending f).
Definition set_emailInput (v : option Str.t) (f : t) : t :=
  mk (messageInput f) (nameInput f) v (submitBtn f) (fields_disabled f) (isSubmitted f)
     (stateManager f) (validator f) (localStorage f) (storage_full f) (now f) (alerts f)
     (mail f) (sending f).
Definition set_submitBtn (v : option bool) (f : t) : t :=
  mk (messageInput f) (nameInput f) (emailInput f) v (fields_disabled f) (isSubmitted f)
     (stateManager f) (validator f) (localStorage f) (storage_full f) (now f) (alerts f)
     (mail f) (sending f).
Definition set_fields_disabled (v : bool) (f : t) : t :=
  mk (messageInput f) (nameInput f) (emailInput f) (submitBtn f) v (isSubmitted f)
     (stateManager f) (validator f) (localStorage f) (storage_full f) (now f) (alerts f)
     (mail f) (sending f).
Definition set_isSubmitted (v : bool) (f : t) : t :=
  mk (messageInput f) (nameInput f) (emailInput f) (submitBtn f) (fields_disabled f) v
     (stateManager f) (validator f) (localStorage f) (storage_full f) (now f) (alerts f)
     (mail f) (sending f).
Definition set_stateManager (v : FormStateManager.t) (f : t) : t :=
  mk (messageInput f) (nameInput f) (emailInput f) (submitBtn f) (fields_disabled f)
     (isSubmitted f) v (validator f) (localStorage f) (storage_full f) (now f) (alerts f)
     (mail f) (sending f).
Definition set_validator (v : FormValidator.errors) (f : t) : t :=
  mk (messageInput f) (nameInput f) (emailInput f) (submitBtn f) (fields_disabled f)
     (isSubmitted f) (stateManager f) v (localStorage f) (storage_full f) (now f) (alerts f)
     (mail f) (sending f).
Definition set_localStorage (v : Storage.t) (f : t) : t :=
  mk (messageInput f) (nameInput f) (emailInput f) (submitBtn f) (fields_disabled f)
     (isSubmitted f) (stateManager f) (validator f) v (storage_full f) (now f) (alerts f)
     (mail f) (sending f).
Definition set_now (v : Z) (f : t) : t :=
  mk (messageInput f) (nameInput f) (emailInput f) (submitBtn f) (fields_disabled f)
     (isSubmitted f) (stateManager f) (validator f) (localStorage f) (storage_full f) v
     (alerts f) (mail f) (sending f).
Definition alert (f : t) : t :=
  mk (messageInput f) (nameInput f) (emailInput f) (submitBtn f) (fields_disabled f)
     (isSubmitted f) (stateManager f) (validator f) (localStorage f) (storage_full f) (now f)
     (S (alerts f)) (mail f) (sending f).
Definition send_mail (d : FormData) (f : t) : t :=
  mk (messageInput f) (nameInput f) (emailInput f) (submitBtn f) (fields_disabled f)
     (isSubmitted f) (stateManager f) (validator f) (localStorage f) (storage_full f) (now f)
     (alerts f) (mail f ++ [d]) true.
Definition set_sending (v : bool) (f : t) : t :=
  mk (messageInput f) (nameInput f) (emailInput f) (submitBtn f) (fields_disabled f)
     (isSubmitted f) (stateManager f) (validator f) (localStorage f) (storage_full f) (now f)
     (alerts f) (mail f) v.

(** What [submitForm] has done when it reaches its [await], or returns. *)
Inductive submission : Type :=
| Ignored                         (* submitted already *)
| Rejected                        (* the state is not valid: an alert *)
| Submitted (formData : FormData).

Section methods.
Context (cfg : MessageConfig.t).
Context (JSON_stringify : FormData → string).

(** [this.stateManager.setState(updates)] *)
Definition setState (u : FormStateManager.updates) : M t unit :=
  modify (λ f, set_stateManager (FormStateManager.setState (now f) u (stateManager f)) f).

Definition updateSubmitButton : M t unit :=
  b ← gets submitBtn;
  match b with
  | None => mret tt
  | Some _ =>
      state ← gets (λ f, FormStateManager.getState (stateManager f));
      let isDisabled := negb (FormStateManager.isValid state)
                        || FormStateManager.isSubmitting state in
      modify (set_submitBtn (Some isDisabled))
  end.

Definition validateMessage : M t unit :=
  message ← gets messageInput;
  name ← gets (λ f, default [] (nameInput f));
  email ← gets (λ f, default [] (emailInput f));
  isValid ← zoom validator set_validator (FormValidator.validate cfg message name email);
  setState (FormStateManager.mk_updates (Some message) (Some name) (Some email) (Some isValid)
                                        None None None);;
  updateSubmitButton.

(** The handler of [input] on the message field; [e.target.value] is the
    value of the field.  The character counter and its bar are display
    only. *)
Definition onMessageInput : M t unit :=
  message ← gets messageInput;
  let max := MessageConfig.maxChars cfg in
  if bool_decide (max < length message)
  then modify (set_messageInput (Str.substring0 max message))
  else validateMessage.

Definition disableForm : M t unit :=
  modify (set_fields_disabled true);;
  b ← gets submitBtn;
  match b with
  | Some _ => modify (set_submitBtn (Some true))
  | None => mret tt
  end.

Definition enableForm : M t unit :=
  modify (set_fields_disabled false);;
  b ← gets submitBtn;
  match b with
  | Some _ => modify (set_submitBtn (Some false))
  | None => mret tt
  end.

(** [saveToStorage(formData)]: an exception of [setItem] is caught. *)
Definition saveToStorage (formData : FormData) : M t unit :=
  t ← gets now;
  let key := "msg_" +:+ pretty t in
  full ← gets storage_full;
  if full : bool then mret tt
  else modify (λ f, set_localStorage
                      (Storage.setItem key (JSON_stringify formData) (localStorage f)) f).

(** [a || b] on strings *)
Definition or_string (a b : Str.t) : Str.t :=
  match a with [] => b | _ => a end.

(** [submitForm()] up to its [await]. *)
Definition submitForm : M t submission :=
  done ← gets isSubmitted;
  if done : bool then mret Ignored else
  state ← gets (λ f, FormStateManager.getState (stateManager f));
  if negb (FormStateManager.isValid state) then modify alert;; mret Rejected else
  modify (set_isSubmitted true);;
  setState (FormStateManager.mk_updates None None None None (Some true)
              (Some (FormStateManager.submitCount state + 1)) None);;
  disableForm;;
  t ← gets now;
  let formData :=
    {| fd_message := Str.trim (FormStateManager.message state);
       fd_name := or_string (Str.trim (FormStateManager.name state)) (Str.lit "Anonymous");
       fd_email := or_string (Str.trim (FormStateManager.email state)) [];
       fd_timestamp := t |} in
  saveToStorage formData;;
  (if MessageConfig.enableEmailSending cfg then modify (send_mail formData) else mret tt);;
  mret (Submitted formData).

(** [submitForm()] after its [await]: the send has succeeded (the rain
    and the success message are display only), or it has thrown. *)
Definition send_succeeded : M t unit :=
  modify (set_sending false);;
  setState (FormStateManager.mk_updates None None None None None None (Some true)).

Definition send_failed : M t unit :=
  modify (set_sending false);;
  modify alert;;
  modify (set_isSubmitted false);;
  enableForm.

End methods.

(** What happens to the form. *)
Inductive event : Type :=
| TypeMessage (value : Str.t)      (* the user edits the message: an [input] event *)
| TypeName (value : Str.t)
| TypeEmail (value : Str.t)
| Blur                             (* the message field loses the focus *)
| Submit                           (* the form is submitted, or Ctrl+Enter *)
| Sent                             (* the pending send succeeds *)
| SendFailed                       (* the pending send fails, retries included *)
| Tick (now : Z).                  (* the clock moves *)

Section events.
Context (cfg : MessageConfig.t).
Context (JSON_stringify : FormData → string).

Definition handle (e : event) : M t unit :=
  match e with
  | TypeMessage value => modify (set_messageInput value);; onMessageInput cfg
  | TypeName value =>
      modify (λ f, match nameInput f with
                   | Some _ => set_nameInput (Some value) f
                   | None => f
                   end)
  | TypeEmail value =>
      modify (λ f, match emailInput f with
                   | Some _ => set_emailInput (Some value) f
                   | None => f
                   end)
  | Blur => validateMessage cfg
  | Submit => submitForm cfg JSON_stringify;; mret tt
  | Sent =>
      pending ← gets sending;
      if pending : bool then send_succeeded else mret tt
  | SendFailed =>
      pending ← gets sending;
      if pending : bool then send_failed else mret tt
  | Tick t => modify (set_now t)
  end.

Fixpoint play (es : list event) (f : t) : t :=
  match es with
  | [] => f
  | e :: es => play es (snd (handle e f))
  end.

End events.

(** [getAllMessages()] and [clearAllMessages()]; [JSON_parse] answers
    [None] where [JSON.parse] throws.  The loops run over the indices
    [i, i + 1, ...] of the storage, [k] of them. *)
Section utilities.
Context {J : Type} (JSON_parse : string → option J).

Fixpoint collect_messages (k i : nat) (messages : list J) : M Storage.t (list J) :=
  match k with
  | O => mret messages
  | S k =>
      key ← gets (Storage.key i);
      match key with
      | Some key =>
          if String.prefix "msg_" key then
            item ← gets (Storage.getItem key);
            match item ≫= JSON_parse with
            | Some m => collect_messages k (S i) (messages ++ [m])
            | None => collect_messages k (S i) messages
            end
          else collect_messages k (S i) messages
      | None => collect_messages k (S i) messages
      end
  end.

Definition getAllMessages : M Storage.t (list J) :=
  n ← gets (λ st, length st);
  collect_messages n 0 [].

End utilities.

Fixpoint collect_keys (k i : nat) (keys : list string) : M Storage.t (list string) :=
  match k with
  | O => mret keys
  | S k =>
      key ← gets (Storage.key i);
      match key with
      | Some key =>
          if String.prefix "msg_" key then collect_keys k (S i) (keys ++ [key])
          else collect_keys k (S i) keys
      | None => collect_keys k (S i) keys
      end
  end.

Fixpoint remove_each (keys : list string) : M Storage.t unit :=
  match keys with
  | [] => mret tt
  | key :: rest => modify (Storage.removeItem key);; remove_each rest
  end.

Definition clearAllMessages : M Storage.t unit :=
  n ← gets (λ st, length st);
  keys ← collect_keys n 0 [];
  remove_each keys.

End MessageForm.

(** ** What the form accepts *)

(** Eleven equal code units in a row that are no line terminators. *)
Definition has_run (s : Str.t) : Prop :=
  ∃ pre c post, s = pre ++ replicate 11 c ++ post ∧ Str.is_line_terminator c = false.

Definition acceptable_message (cfg : MessageConfig.t) (m : Str.t) : Prop :=
  0 < length (Str.trim m) ∧
  MessageConfig.minChars cfg ≤ length (Str.trim m) ∧
  length m ≤ MessageConfig.maxChars cfg ∧
  ¬ has_run m.

(** [local@domain.tld]: three parts without white space and [@], none of
    them empty; the domain may hold dots. *)
Definition acceptable_email (s : Str.t) : Prop :=
  s = [] ∨
  ∃ A B C, s = A ++ [0x40%N] ++ B ++ [0x2E%N] ++ C ∧
           A ≠ [] ∧ B ≠ [] ∧ C ≠ [] ∧
           Forall (λ c, email_class c = true) (A ++ B ++ C).

Definition acceptable_name (s : Str.t) : Prop :=
  s = [] ∨ 2 ≤ length (Str.trim s).

(** The data [submitForm] may store and send. *)
Definition well_formed_data (cfg : MessageConfig.t) (d : MessageForm.FormData) : Prop :=
  0 < length (MessageForm.fd_message d) ∧
  MessageConfig.minChars cfg ≤ length (MessageForm.fd_message d) ∧
  length (MessageForm.fd_message d) ≤ MessageConfig.maxChars cfg ∧
  Str.trim (MessageForm.fd_message d) = MessageForm.fd_message d ∧
  ¬ has_run (MessageForm.fd_message d) ∧
  MessageForm.fd_name d ≠ [].

(** The controller as [new MessageFormController()] and [init()] leave
    it, on a page with all its elements, at the time [now]. *)
Definition new_form (now : Z) (storage : Storage.t) : MessageForm.t :=
  {| MessageForm.messageInput := [];
     MessageForm.nameInput := Some [];
     MessageForm.emailInput := Some [];
     MessageForm.submitBtn := Some false;
     MessageForm.fields_disabled := false;
     MessageForm.isSubmitted := false;
     MessageForm.stateManager := FormStateManager.constructor now;
     MessageForm.validator := FormValidator.no_errors;
     MessageForm.localStorage := storage;
     MessageForm.storage_full := false;
     MessageForm.now := now;
     MessageForm.alerts := 0;
     MessageForm.mail := [];
     MessageForm.sending := false |}.

(** The form after [validateMessage()], when [validate] has answered [b]
    and left the errors [e]. *)
Definition validated (b : bool) (e : FormValidator.errors) (f : MessageForm.t) : MessageForm.t :=
  let f1 := MessageForm.set_stateManager
              (FormStateManager.setState (MessageForm.now f)
                 (FormStateManager.mk_updates
                    (Some (MessageForm.messageInput f))
                    (Some (default [] (MessageForm.nameInput f)))
                    (Some (default [] (MessageForm.emailInput f)))
                    (Some b) None None None)
                 (MessageForm.stateManager f))
              (MessageForm.set_validator e f) in
  match MessageForm.submitBtn f with
  | Some _ =>
      MessageForm.set_submitBtn
        (Some (negb b || FormStateManager.isSubmitting
                           (FormStateManager.state_of (MessageForm.stateManager f)))) f1
  | None => f1
  end.

(** The data a submit of the form [f] stores and sends. *)
Definition form_data (f : MessageForm.t) : MessageForm.FormData :=
  let state := FormStateManager.state_of (MessageForm.stateManager f) in
  {| MessageForm.fd_message := Str.trim (FormStateManager.message state);
     MessageForm.fd_name :=
       MessageForm.or_string (Str.trim (FormStateManager.name state)) (Str.lit "Anonymous");
     MessageForm.fd_email := MessageForm.or_string (Str.trim (FormStateManager.email state)) [];
     MessageForm.fd_timestamp := MessageForm.now f |}.

(** The form when an accepted [submitForm] reaches its [await]. *)
Definition submitted (cfg : MessageConfig.t) (JSON_stringify : MessageForm.FormData → string)
    (f : MessageForm.t) : MessageForm.t :=
  let state := FormStateManager.state_of (MessageForm.stateManager f) in
  let f1 := MessageForm.set_stateManager
              (FormStateManager.setState (MessageForm.now f)
                 (FormStateManager.mk_updates None None None None (Some true)
                    (Some (FormStateManager.submitCount state + 1)) None)
                 (MessageForm.stateManager f))
              (MessageForm.set_isSubmitted true f) in
  let f2 := MessageForm.set_fields_disabled true f1 in
  let f3 := match MessageForm.submitBtn f with
            | Some _ => MessageForm.set_submitBtn (Some true) f2
            | None => f2
            end in
  let f4 := if MessageForm.storage_full f then f3
            else MessageForm.set_localStorage
                   (Storage.setItem ("msg_" +:+ pretty (MessageForm.now f))
                      (JSON_stringify (form_data f)) (MessageForm.localStorage f)) f3 in
  if MessageConfig.enableEmailSending cfg then MessageForm.send_mail (form_data f) f4 else f4.

(** A state that is marked valid holds an acceptable message. *)
Definition sound (cfg : MessageConfig.t) (f : MessageForm.t) : Prop :=
  FormStateManager.isValid (FormStateManager.state_of (MessageForm.stateManager f)) = true →
  acceptable_message cfg
    (FormStateManager.message (FormStateManager.state_of (MessageForm.stateManager f))).

(** What the form [f'] has sent and stored since it was [f] is well formed. *)
Definition adds_well_formed (cfg : MessageConfig.t)
    (JSON_stringify : MessageForm.FormData → string) (f f' : MessageForm.t) : Prop :=
  (∀ d, d ∈ MessageForm.mail f' → d ∈ MessageForm.mail f ∨ well_formed_data cfg d) ∧
  (∀ k v, (k, v) ∈ MessageForm.localStorage f' →
          (k, v) ∈ MessageForm.localStorage f
          ∨ ∃ d, v = JSON_stringify d ∧ well_formed_data cfg d).

(** An item of the storage whose key starts with [msg_]. *)
Definition is_message (kv : string * string) : bool := String.prefix "msg_" (fst kv).

(** A new form into which the user has typed a message. *)
Definition typed_form : MessageForm.t :=
  snd (MessageForm.handle MESSAGE_CONFIG (λ d, pretty (MessageForm.fd_timestamp d))
         (MessageForm.TypeMessage (Str.lit "hello world")) (new_form 1000 [])).

(** ** RainEngine *)

Module Rain.

(** What a burst puts into the container; of the styling, the position
    and the duration of the animation are kept. *)
Inductive element : Type :=
| chiikawa (image : string) (left duration : R)
| emoji (char : string) (left duration : R)
| sparkle (left top duration : R).

(** What a timer does when it fires. *)
Inductive action : Type :=
| burst
| remove_particle (particle : nat)
| remove_sparkle (node : nat).

Record timer : Type := mk_timer { delay : R; act : action }.

(** The engine, the elements it has created (by reference), the
    children of its container ([None] before [init()]) and the timers
    that are pending. *)
Record t : Type := mk {
  container : option (list nat);
  isActive : bool;
  particles : list nat;
  elements : list element;
  timers : list timer
}.

Record World : Type := mk_world {
  ambient : Ambient;
  innerWidth : R;
  innerHeight : R;
  engine : t
}.

Definition set_engine (e : t) (w : World) : World :=
  mk_world (ambient w) (innerWidth w) (innerHeight w) e.
Definition set_ambient (a : Ambient) (w : World) : World :=
  mk_world a (innerWidth w) (innerHeight w) (engine w).
Definition set_container (c : option (list nat)) (e : t) : t :=
  mk c (isActive e) (particles e) (elements e) (timers e).
Definition set_isActive (b : bool) (e : t) : t :=
  mk (container e) b (particles e) (elements e) (timers e).
Definition set_particles (ps : list nat) (e : t) : t :=
  mk (container e) (isActive e) ps (elements e) (timers e).

(** [constructor()] *)
Definition constructor : t := mk None false [] [] [].

Definition random : M World R := zoom ambient set_ambient Math_random.

(** [document.createElement('div')], styled as [el]. *)
Definition createElement (el : element) : M World nat := λ w,
  (Return (length (elements (engine w))),
   set_engine (mk (container (engine w)) (isActive (engine w)) (particles (engine w))
                  (elements (engine w) ++ [el]) (timers (engine w))) w).

(** [this.container.appendChild(node)] *)
Definition appendChild (node : nat) : M World unit := λ w,
  match container (engine w) with
  | None => (Throw (TypeError "Cannot read properties of null"), w)
  | Some children => (Return tt, set_engine (set_container (Some (children ++ [node])) (engine w)) w)
  end.

Definition setTimeout (a : action) (ms : R) : M World unit :=
  modify (λ w, set_engine (mk (container (engine w)) (isActive (engine w))
                              (particles (engine w)) (elements (engine w))
                              (timers (engine w) ++ [mk_timer ms a])) w).

(** [if (node.parentElement) node.remove()] *)
Definition remove (node : nat) : M World unit :=
  modify (λ w, set_engine
                 (set_container
                    (List.filter (λ n, negb (Nat.eqb n node)) <$> container (engine w))
                    (engine w)) w).

Section methods.
Context (cfg : MessageConfig.t).
Local Open Scope R_scope.

Definition init : M World unit :=
  c ← gets (λ w, container (engine w));
  match c with
  | Some _ => mret tt
  | None => modify (λ w, set_engine (set_container (Some []) (engine w)) w)
  end.

(** [array[Math.floor(Math.random() * array.length)]] *)
Definition pick (array : list string) : M World string :=
  r ← random;
  mret (nth (Z.to_nat (floor (r * INR (length array)))) array "undefined"%string).

Definition createChiikawaParticle : M World unit :=
  image ← pick (MessageConfig.chikawaImages cfg);
  r ← random;
  width ← gets innerWidth;
  let left := r * width in
  r ← random;
  let duration := MessageConfig.rainDuration cfg + r * 2 in
  particle ← createElement (chiikawa image left duration);
  appendChild particle;;
  modify (λ w, set_engine (set_particles (particles (engine w) ++ [particle]) (engine w)) w);;
  setTimeout (remove_particle particle) (duration * 1000).

Definition createEmojiParticle : M World unit :=
  char ← pick (MessageConfig.rainEmojis cfg);
  r ← random;
  width ← gets innerWidth;
  let left := r * width in
  r ← random;
  let duration := MessageConfig.rainDuration cfg + r * 2 in
  particle ← createElement (emoji char left duration);
  appendChild particle;;
  modify (λ w, set_engine (set_particles (particles (engine w) ++ [particle]) (engine w)) w);;
  setTimeout (remove_particle particle) (duration * 1000).

Definition createSparkles : M World unit :=
  for_range 0 5 (λ _,
    r ← random;
    width ← gets innerWidth;
    let left := r * width in
    r ← random;
    height ← gets innerHeight;
    let top := r * (height / 2) in
    r ← random;
    let duration := 2 + r in
    node ← createElement (sparkle left top duration);
    appendChild node;;
    setTimeout (remove_sparkle node) (duration * 1000)).

(** The closure [burst] of [start()]. *)
Definition run_burst : M World unit :=
  active ← gets (λ w, isActive (engine w));
  if negb active then mret tt else
  for_range 0 6 (λ _,
    r ← random;
    if bool_decide (r <= 0.3) then createEmojiParticle else createChiikawaParticle);;
  createSparkles;;
  setTimeout burst (MessageConfig.rainBurstInterval cfg).

Definition start : M World unit :=
  c ← gets (λ w, container (engine w));
  match c with None => init | Some _ => mret tt end;;
  modify (λ w, set_engine (set_isActive true (engine w)) w);;
  run_burst.

Definition stop : M World unit :=
  modify (λ w, set_engine (set_isActive false (engine w)) w).

Definition clear : M World unit :=
  modify (λ w, set_engine
                 (set_particles []
                    (set_container ((λ _, []) <$> container (engine w)) (engine w))) w).

(** A timer fires. *)
Definition fire (a : action) : M World unit :=
  match a with
  | burst => run_burst
  | remove_particle particle =>
      remove particle;;
      modify (λ w, set_engine
                     (set_particles
                        (List.filter (λ p, negb (Nat.eqb p particle)) (particles (engine w)))
                        (engine w)) w)
  | remove_sparkle node => remove node
  end.

End methods.

(** What happens to the rain: calls of its methods, and the browser
    running a timer that is pending (the one at the index [i]). *)
Inductive event : Type :=
| Start
| Stop
| Clear
| Fire (i : nat).

Definition handle (cfg : MessageConfig.t) (e : event) : M World unit :=
  match e with
  | Start => start cfg
  | Stop => stop
  | Clear => clear
  | Fire i =>
      tm ← gets (λ w, timers (engine w) !! i);
      match tm with
      | None => mret tt
      | Some tm =>
          modify (λ w, set_engine (mk (container (engine w)) (isActive (engine w))
                                      (particles (engine w)) (elements (engine w))
                                      (delete i (timers (engine w)))) w);;
          fire cfg (act tm)
      end
  end.

Fixpoint play (cfg : MessageConfig.t) (es : list event) (w : World) : World :=
  match es with
  | [] => w
  | e :: es => play cfg es (snd (handle cfg e w))
  end.

(** The burst loops that are running: the [burst] timers pending. *)
Definition loops (w : World) : nat :=
  length (List.filter (λ tm, match act tm with burst => true | _ => false end)
                      (timers (engine w))).

(** Every particle of [this.particles] and every child of the container
    has a timer pending that will remove it. *)
Definition tracked (w : World) : Prop :=
  (∀ p, p ∈ particles (engine w) →
        ∃ tm, tm ∈ timers (engine w) ∧ act tm = remove_particle p) ∧
  (∀ n, n ∈ default [] (container (engine w)) →
        ∃ tm, tm ∈ timers (engine w) ∧
              (act tm = remove_particle n ∨ act tm = remove_sparkle n)).

End Rain.

(** ** Runs that return *)

(** From a state that satisfies [P] the method [m] returns, in a state
    that satisfies [P] again and is related to the first by [R]. *)
Definition steps {S A} (P : S → Prop) (R : S → S → Prop) (m : M S A) : Prop :=
  ∀ s, P s → ∃ a s', m s = (Return a, s') ∧ R s s' ∧ P s'.

(** The rain has a container. *)
Definition rain_ready (w : Rain.World) : Prop := is_Some (Rain.container (Rain.engine w)).

(** From [w] to [w'] the rain has only created elements, each with the
    timer that will remove it: no [burst] timer was added, nothing was
    removed, and [isActive] is as it was. *)
Definition rain_grows (w w' : Rain.World) : Prop :=
  Rain.isActive (Rain.engine w') = Rain.isActive (Rain.engine w) ∧
  ∃ tms ps cs,
    Rain.timers (Rain.engine w') = Rain.timers (Rain.engine w) ++ tms ∧
    Rain.particles (Rain.engine w') = Rain.particles (Rain.engine w) ++ ps ∧
    Rain.container (Rain.engine w') = (λ c, c ++ cs) <$> Rain.container (Rain.engine w) ∧
    Forall (λ tm, Rain.act tm ≠ Rain.burst) tms ∧
    (∀ p, p ∈ ps → ∃ tm, tm ∈ tms ∧ Rain.act tm = Rain.remove_particle p) ∧
    (∀ n, n ∈ cs → ∃ tm, tm ∈ tms ∧ (Rain.act tm = Rain.remove_particle n
                                     ∨ Rain.act tm = Rain.remove_sparkle n)).

(** The rain before [init()]: no container yet, so no timer and not
    active. *)
Definition rain_sane (w : Rain.World) : Prop :=
  Rain.container (Rain.engine w) = None →
  Rain.timers (Rain.engine w) = [] ∧ Rain.isActive (Rain.engine w) = false.

(** The page with a rain engine that has just been constructed. *)
Definition new_rain (a : Ambient) (width height : R) : Rain.World :=
  Rain.mk_world a width height Rain.constructor.

Definition is_start (e : Rain.event) : bool :=
  match e with Rain.Start => true | _ => false end.
Definition is_stop (e : Rain.event) : bool :=
  match e with Rain.Stop => true | _ => false end.

(** ** EmailService *)

Module EmailService.

(** The states of a promise; a promise that is [Pending] here never
    settles. *)
Inductive promise : Type :=
| Fulfilled
| Rejected (reason : error)
| Pending.

(** The network as [send] meets it: the promise of each call of
    [sendEmailJS], by the number of the call, the calls made so far, and
    the delays that have been waited for. *)
Record Net : Type := mk_net {
  outcomes : nat → promise;
  calls : nat;
  waits : list R
}.

(** [await this.sendEmailJS(formData)].  The script load and the
    [emailjs.send] that [sendEmailJS] awaits belong to the network: its
    promise is fulfilled, is rejected, or stays pending (the source sets
    no timeout; [apiTimeout] is read nowhere). *)
Definition sendEmailJS (n : Net) : promise * Net :=
  (outcomes n (calls n), mk_net (outcomes n) (S (calls n)) (waits n)).

(** [await new Promise(resolve => setTimeout(resolve, ms))] *)
Definition wait (ms : R) (n : Net) : Net :=
  mk_net (outcomes n) (calls n) (waits n ++ [ms]).

Section methods.
Context (cfg : MessageConfig.t).
Local Open Scope R_scope.

(** [send(formData, retryCount)], by recursion on the retries that are
    left, [maxRetries - retryCount]: there is one left exactly when
    [retryCount < maxRetries].  The result is the promise [send]
    returns: an [await] of a promise that stays pending leaves it
    pending, and only a rejection reaches the [catch]. *)
Fixpoint send_from (retries_left retryCount : nat) (n : Net) : promise * Net :=
  if negb (MessageConfig.enableEmailSending cfg) then (Fulfilled, n) else
  match sendEmailJS n with
  | (Rejected error, n) =>
      match retries_left with
      | S retries_left =>
          send_from retries_left (retryCount + 1) (wait (1000 * INR (retryCount + 1)) n)
      | O => (Rejected error, n)
      end
  | (Fulfilled, n) => (Fulfilled, n)
  | (Pending, n) => (Pending, n)
  end.

Definition send (retryCount : nat) (n : Net) : promise * Net :=
  send_from (MessageConfig.maxRetries cfg - retryCount) retryCount n.

End methods.

End EmailService.

(** ** Proof steps *)

(** Unfold the monad at the head of a run. *)
Ltac run := unfold mbind, M_bind, mret, M_ret, gets, modify, throw, zoom; simpl.

(** Close the case of a spawn method whose loop runs: [turn_lemma] says
    that each turn acquires one particle, [loop_lemma] sums the turns. *)
Ltac with_turn loop_lemma turn_lemma :=
  match goal with
  | |- context [for_range 0 ?k ?turn (ParticleEngine.pool_state ?P ?w)] =>
      let Hturn := fresh "Hturn" in
      assert (∀ i, acquires_one _ (turn i)) as Hturn by (intros i; apply turn_lemma);
      let s' := fresh "s'" in
      destruct (loop_lemma _ turn Hturn k 0 (ParticleEngine.pool_state P w))
        as (s' & -> & ? & ?);
      exists s'; split; [reflexivity | split; assumption]
  end.

(** ** Runs of the monad *)

Lemma bind_return {St A B} (m : M St A) (f : A → M St B) (st : St) a (st' : St) :
  m st = (Return a, st') → (m ≫= f) st = f a st'.
Proof. intros H. unfold mbind, M_bind. by rewrite H. Qed.

Lemma bind_throw {St A B} (m : M St A) (f : A → M St B) (st : St) e (st' : St) :
  m st = (Throw e, st') → (m ≫= f) st = (Throw e, st').
Proof. intros H. unfold mbind, M_bind. by rewrite H. Qed.

(** ** Particle *)

Section particle_facts.
Context (cfg : Config.t).
Local Open Scope R_scope.

Lemma division_monotone (a b m : R) : 0 < m → a <= b → a / m <= b / m.
Proof.
  intros Hm Hab. unfold Rdiv.
  apply Rmult_le_compat_r; [left; by apply Rinv_0_lt_compat | done].
Qed.

Lemma quotient_at_least_one (a m : R) : 0 < m → m <= a → 1 <= a / m.
Proof.
  intros Hm Ha. replace 1 with (m / m) by (field; lra).
  by apply division_monotone.
Qed.

Lemma quotient_below_one (a m : R) : 0 < m → a < m → a / m < 1.
Proof.
  intros Hm Ha. replace 1 with (m / m) by (field; lra).
  unfold Rdiv. apply Rmult_lt_compat_r; [by apply Rinv_0_lt_compat | done].
Qed.

(** An update of an active particle, in closed form. *)
Lemma update_active deltaTime (p : Particle.t) (a : Ambient) :
  Particle.active p = true →
  ∃ q, Particle.update cfg deltaTime p a = (Return q, a) ∧
       Particle.life q = 1 - (clock a - Particle.birthTime p) / Particle.maxLife p ∧
       Particle.maxLife q = Particle.maxLife p ∧
       Particle.birthTime q = Particle.birthTime p ∧
       Particle.active q = negb (bool_decide (Particle.life q <= 0)).
Proof.
  intros Hact. unfold Particle.update. rewrite Hact. run.
  case_bool_decide as Hlife; eexists; (split; [reflexivity |]); simpl;
    repeat split; try reflexivity.
  - by rewrite bool_decide_eq_true_2.
  - by rewrite bool_decide_eq_false_2.
Qed.

Lemma update_inactive deltaTime (p : Particle.t) (a : Ambient) :
  Particle.active p = false → Particle.update cfg deltaTime p a = (Return p, a).
Proof. intros Hact. unfold Particle.update. by rewrite Hact. Qed.

Lemma update_ignores_deltaTime d1 d2 (p : Particle.t) (a : Ambient) :
  Particle.update cfg d1 p a = Particle.update cfg d2 p a.
Proof. reflexivity. Qed.

(** A [spawn] returns, whatever the particle was: its result, and the
    draws it has consumed. *)
Lemma spawn_returns (x y : R) (o : Particle.options) (p : Particle.t) (a : Ambient) :
  ∃ q, Particle.spawn cfg x y o p a
         = (Return q, mk_ambient (randoms a) (draws o + drawn a) (clock a)) ∧
       Particle.active q = true ∧ Particle.x q = x ∧ Particle.y q = y ∧
       Particle.life q = 1 ∧
       Particle.maxLife q = coalesce (Particle.o_lifetime o) (Config.lifetime cfg) ∧
       Particle.birthTime q = clock a ∧
       (∀ α, Particle.o_angle o = Given α →
             Particle.vx q = cos α * launch_speed cfg o a ∧
             Particle.vy q = sin α * launch_speed cfg o a) ∧
       ∀ p', Particle.spawn cfg x y o p' a = Particle.spawn cfg x y o p a.
Proof.
  destruct o as [[| |α] [| |v] [| |z] [| |c] l]; unfold Particle.spawn, launch_speed, draws;
    run; (eexists; split; [reflexivity |]); simpl;
    repeat split; try reflexivity; by simplify_eq.
Qed.
End particle_facts.

(** ** ParticlePool *)

Section pool_facts.
Context (cfg : Config.t).
Implicit Types s : ParticlePool.state.

Lemma get_run s : ParticlePool.get cfg s = (Return (acquired s), after_get cfg s).
Proof.
  unfold ParticlePool.get, ParticlePool.new_Particle, acquired, after_get, pop, push.
  run. unfold acquired. by destruct (last _).
Qed.

Lemma invoke_run particle method s :
  ParticlePool.invoke particle method s =
    match ParticlePool.heap s !! particle with
    | Some p =>
        match method p (ParticlePool.ambient s) with
        | (Return q, a) =>
            (Return tt, ParticlePool.mk_state a (<[particle := q]> (ParticlePool.heap s))
                                          (ParticlePool.this s))
        | (Throw e, a) => (Throw e, ParticlePool.set_ambient a s)
        end
    | None => (Return tt, s)
    end.
Proof.
  unfold ParticlePool.invoke. run. destruct (_ !! _) as [p|]; [|done].
  run. by destruct (method p _) as [[q|e] a].
Qed.

Lemma after_get_wf s : wf s → wf (after_get cfg s).
Proof.
  intros [Hnd Hlt]. unfold wf, after_get, acquired. simpl.
  destruct (last _) as [r|] eqn:Hlast.
  - apply last_Some in Hlast as [l Hl]. rewrite Hl in *.
    rewrite removelast_last.
    split.
    + rewrite <- (assoc_L (++)) in Hnd.
      eapply NoDup_Permutation_proper; [|exact Hnd].
      apply Permutation_app_head. apply Permutation_app_comm.
    + intros r' Hr'. apply Hlt. rewrite !elem_of_app in Hr' |- *. tauto.
  - apply last_None in Hlast. rewrite Hlast in *. simpl in *.
    split.
    + apply NoDup_app. split; [done|]. split; [|apply NoDup_singleton].
      intros r' Hr' ->%list_elem_of_singleton. apply Hlt in Hr'. lia.
    + intros r' [Hr' | ->%list_elem_of_singleton]%elem_of_app; rewrite length_app; simpl.
      * apply Hlt in Hr'. lia.
      * lia.
Qed.
End pool_facts.

Lemma indexOf_Some (l : list nat) r i : indexOf l r = Some i → l !! i = Some r.
Proof.
  revert i. induction l as [|a l IH]; intros i; simpl; [done|].
  case_decide as Ha; [by intros [= <-]; subst|].
  destruct (indexOf l r) as [j|]; simpl; [|done].
  intros [= <-]. by apply IH.
Qed.

Lemma indexOf_elem_of (l : list nat) r : r ∈ l → is_Some (indexOf l r).
Proof.
  induction l as [|a l IH]; [by intros ?%elem_of_nil|].
  intros [->|Hr]%elem_of_cons; simpl; case_decide; try done.
  destruct (IH Hr) as [j ->]. by eexists.
Qed.

Lemma indexOf_NoDup (l : list nat) r i : NoDup l → l !! i = Some r → indexOf l r = Some i.
Proof.
  intros Hnd Hi. destruct (indexOf_elem_of l r) as [j Hj].
  { by apply list_elem_of_lookup_2 in Hi. }
  rewrite Hj. f_equal. apply indexOf_Some in Hj.
  by apply (NoDup_lookup l j i r).
Qed.

Section release_facts.
Context (cfg : Config.t).
Implicit Types (s : ParticlePool.state).

Lemma reset_constant (p p' : Particle.t) : Particle.reset cfg p = Particle.reset cfg p'.
Proof. reflexivity. Qed.

Lemma release_run r s : ParticlePool.release cfg r s = (Return tt, after_release cfg r s).
Proof.
  unfold ParticlePool.release, after_release. destruct s as [a h [fl al]].
  destruct (ParticlePool.heap _ !! r) as [p|] eqn:Hr;
    (erewrite bind_return; [|rewrite invoke_run, Hr; reflexivity]);
    run; destruct (indexOf _ _); simpl; destruct (decide _); reflexivity.
Qed.

(** Releasing a live particle. *)
Lemma release_live r s :
  NoDup (ParticlePool.active (ParticlePool.this s)) →
  r ∈ ParticlePool.active (ParticlePool.this s) →
  length (ParticlePool.active (ParticlePool.this (after_release cfg r s)))
    = length (ParticlePool.active (ParticlePool.this s)) - 1 ∧
  NoDup (ParticlePool.active (ParticlePool.this (after_release cfg r s))) ∧
  ∀ r', r' ≠ r → r' ∈ ParticlePool.active (ParticlePool.this s) →
        r' ∈ ParticlePool.active (ParticlePool.this (after_release cfg r s)).
Proof.
  intros Hnd Hr. simpl.
  destruct (indexOf_elem_of _ _ Hr) as [i Hi]. rewrite Hi.
  apply indexOf_Some in Hi.
  pose proof (delete_Permutation _ _ _ Hi) as Hperm.
  split; [|split].
  - rewrite length_delete; [done | by eexists].
  - rewrite Hperm in Hnd. by apply NoDup_cons in Hnd as [_ Hnd].
  - intros r' Hne Hr'. rewrite Hperm in Hr'.
    by apply elem_of_cons in Hr' as [->|Hr'].
Qed.

Lemma release_all_run (order : list nat) : ∀ s,
  NoDup order →
  NoDup (ParticlePool.active (ParticlePool.this s)) →
  (∀ r, r ∈ order → r ∈ ParticlePool.active (ParticlePool.this s)) →
  ∃ s', release_all cfg order s = (Return tt, s') ∧
        length (ParticlePool.active (ParticlePool.this s'))
          = length (ParticlePool.active (ParticlePool.this s)) - length order ∧
        ParticlePool.pool (ParticlePool.this s')
          = ParticlePool.pool (ParticlePool.this s)
            ++ take (Config.poolSize cfg - length (ParticlePool.pool (ParticlePool.this s)))
                    order ∧
        length (ParticlePool.heap s') = length (ParticlePool.heap s).
Proof.
  induction order as [|r order IH]; intros s Hord Hnd Hlive; simpl.
  - exists s. rewrite take_nil, app_nil_r. split; [done|]. split; [lia | done].
  - apply NoDup_cons in Hord as [Hr Hord].
    destruct (release_live r s Hnd) as (Hlen & Hnd' & Hothers).
    { apply Hlive. by left. }
    destruct (IH (after_release cfg r s) Hord Hnd') as (s' & Hrun & Hlen' & Hpool & Hheap).
    { intros r' Hr'. apply Hothers; [by intros ->|]. apply Hlive. by right. }
    exists s'. rewrite (bind_return _ _ _ _ _ (release_run r s)), Hrun.
    split; [done|]. split; [lia|]. split.
    + rewrite Hpool. simpl. case_decide as Hroom.
      * rewrite length_app. simpl.
        replace (Config.poolSize cfg - length (ParticlePool.pool (ParticlePool.this s)))
          with (S (Config.poolSize cfg
                   - (length (ParticlePool.pool (ParticlePool.this s)) + 1))) by lia.
        simpl. by rewrite <- (assoc_L (++)).
      * replace (Config.poolSize cfg - length (ParticlePool.pool (ParticlePool.this s)))
          with 0 by lia.
        by rewrite !take_0.
    + rewrite Hheap. simpl. destruct (_ !! r); [by rewrite length_insert | done].
Qed.
End release_facts.

(** ** ParticleEngine *)

Section engine_facts.
Context (IS_MOBILE_DEVICE : bool) (cfg : Config.t).
Implicit Types (s : ParticlePool.state) (w : ParticleEngine.World).

Lemma pool_state_put s w :
  ParticleEngine.pool_state (ParticlePool.this s) (ParticleEngine.put_pool_state s w) = s.
Proof. by destruct s. Qed.

Lemma put_pool_state_put s s' w :
  ParticleEngine.put_pool_state s' (ParticleEngine.put_pool_state s w)
  = ParticleEngine.put_pool_state s' w.
Proof. reflexivity. Qed.

Lemma put_pool_state_id w P :
  ParticleEngine.pool (ParticleEngine.engine w) = Some P →
  ParticleEngine.put_pool_state (ParticleEngine.pool_state P w) w = w.
Proof. destruct w as [a h ho [c x p i wi he]]. simpl. by intros ->. Qed.

Lemma this_pool_run {A} (method : M ParticlePool.state A) w P :
  ParticleEngine.pool (ParticleEngine.engine w) = Some P →
  ParticleEngine.this_pool method w =
    (fst (method (ParticleEngine.pool_state P w)),
     ParticleEngine.put_pool_state (snd (method (ParticleEngine.pool_state P w))) w).
Proof.
  intros HP. unfold ParticleEngine.this_pool. rewrite HP.
  by destruct (method _).
Qed.

Lemma this_pool_null {A} (method : M ParticlePool.state A) w :
  ParticleEngine.pool (ParticleEngine.engine w) = None →
  ParticleEngine.this_pool method w = (Throw (TypeError "Cannot read properties of null"), w).
Proof. intros HP. unfold ParticleEngine.this_pool. by rewrite HP. Qed.

(** A loop whose turns are calls on the pool is a loop inside the pool. *)
Lemma for_range_this_pool (turn : nat → M ParticlePool.state unit) n : ∀ start w P,
  ParticleEngine.pool (ParticleEngine.engine w) = Some P →
  for_range start n (λ i, ParticleEngine.this_pool (turn i)) w
  = ParticleEngine.this_pool (for_range start n turn) w.
Proof.
  induction n as [|n IH]; intros start w P HP.
  - rewrite (this_pool_run _ w P HP). simpl. run. by rewrite put_pool_state_id.
  - simpl. rewrite (this_pool_run (_ ≫= _) w P HP). run.
    rewrite (this_pool_run _ w P HP).
    destruct (turn start _) as [[[]|e] s1] eqn:Hturn; simpl; [|done].
    rewrite (IH _ _ (ParticlePool.this s1)); [|done].
    rewrite (this_pool_run _ _ (ParticlePool.this s1)); [|done].
    by rewrite pool_state_put.
Qed.

Lemma loop_acquires (turn : nat → M ParticlePool.state unit) :
  (∀ i, acquires_one cfg (turn i)) →
  ∀ n start s, ∃ s',
    for_range start n turn s = (Return tt, s') ∧
    length (ParticlePool.active (ParticlePool.this s'))
      = length (ParticlePool.active (ParticlePool.this s)) + n ∧
    (wf s → wf s').
Proof.
  intros Hturn. induction n as [|n IH]; intros start s.
  - exists s. simpl. split; [done|]. split; [lia | done].
  - destruct (Hturn start s) as (s1 & Hrun & Hthis & Hlen).
    destruct (IH (S start) s1) as (s' & Hloop & Hact & Hwf).
    exists s'. simpl. run. rewrite Hrun, Hloop. split; [done|]. split.
    + rewrite Hact, Hthis. simpl. rewrite length_app. simpl. lia.
    + intros Hs. apply Hwf. apply (after_get_wf cfg) in Hs.
      unfold wf in *. by rewrite Hthis, Hlen.
Qed.

End engine_facts.

Section spawn_facts.
Context (IS_MOBILE_DEVICE : bool) (cfg : Config.t).
Implicit Types (s : ParticlePool.state) (w : ParticleEngine.World).

Lemma invoke_spawn_shape particle x y o s :
  ∃ s', ParticlePool.invoke particle (Particle.spawn cfg x y o) s = (Return tt, s') ∧
        ParticlePool.this s' = ParticlePool.this s ∧
        length (ParticlePool.heap s') = length (ParticlePool.heap s).
Proof.
  rewrite invoke_run. destruct (_ !! _) as [p|]; [|by exists s].
  destruct (spawn_returns cfg x y o p (ParticlePool.ambient s)) as (q & -> & _).
  eexists. split; [done|]. simpl. by rewrite length_insert.
Qed.

Lemma burst_turn_acquires x y o :
  acquires_one cfg (particle ← ParticlePool.get cfg;
                    ParticlePool.invoke particle (Particle.spawn cfg x y o)).
Proof.
  intros s. run. rewrite get_run.
  apply invoke_spawn_shape.
Qed.

Lemma explosion_turn_acquires x y options :
  acquires_one cfg (
    particle ← ParticlePool.get cfg;
    r1 ← ParticleEngine.ambiently Math_random;
    r2 ← ParticleEngine.ambiently Math_random;
    ParticlePool.invoke particle (Particle.spawn cfg x y
      (ParticleEngine.with_defaults (Given (r1 * PI * 2)%R) (Given (r2 * 6 + 2)%R)
         Absent Absent options))).
Proof.
  intros s. unfold ParticleEngine.ambiently. run. rewrite get_run. simpl.
  apply invoke_spawn_shape.
Qed.

Lemma fountain_turn_acquires x y options :
  acquires_one cfg (
    particle ← ParticlePool.get cfg;
    let spread := 0.5%R in
    r1 ← ParticleEngine.ambiently Math_random;
    let angle := (- PI / 2 + (r1 - 0.5) * spread)%R in
    r2 ← ParticleEngine.ambiently Math_random;
    ParticlePool.invoke particle (Particle.spawn cfg x y
      (ParticleEngine.with_defaults (Given angle) (Given (r2 * 5 + 3)%R)
         Absent Absent options))).
Proof.
  intros s. unfold ParticleEngine.ambiently. run. rewrite get_run. simpl.
  apply invoke_spawn_shape.
Qed.

Lemma trail_turn_acquires x y options :
  acquires_one cfg (
    particle ← ParticlePool.get cfg;
    r1 ← ParticleEngine.ambiently Math_random;
    r2 ← ParticleEngine.ambiently Math_random;
    r3 ← ParticleEngine.ambiently Math_random;
    ParticlePool.invoke particle (Particle.spawn cfg x y
      (ParticleEngine.with_defaults (Given (r1 * PI * 2)%R) (Given (r2 * 2)%R)
         (Given (r3 * 4 + 2)%R) (Given 1000%R) options))).
Proof.
  intros s. unfold ParticleEngine.ambiently. run. rewrite get_run. simpl.
  apply invoke_spawn_shape.
Qed.

Lemma over_budget_run w P :
  ParticleEngine.pool (ParticleEngine.engine w) = Some P →
  ParticleEngine.over_budget cfg w
  = (Return (bool_decide (Config.maxParticles cfg ≤ length (ParticlePool.active P))), w).
Proof.
  intros HP. unfold ParticleEngine.over_budget. run.
  rewrite (this_pool_run _ w P HP). simpl. by rewrite put_pool_state_id.
Qed.

Lemma over_budget_null w :
  ParticleEngine.pool (ParticleEngine.engine w) = None →
  ParticleEngine.over_budget cfg w
  = (Throw (TypeError "Cannot read properties of null"), w).
Proof.
  intros HP. unfold ParticleEngine.over_budget. run. by rewrite this_pool_null.
Qed.

(** What a spawn call does to the arrays of the pool. *)
Lemma call_run (c : spawn_call) w P :
  ParticleEngine.pool (ParticleEngine.engine w) = Some P →
  ∃ s', call IS_MOBILE_DEVICE cfg c w = (Return tt, ParticleEngine.put_pool_state s' w) ∧
        length (ParticlePool.active (ParticlePool.this s'))
          = (if bool_decide (Config.maxParticles cfg ≤ length (ParticlePool.active P))
             then length (ParticlePool.active P)
             else length (ParticlePool.active P) + turns IS_MOBILE_DEVICE cfg c) ∧
        (wf (ParticleEngine.pool_state P w) → wf s').
Proof.
  intros HP.
  destruct c as [x y count o|x y count o|x y count o|x y count o]; simpl;
    unfold ParticleEngine.spawnBurst, ParticleEngine.spawnExplosion,
           ParticleEngine.spawnFountain, ParticleEngine.spawnTrail;
    rewrite (bind_return _ _ _ _ _ (over_budget_run w P HP));
    (case_bool_decide as Hfull;
     [ exists (ParticleEngine.pool_state P w);
       rewrite (put_pool_state_id w P HP); split; [reflexivity | split; auto]
     | rewrite (for_range_this_pool _ _ _ w P HP), (this_pool_run _ w P HP) ]).
  - with_turn loop_acquires burst_turn_acquires.
  - with_turn loop_acquires explosion_turn_acquires.
  - with_turn loop_acquires fountain_turn_acquires.
  - with_turn loop_acquires trail_turn_acquires.
Qed.

(** A call made at or over the budget returns at once. *)
Lemma call_over_budget (c : spawn_call) w P :
  ParticleEngine.pool (ParticleEngine.engine w) = Some P →
  Config.maxParticles cfg ≤ length (ParticlePool.active P) →
  call IS_MOBILE_DEVICE cfg c w = (Return tt, w).
Proof.
  intros HP Hfull.
  destruct c as [x y count o|x y count o|x y count o|x y count o]; simpl;
    unfold ParticleEngine.spawnBurst, ParticleEngine.spawnExplosion,
           ParticleEngine.spawnFountain, ParticleEngine.spawnTrail;
    rewrite (bind_return _ _ _ _ _ (over_budget_run w P HP));
    by rewrite bool_decide_eq_true_2.
Qed.

Lemma call_null (c : spawn_call) w :
  ParticleEngine.pool (ParticleEngine.engine w) = None →
  call IS_MOBILE_DEVICE cfg c w = (Throw (TypeError "Cannot read properties of null"), w).
Proof.
  intros HP.
  destruct c as [x y count o|x y count o|x y count o|x y count o]; simpl;
    unfold ParticleEngine.spawnBurst, ParticleEngine.spawnExplosion,
           ParticleEngine.spawnFountain, ParticleEngine.spawnTrail;
    by rewrite (bind_throw _ _ _ _ _ (over_budget_null w HP)).
Qed.

Lemma activeCount_run w P :
  ParticleEngine.pool (ParticleEngine.engine w) = Some P →
  activeCount w = (Return (length (ParticlePool.active P)), w).
Proof.
  intros HP. unfold activeCount. rewrite (this_pool_run _ w P HP). simpl.
  by rewrite put_pool_state_id.
Qed.

Lemma live_after_bound K (cs : list spawn_call) : ∀ n,
  Forall (λ c, turns IS_MOBILE_DEVICE cfg c ≤ K) cs →
  n ≤ Config.maxParticles cfg - 1 + K →
  live_after IS_MOBILE_DEVICE cfg n cs ≤ Config.maxParticles cfg - 1 + K.
Proof.
  induction cs as [|c cs IH]; intros n Hcs Hn; simpl; [done|].
  apply Forall_cons in Hcs as [Hc Hcs]. apply IH; [done|].
  case_bool_decide; lia.
Qed.

Lemma calls_run (cs : list spawn_call) : ∀ w P,
  ParticleEngine.pool (ParticleEngine.engine w) = Some P →
  ∃ s', calls IS_MOBILE_DEVICE cfg cs w = (Return tt, ParticleEngine.put_pool_state s' w) ∧
        length (ParticlePool.active (ParticlePool.this s'))
          = live_after IS_MOBILE_DEVICE cfg (length (ParticlePool.active P)) cs ∧
        (wf (ParticleEngine.pool_state P w) → wf s').
Proof.
  induction cs as [|c cs IH]; intros w P HP; simpl.
  - exists (ParticleEngine.pool_state P w). by rewrite put_pool_state_id.
  - destruct (call_run c w P HP) as (s1 & Hcall & Hlen & Hwf).
    destruct (IH (ParticleEngine.put_pool_state s1 w) (ParticlePool.this s1) eq_refl)
      as (s' & Hcalls & Hlen' & Hwf').
    exists s'. rewrite (bind_return _ _ _ _ _ Hcall), Hcalls, put_pool_state_put.
    split; [done|]. split.
    + by rewrite Hlen', Hlen.
    + intros Hs. apply Hwf'. rewrite pool_state_put. by apply Hwf.
Qed.
End spawn_facts.

Section init_facts.
Context (cfg : Config.t).
Implicit Types (s : ParticlePool.state) (w : ParticleEngine.World).

Lemma constructor_run n : ∀ start s,
  for_range start n (λ _, p ← ParticlePool.new_Particle cfg;
                          modify (λ s, ParticlePool.set_pool
                                         (push (ParticlePool.pool (ParticlePool.this s)) p) s)) s
  = (Return tt,
     ParticlePool.mk_state (ParticlePool.ambient s)
       (ParticlePool.heap s ++ replicate n (Particle.new cfg))
       (ParticlePool.mk
          (ParticlePool.pool (ParticlePool.this s) ++ seq (length (ParticlePool.heap s)) n)
          (ParticlePool.active (ParticlePool.this s)))).
Proof.
  induction n as [|n IH]; intros start s.
  - simpl. rewrite !app_nil_r. by destruct s as [a h [p l]].
  - simpl. unfold ParticlePool.new_Particle at 1. run.
    rewrite IH. simpl. unfold push.
    rewrite length_app, <- !(assoc_L (++)). simpl.
    by rewrite Nat.add_1_r.
Qed.

Lemma init_without_context w :
  ParticleEngine.getContext_2d (ParticleEngine.host w) = None →
  ∃ w', ParticleEngine.init cfg w = (Throw (TypeError "Cannot read properties of null"), w') ∧
        ParticleEngine.pool (ParticleEngine.engine w')
          = ParticleEngine.pool (ParticleEngine.engine w) ∧
        ParticleEngine.heap w' = ParticleEngine.heap w.
Proof.
  intros Hctx. unfold ParticleEngine.init, ParticleEngine.resize, ParticleEngine.this_ctx.
  run. rewrite Hctx. eexists. split; [reflexivity|]. done.
Qed.

Lemma init_with_context w c :
  ParticleEngine.getContext_2d (ParticleEngine.host w) = Some c →
  ∃ w', ParticleEngine.init cfg w = (Return true, w') ∧
        ParticleEngine.pool (ParticleEngine.engine w')
          = Some (ParticlePool.mk (seq (length (ParticleEngine.heap w)) (Config.poolSize cfg)) []) ∧
        ParticleEngine.heap w'
          = ParticleEngine.heap w ++ replicate (Config.poolSize cfg) (Particle.new cfg) ∧
        ParticleEngine.ambient w' = ParticleEngine.ambient w.
Proof.
  intros Hctx.
  unfold ParticleEngine.init, ParticleEngine.resize, ParticleEngine.this_ctx,
         ParticleEngine.start, ParticleEngine.animate, ParticleEngine.this_pool,
         ParticlePool.constructor, ParticlePool.update.
  run. rewrite Hctx. rewrite constructor_run. simpl.
  destruct (ParticleEngine.animationId _); eexists; (split; [reflexivity|]); done.
Qed.

Lemma fresh_pool_wf (h : list Particle.t) (a : Ambient) n :
  wf (ParticlePool.mk_state a (h ++ replicate n (Particle.new cfg))
                            (ParticlePool.mk (seq (length h) n) [])).
Proof.
  split; simpl; rewrite app_nil_r.
  - apply NoDup_seq.
  - intros r Hr%elem_of_seq. rewrite length_app, length_replicate. lia.
Qed.
End init_facts.

(** ** The budget, the spawn sequences and init *)

Lemma activeCount_inv w n :
  fst (activeCount w) = Return n →
  ∃ P, ParticleEngine.pool (ParticleEngine.engine w) = Some P ∧
       n = length (ParticlePool.active P).
Proof.
  destruct (ParticleEngine.pool (ParticleEngine.engine w)) as [P|] eqn:HP.
  - rewrite (activeCount_run w P HP). simpl. intros [= <-]. by exists P.
  - unfold activeCount. by rewrite this_pool_null.
Qed.

(** C5.  A spawn call made while [getActiveCount()] is at or over
    [maxParticles] returns normally without spawning: the whole world,
    and so the live count, is left as it was.  This holds for each of
    [spawnBurst], [spawnExplosion], [spawnFountain] and [spawnTrail]. *)
Theorem spawn_at_budget_changes_nothing (IS_MOBILE_DEVICE : bool) (cfg : Config.t)
    (c : spawn_call) (w : ParticleEngine.World) (n : nat) :
  fst (activeCount w) = Return n →
  Config.maxParticles cfg ≤ n →
  call IS_MOBILE_DEVICE cfg c w = (Return tt, w).
Proof.
  intros (P & HP & ->)%activeCount_inv Hfull.
  by apply (call_over_budget IS_MOBILE_DEVICE cfg c w P).
Qed.

(** C5 on the desktop page with its 200 particles live. *)
Lemma spawn_at_budget_changes_nothing_witness :
  fst (activeCount full_house) = Return 200 ∧
  call false desktop (Burst 640 360 20 Particle.no_options) full_house = (Return tt, full_house) ∧
  call false desktop (Explosion 640 360 30 Particle.no_options) full_house = (Return tt, full_house) ∧
  call false desktop (Fountain 640 360 10 Particle.no_options) full_house = (Return tt, full_house) ∧
  call false desktop (Trail 640 360 3 Particle.no_options) full_house = (Return tt, full_house).
Proof.
  assert (fst (activeCount full_house) = Return 200) as Hn by reflexivity.
  assert (Config.maxParticles desktop ≤ 200) as Hfull by (simpl; lia).
  split; [exact Hn|].
  repeat apply conj;
    exact (spawn_at_budget_changes_nothing false desktop _ full_house 200 Hn Hfull).
Defined.

(** C1, as amended.  From a pool with no live particle, after any
    sequence of spawn calls the live count is the number of particles
    acquired (one per loop turn of every call that passed the budget
    check; no spawn call releases one), the live particles are pairwise
    distinct, and the count is at most [maxParticles - 1] plus the largest
    number of turns [K] of a single call: the budget is checked once per
    call, before its loop, not before each [get]. *)
Theorem spawn_sequence_live_set (IS_MOBILE_DEVICE : bool) (cfg : Config.t)
    (cs : list spawn_call) (K : nat) (w : ParticleEngine.World) (P : ParticlePool.t) :
  ParticleEngine.pool (ParticleEngine.engine w) = Some P →
  ParticlePool.active P = [] →
  wf (ParticleEngine.pool_state P w) →
  Forall (λ c, turns IS_MOBILE_DEVICE cfg c ≤ K) cs →
  ∃ w' P',
    calls IS_MOBILE_DEVICE cfg cs w = (Return tt, w') ∧
    ParticleEngine.pool (ParticleEngine.engine w') = Some P' ∧
    activeCount w' = (Return (length (ParticlePool.active P')), w') ∧
    NoDup (ParticlePool.active P') ∧
    length (ParticlePool.active P') = live_after IS_MOBILE_DEVICE cfg 0 cs ∧
    length (ParticlePool.active P') ≤ Config.maxParticles cfg - 1 + K.
Proof.
  intros HP Hempty Hwf HK.
  destruct (calls_run IS_MOBILE_DEVICE cfg cs w P HP) as (s' & Hrun & Hlen & Hwf').
  rewrite Hempty in Hlen. simpl in Hlen.
  exists (ParticleEngine.put_pool_state s' w), (ParticlePool.this s').
  split; [done|]. split; [done|]. split; [by apply activeCount_run|].
  split; [|split; [done|]].
  - destruct (Hwf' Hwf) as [Hnd _]. by apply NoDup_app in Hnd as (_ & _ & Hnd).
  - rewrite Hlen. apply live_after_bound; [done | lia].
Qed.

Lemma started_pool (m : bool) :
  ParticleEngine.pool (ParticleEngine.engine (started m)) = Some (ParticlePool.mk (seq 0 300) []).
Proof. by destruct m. Qed.

Lemma started_wf (m : bool) :
  wf (ParticleEngine.pool_state (ParticlePool.mk (seq 0 300) []) (started m)).
Proof.
  unfold started.
  destruct (init_with_context (PARTICLE_CONFIG m) (page (Some ParticleEngine.context_2d)) _ eq_refl)
    as (w' & -> & _ & Hheap & Hamb).
  unfold ParticleEngine.pool_state. simpl. rewrite Hheap, Hamb.
  destruct m; exact (fresh_pool_wf _ [] still_ambient 300).
Qed.

(** C1 for three calls after [init] on the desktop page: 8 + 30 + 3 live particles. *)
Lemma spawn_sequence_live_set_witness :
  ∃ w' P',
    calls false desktop [Burst 640 360 8 Particle.no_options;
                         Explosion 640 360 30 Particle.no_options;
                         Trail 100 100 3 Particle.no_options] (started false)
      = (Return tt, w') ∧
    ParticleEngine.pool (ParticleEngine.engine w') = Some P' ∧
    activeCount w' = (Return (length (ParticlePool.active P')), w') ∧
    NoDup (ParticlePool.active P') ∧
    length (ParticlePool.active P') = 41 ∧
    length (ParticlePool.active P') ≤ 229.
Proof.
  apply (spawn_sequence_live_set false desktop
           [Burst 640 360 8 Particle.no_options;
            Explosion 640 360 30 Particle.no_options;
            Trail 100 100 3 Particle.no_options] 30 (started false) _ (started_pool false)).
  - reflexivity.
  - apply started_wf.
  - repeat constructor; simpl; lia.
Defined.

(** C1 as stated fails: one burst of 201 from the empty pool leaves 201
    live particles, over the 200 of [maxParticles]. *)
Lemma budget_exceeded_by_one_burst :
  fst (activeCount (started false)) = Return 0 ∧
  fst (activeCount
         (snd (calls false desktop [Burst 640 360 201 Particle.no_options] (started false))))
    = Return 201 ∧
  ¬ 201 ≤ Config.maxParticles desktop.
Proof. split; [reflexivity|]. split; [reflexivity|]. simpl. lia. Qed.




(** ** Bursts *)

Section burst_facts.
Context (cfg : Config.t).
Implicit Types (s : ParticlePool.state) (w : ParticleEngine.World).

Lemma acquired_fresh s :
  wf s →
  acquired s < length (ParticlePool.heap (after_get cfg s)) ∧
  ∀ r, r ∈ ParticlePool.active (ParticlePool.this s) →
       r ≠ acquired s ∧ r < length (ParticlePool.heap s).
Proof.
  intros Hwf. pose proof (after_get_wf cfg s Hwf) as [_ Hlt'].
  split.
  - apply Hlt'. simpl. rewrite !elem_of_app, list_elem_of_singleton. tauto.
  - destruct Hwf as [Hnd Hlt]. intros r Hr.
    split; [|apply Hlt; rewrite elem_of_app; tauto].
    unfold acquired. destruct (last _) as [r'|] eqn:Hlast.
    + apply last_Some in Hlast as [l Hl]. rewrite Hl in Hnd.
      apply NoDup_app in Hnd as (_ & Hdisj & _). intros ->.
      apply (Hdisj r'); [|done]. rewrite elem_of_app, list_elem_of_singleton. tauto.
    + assert (r < length (ParticlePool.heap s)); [|lia].
      apply Hlt. rewrite elem_of_app. tauto.
Qed.

(** One turn of a loop that passes an angle. *)
Lemma angled_turn_run x y o α s :
  wf s → Particle.o_angle o = Given α →
  ∃ s' q,
    (particle ← ParticlePool.get cfg;
     ParticlePool.invoke particle (Particle.spawn cfg x y o)) s = (Return tt, s') ∧
    wf s' ∧
    ParticlePool.active (ParticlePool.this s')
      = ParticlePool.active (ParticlePool.this s) ++ [acquired s] ∧
    ParticlePool.ambient s'
      = mk_ambient (randoms (ParticlePool.ambient s))
                   (draws o + drawn (ParticlePool.ambient s))
                   (clock (ParticlePool.ambient s)) ∧
    ParticlePool.heap s' !! acquired s = Some q ∧
    Particle.active q = true ∧
    Particle.vx q = (cos α * launch_speed cfg o (ParticlePool.ambient s))%R ∧
    Particle.vy q = (sin α * launch_speed cfg o (ParticlePool.ambient s))%R ∧
    ∀ r, r ∈ ParticlePool.active (ParticlePool.this s) →
         ParticlePool.heap s' !! r = ParticlePool.heap s !! r.
Proof.
  intros Hwf Hα. destruct (acquired_fresh s Hwf) as [Hfresh Hlive].
  rewrite (bind_return _ _ _ _ _ (get_run cfg s)), invoke_run.
  destruct (lookup_lt_is_Some_2 _ _ Hfresh) as [p Hp]. rewrite Hp. simpl.
  destruct (spawn_returns cfg x y o p (ParticlePool.ambient s))
    as (q & -> & Hact & _ & _ & _ & _ & _ & Hv & _).
  destruct (Hv α Hα) as [Hvx Hvy].
  eexists _, q. split; [reflexivity|]. simpl.
  split.
  { pose proof (after_get_wf cfg s Hwf) as Hwf'. unfold wf in *. simpl in *.
    by rewrite length_insert. }
  split; [done|]. split; [done|].
  split; [by apply list_lookup_insert_eq|].
  split; [done|]. split; [done|]. split; [done|].
  intros r Hr. destruct (Hlive r Hr) as [Hne Hlt].
  rewrite list_lookup_insert_ne by done.
  destruct (last _); [done|]. by apply lookup_app_l.
Qed.

Section loop.
Context (x y : R) (angle : nat → R) (opts : nat → Particle.options)
        (speed : prop R) (k : nat).
Hypothesis Hangle : ∀ i, Particle.o_angle (opts i) = Given (angle i).
Hypothesis Hspeed : ∀ i, Particle.o_speed (opts i) = speed.
Hypothesis Hdraws : ∀ i, draws (opts i) = k.

Lemma angled_loop_run n : ∀ start s,
  wf s →
  ∃ s' rs,
    for_range start n (λ i, particle ← ParticlePool.get cfg;
                            ParticlePool.invoke particle (Particle.spawn cfg x y (opts i))) s
      = (Return tt, s') ∧
    wf s' ∧
    ParticlePool.active (ParticlePool.this s')
      = ParticlePool.active (ParticlePool.this s) ++ rs ∧
    length rs = n ∧
    ParticlePool.ambient s'
      = mk_ambient (randoms (ParticlePool.ambient s))
                   (n * k + drawn (ParticlePool.ambient s))
                   (clock (ParticlePool.ambient s)) ∧
    (∀ r, r ∈ ParticlePool.active (ParticlePool.this s) →
          ParticlePool.heap s' !! r = ParticlePool.heap s !! r) ∧
    ∀ j r, rs !! j = Some r →
      ∃ q, ParticlePool.heap s' !! r = Some q ∧
           Particle.active q = true ∧
           Particle.vx q = (cos (angle (start + j))
                            * speed_at cfg speed (ParticlePool.ambient s)
                                       (j * k + drawn (ParticlePool.ambient s)))%R ∧
           Particle.vy q = (sin (angle (start + j))
                            * speed_at cfg speed (ParticlePool.ambient s)
                                       (j * k + drawn (ParticlePool.ambient s)))%R.
Proof.
  induction n as [|n IH]; intros start s Hwf.
  - exists s, []. simpl. rewrite app_nil_r.
    split; [done|]. split; [done|]. split; [done|]. split; [done|].
    split; [by destruct (ParticlePool.ambient s)|]. split; [done|].
    intros j r. by rewrite lookup_nil.
  - destruct (angled_turn_run x y (opts start) (angle start) s Hwf (Hangle start))
      as (s1 & q & Hturn & Hwf1 & Hact1 & Hamb1 & Hq & Hqa & Hvx & Hvy & Hframe1).
    destruct (IH (S start) s1 Hwf1) as (s' & rs & Hloop & Hwf' & Hact & Hlen & Hamb & Hframe & Hrs).
    exists s', (acquired s :: rs).
    simpl. rewrite (bind_return _ _ _ _ _ Hturn), Hloop.
    split; [done|]. split; [done|].
    split; [by rewrite Hact, Hact1, <- (assoc_L (++))|].
    split; [by rewrite Hlen|].
    rewrite Hamb1, Hdraws in Hamb. simpl in Hamb.
    split; [rewrite Hamb; f_equal; lia|].
    split.
    { intros r Hr. rewrite Hframe, Hframe1; [done..|].
      rewrite Hact1, elem_of_app. tauto. }
    intros [|j] r Hj; simpl in Hj.
    + injection Hj as <-. exists q.
      rewrite Hframe by (rewrite Hact1, elem_of_app, list_elem_of_singleton; tauto).
      split; [done|]. split; [done|].
      rewrite Nat.add_0_r. simpl.
      unfold launch_speed in Hvx, Hvy. by rewrite Hspeed in Hvx, Hvy.
    + destruct (Hrs j r Hj) as (q' & Hq' & Hqa' & Hvx' & Hvy').
      exists q'. split; [done|]. split; [done|].
      rewrite Hamb1, Hdraws in Hvx', Hvy'. simpl in Hvx', Hvy'.
      replace (start + S j) with (S start + j) by lia.
      replace (S j * k + drawn (ParticlePool.ambient s))
        with (j * k + (k + drawn (ParticlePool.ambient s))) by lia.
      done.
Qed.
End loop.

(** C6.  On the profile that is not mobile, a burst of [N >= 1] made
    below the budget with no angle in its options adds exactly [N] new
    live particles, distinct from each other and from the ones already
    live; the [i]-th of them is active, with velocity
    [(cos a * speed, sin a * speed)] for the angle [a = 2 * PI * i / N]
    and the speed of its [spawn] (the override, or its first draw
    scaled into the configured range). *)
Theorem burst_is_evenly_spaced (x y : R) (N : Z) (options : Particle.options)
    (w : ParticleEngine.World) (P : ParticlePool.t) :
  (1 ≤ N)%Z →
  Particle.o_angle options = Absent →
  ParticleEngine.pool (ParticleEngine.engine w) = Some P →
  length (ParticlePool.active P) < Config.maxParticles cfg →
  wf (ParticleEngine.pool_state P w) →
  ∃ w' rs,
    ParticleEngine.spawnBurst false cfg x y N options w = (Return tt, w') ∧
    (ParticlePool.active <$> ParticleEngine.pool (ParticleEngine.engine w'))
      = Some (ParticlePool.active P ++ rs) ∧
    NoDup (ParticlePool.active P ++ rs) ∧
    length rs = Z.to_nat N ∧
    fst (activeCount w') = Return (length (ParticlePool.active P) + Z.to_nat N) ∧
    ∀ i r, rs !! i = Some r →
      ∃ q, ParticleEngine.heap w' !! r = Some q ∧
           Particle.active q = true ∧
           Particle.vx q = (cos (2 * PI * INR i / IZR N)
                            * burst_speed cfg options (ParticleEngine.ambient w) i)%R ∧
           Particle.vy q = (sin (2 * PI * INR i / IZR N)
                            * burst_speed cfg options (ParticleEngine.ambient w) i)%R.
Proof.
  intros HN Hangle HP Hroom Hwf.
  unfold ParticleEngine.spawnBurst.
  rewrite (bind_return _ _ _ _ _ (over_budget_run cfg w P HP)).
  rewrite bool_decide_eq_false_2 by lia.
  cbv zeta. change (ParticleEngine.mobile_count false cfg N) with N.
  rewrite (for_range_this_pool _ _ _ w P HP), (this_pool_run _ w P HP).
  set (opts := λ i : nat, ParticleEngine.with_defaults
                 (Given (PI * 2 * INR i / IZR N)%R) Absent Absent Absent options).
  destruct (angled_loop_run x y (λ i, (PI * 2 * INR i / IZR N)%R) opts
              (Particle.o_speed options)
              (draws (ParticleEngine.with_defaults (Given 0%R) Absent Absent Absent options)))
    with (n := Z.to_nat N) (start := 0) (s := ParticleEngine.pool_state P w)
    as (s' & rs & Hloop & Hwf' & Hact & Hlen & Hamb & _ & Hrs); try done.
  { intros i. unfold opts. simpl. by rewrite Hangle. }
  { intros i. unfold opts, draws. simpl. by rewrite Hangle. }
  exists (ParticleEngine.put_pool_state s' w), rs.
  subst opts. cbv beta in Hloop. rewrite Hloop. cbn [fst snd].
  simpl in Hact, Hamb, Hrs.
  split; [done|]. split; [simpl; by rewrite Hact|].
  split; [destruct Hwf' as [Hnd _]; rewrite Hact in Hnd;
          by apply NoDup_app in Hnd as (_ & _ & Hnd)|].
  split; [done|].
  split.
  { rewrite (activeCount_run (ParticleEngine.put_pool_state s' w) (ParticlePool.this s') eq_refl). simpl.
    by rewrite Hact, length_app, Hlen. }
  intros i r Hi. destruct (Hrs i r Hi) as (q & Hq & Hqa & Hvx & Hvy).
  exists q. split; [done|]. split; [done|].
  replace (2 * PI * INR i / IZR N)%R with (PI * 2 * INR i / IZR N)%R
    by (unfold Rdiv; ring).
  done.
Qed.
End burst_facts.

(** ** The pool scenario *)

Section scenarios.
Context (cfg : Config.t).
Implicit Types (s : ParticlePool.state).

Lemma get_many_run n : ∀ s,
  ∃ ps s', get_many cfg n s = (Return ps, s') ∧ length ps = n ∧
           ParticlePool.active (ParticlePool.this s')
             = ParticlePool.active (ParticlePool.this s) ++ ps ∧
           (wf s → wf s').
Proof.
  induction n as [|n IH]; intros s; simpl.
  - exists [], s. by rewrite app_nil_r.
  - destruct (IH (after_get cfg s)) as (ps & s' & Hrun & Hlen & Hact & Hwf).
    exists (acquired s :: ps), s'.
    rewrite (bind_return _ _ _ _ _ (get_run cfg s)), (bind_return _ _ _ _ _ Hrun).
    split; [done|]. split; [by rewrite <- Hlen|].
    split; [by rewrite Hact; simpl; rewrite <- (assoc_L (++))|].
    intros Hs. by apply Hwf, after_get_wf.
Qed.

(** The particles [n] calls of [get] return: the free list from its
    end, then fresh objects. *)
Lemma get_many_spec n : ∀ s,
  ∃ s', get_many cfg n s
          = (Return (take n (reverse (ParticlePool.pool (ParticlePool.this s)))
                     ++ seq (length (ParticlePool.heap s))
                            (n - length (ParticlePool.pool (ParticlePool.this s)))), s') ∧
        length (ParticlePool.heap s')
          = length (ParticlePool.heap s)
            + (n - length (ParticlePool.pool (ParticlePool.this s))) ∧
        ParticlePool.pool (ParticlePool.this s')
          = take (length (ParticlePool.pool (ParticlePool.this s)) - n)
                 (ParticlePool.pool (ParticlePool.this s)).
Proof.
  induction n as [|n IH]; intros s.
  - exists s. simpl. rewrite Nat.sub_0_r, take_ge by done. split; [done|]. split; [lia|done].
  - destruct (IH (after_get cfg s)) as (s' & Hrun & Hheap & Hpool).
    exists s'. simpl get_many.
    rewrite (bind_return _ _ _ _ _ (get_run cfg s)), (bind_return _ _ _ _ _ Hrun).
    rewrite Hheap, Hpool. clear.
    unfold acquired, after_get, mret, M_ret. simpl.
    destruct (last _) as [r|] eqn:Hlast.
    + apply last_Some in Hlast as [l ->].
      rewrite removelast_last, reverse_snoc, length_app. simpl.
      replace (length l + 1 - S n) with (length l - n) by lia.
      replace (n - length l) with (S n - (length l + 1)) by lia.
      rewrite (take_app_le l) by lia. split; [done|]. split; [lia|done].
    + apply last_None in Hlast as ->. simpl.
      rewrite reverse_nil, !take_nil, length_app, !Nat.sub_0_r, Nat.add_1_r. simpl.
      split; [done|]. split; [lia|done].
Qed.

End scenarios.

Section release_limit.
Context (cfg : Config.t).
Implicit Types (s : ParticlePool.state).

(** C8.  A pool constructed with [size] particles holds them on its free
    list; [n] calls of [get] without a release, [n] being [size] or
    more, return [n] distinct particles, the first [size] being the
    preallocated ones and the others fresh objects; releasing the [n],
    in any order, puts the first [poolSize] released back on the free
    list, [poolSize] being the configured one and not [size], drops the
    others, and leaves no live particle. *)
Theorem release_keeps_up_to_the_configured_poolSize
    (a : Ambient) (h : list Particle.t) (size n : nat) :
  size ≤ n →
  ∃ s0 ps sn,
    ParticlePool.constructor cfg size
      (ParticlePool.mk_state a h (ParticlePool.mk [] [])) = (Return tt, s0) ∧
    length (ParticlePool.pool (ParticlePool.this s0)) = size ∧
    get_many cfg n s0 = (Return ps, sn) ∧
    length ps = n ∧ NoDup ps ∧
    take size ps ≡ₚ ParticlePool.pool (ParticlePool.this s0) ∧
    (∀ p, p ∈ drop size ps → length (ParticlePool.heap s0) ≤ p < length (ParticlePool.heap sn)) ∧
    length (ParticlePool.heap sn) = length (ParticlePool.heap s0) + (n - size) ∧
    ParticlePool.getActiveCount sn = (Return n, sn) ∧
    ∀ order, order ≡ₚ ps →
      ∃ s', release_all cfg order sn = (Return tt, s') ∧
            ParticlePool.pool (ParticlePool.this s') = take (Config.poolSize cfg) order ∧
            length (ParticlePool.pool (ParticlePool.this s')) = n `min` Config.poolSize cfg ∧
            ParticlePool.active (ParticlePool.this s') = [] ∧
            length (ParticlePool.heap s') = length (ParticlePool.heap sn).
Proof.
  intros Hsize. unfold ParticlePool.constructor. rewrite constructor_run.
  set (s0 := ParticlePool.mk_state _ _ _).
  assert (wf s0) as Hwf0 by apply (fresh_pool_wf cfg h a size).
  assert (ParticlePool.pool (ParticlePool.this s0) = seq (length h) size) as Hpool0
    by (subst s0; reflexivity).
  assert (length (ParticlePool.pool (ParticlePool.this s0)) = size) as Hlen0
    by (by rewrite Hpool0, length_seq).
  assert (ParticlePool.active (ParticlePool.this s0) = []) as Hact0
    by (subst s0; reflexivity).
  destruct (get_many_spec cfg n s0) as (sn & Hspec & Hheap & Hfree).
  destruct (get_many_run cfg n s0) as (ps & sn' & Hrun & Hlen & Hact & Hwf).
  rewrite Hspec in Hrun. injection Hrun as <- <-.
  rewrite Hlen0, Hpool0 in *. rewrite Hact0 in Hact. simpl in Hact.
  rewrite take_ge in * by (rewrite length_reverse, length_seq; lia).
  assert (length (reverse (seq (length h) size)) = size) as Hrev
    by (by rewrite length_reverse, length_seq).
  destruct (Hwf Hwf0) as [Hnd _].
  apply NoDup_app in Hnd as (_ & _ & Hnd). rewrite Hact in Hnd.
  rewrite length_seq in Hnd, Hact.
  exists s0, (reverse (seq (length h) size) ++ seq (length (ParticlePool.heap s0)) (n - size)), sn.
  split; [done|]. split; [done|]. split; [done|].
  split; [rewrite length_app, Hrev, length_seq; lia|]. split; [exact Hnd|].
  split; [rewrite take_app_length' by done; rewrite Hpool0; apply reverse_Permutation|].
  split.
  { rewrite drop_app_length' by done. intros p Hp%elem_of_seq. lia. }
  split; [lia|].
  split.
  { unfold ParticlePool.getActiveCount, gets. rewrite Hact. do 2 f_equal.
    rewrite length_app, Hrev, length_seq. lia. }
  intros order Horder.
  destruct (release_all_run cfg order sn) as (s' & Hrel & Hlen' & Hpool & Hheap').
  { by rewrite Horder. }
  { by rewrite Hact. }
  { intros r. by rewrite Hact, Horder. }
  assert (length order = n) as Hlo
    by (rewrite Horder, length_app, Hrev, length_seq; lia).
  exists s'. rewrite Hfree in Hpool.
  replace (size - n) with 0 in Hpool by lia. rewrite take_0 in Hpool.
  simpl in Hpool. rewrite Nat.sub_0_r in Hpool.
  split; [done|]. split; [done|]. split; [rewrite Hpool, length_take; lia|].
  split; [|done]. apply length_zero_iff_nil.
  rewrite Hlen', Hact, Hlo, length_app, Hrev, length_seq. lia.
Qed.
End release_limit.

(** ** Recycling *)

Section recycling.
Context (cfg : Config.t).
Implicit Types (s : ParticlePool.state).

Lemma recycle_run particle x y o s :
  recycle cfg particle x y o s
  = (let s1 := after_release cfg particle s in
     let '(out, s2) := ParticlePool.invoke (acquired s1) (Particle.spawn cfg x y o)
                         (after_get cfg s1) in
     match out with
     | Return _ => (Return (acquired s1), s2)
     | Throw e => (Throw e, s2)
     end).
Proof.
  unfold recycle.
  rewrite (bind_return _ _ _ _ _ (release_run cfg particle s)).
  rewrite (bind_return _ _ _ _ _ (get_run cfg _)).
  unfold mbind, M_bind, mret, M_ret. cbv zeta.
  by destruct (ParticlePool.invoke _ _ _) as [[[]|e] s2].
Qed.

(** Two states that differ in the fields of one particle at most are
    the same state once that particle is released. *)
Lemma release_forgets particle s1 s2 :
  ParticlePool.this s1 = ParticlePool.this s2 →
  ParticlePool.ambient s1 = ParticlePool.ambient s2 →
  length (ParticlePool.heap s1) = length (ParticlePool.heap s2) →
  (∀ r, r ≠ particle → ParticlePool.heap s1 !! r = ParticlePool.heap s2 !! r) →
  after_release cfg particle s1 = after_release cfg particle s2.
Proof.
  intros Hthis Hamb Hlen Hrest. unfold after_release. rewrite Hthis, Hamb. f_equal.
  apply list_eq. intros i.
  destruct (ParticlePool.heap s1 !! particle) as [p1|] eqn:H1;
    destruct (ParticlePool.heap s2 !! particle) as [p2|] eqn:H2.
  - destruct (decide (i = particle)) as [->|Hne].
    + rewrite !list_lookup_insert_eq; [done|..]; by eapply lookup_lt_Some.
    + rewrite !list_lookup_insert_ne by done. by apply Hrest.
  - apply lookup_lt_Some in H1. apply lookup_ge_None in H2. lia.
  - apply lookup_ge_None in H1. apply lookup_lt_Some in H2. lia.
  - destruct (decide (i = particle)) as [->|Hne]; [by rewrite H1, H2 | by apply Hrest].
Qed.

(** C9.  [release] followed by [get] and [spawn]: two states that
    differ at most in the fields of the released particle give the same
    result and the same final state, so nothing of the particle's
    earlier life is left.  When the free list has room, the particle
    returned is the released object itself, and its fields are those a
    [spawn] with these inputs and draws gives to any particle. *)
Theorem recycled_particle_has_no_history (particle : nat) (x y : R)
    (options : Particle.options) (s1 s2 : ParticlePool.state) :
  ParticlePool.this s1 = ParticlePool.this s2 →
  ParticlePool.ambient s1 = ParticlePool.ambient s2 →
  length (ParticlePool.heap s1) = length (ParticlePool.heap s2) →
  (∀ r, r ≠ particle → ParticlePool.heap s1 !! r = ParticlePool.heap s2 !! r) →
  recycle cfg particle x y options s1 = recycle cfg particle x y options s2 ∧
  (particle < length (ParticlePool.heap s1) →
   length (ParticlePool.pool (ParticlePool.this s1)) < Config.poolSize cfg →
   ∃ s' q,
     recycle cfg particle x y options s1 = (Return particle, s') ∧
     ParticlePool.heap s' !! particle = Some q ∧
     ∀ before : Particle.t,
       fst (Particle.spawn cfg x y options before (ParticlePool.ambient s1)) = Return q).
Proof.
  intros Hthis Hamb Hlen Hrest. split.
  - by rewrite !recycle_run, (release_forgets particle s1 s2).
  - intros Halloc Hroom. rewrite recycle_run. cbv zeta.
    assert (acquired (after_release cfg particle s1) = particle) as ->.
    { unfold acquired, after_release. simpl. rewrite decide_True by done.
      by rewrite last_snoc. }
    rewrite invoke_run.
    destruct (lookup_lt_is_Some_2 _ _ Halloc) as [p Hp].
    assert (ParticlePool.heap (after_get cfg (after_release cfg particle s1)) !! particle
            = Some (Particle.reset cfg p)) as ->.
    { unfold after_get, after_release. simpl. rewrite decide_True by done.
      rewrite last_snoc, Hp. by apply list_lookup_insert_eq. }
    destruct (spawn_returns cfg x y options (Particle.reset cfg p) (ParticlePool.ambient s1))
      as (q & Hspawn & _ & _ & _ & _ & _ & _ & _ & Hany).
    change (ParticlePool.ambient (after_get cfg (after_release cfg particle s1)))
      with (ParticlePool.ambient s1).
    rewrite Hspawn. eexists _, q. split; [done|]. simpl.
    split.
    + apply list_lookup_insert_eq. rewrite decide_True by done.
      rewrite last_snoc, Hp, length_insert. done.
    + intros before. by rewrite Hany, Hspawn.
Qed.
End recycling.

(** ** clear and the mobile profile *)

Lemma half_double k : (k + k) / 2 = k.
Proof. replace (k + k) with (0 + k * 2) by lia. by rewrite Nat.div_add. Qed.

Lemma half_double_succ k : (k + S k) / 2 = k.
Proof. replace (k + S k) with (1 + k * 2) by lia. by rewrite Nat.div_add. Qed.

Lemma half_gap_zero L k : k ≤ L → (L - k + 1) / 2 ≤ 0 → L = k.
Proof.
  intros Hk Hm. destruct (decide (L = k)) as [|Hne]; [done|].
  replace (L - k + 1) with (L - k - 1 + 1 * 2) in Hm by lia.
  rewrite Nat.div_add in Hm by done. lia.
Qed.

Lemma half_gap_step L k m : S k ≤ L - 1 → (L - k + 1) / 2 ≤ S m → (L - 1 - S k + 1) / 2 ≤ m.
Proof.
  intros Hmore Hm.
  replace (L - k + 1) with (L - 1 - S k + 1 + 1 * 2) in Hm by lia.
  rewrite Nat.div_add in Hm by done. lia.
Qed.

Lemma half_le L : (L - 0 + 1) / 2 ≤ L.
Proof.
  rewrite Nat.sub_0_r. destruct L as [|L]; [done|].
  apply Nat.Div0.div_le_upper_bound. lia.
Qed.

Section clearing.
Context (cfg : Config.t).
Implicit Types (s : ParticlePool.state).

Lemma clear_visit_run k s :
  clear_visit cfg k s
  = (Return tt, match ParticlePool.active (ParticlePool.this s) !! k with
                | Some v => after_release cfg v s
                | None => s
                end).
Proof.
  unfold clear_visit. run. destruct (_ !! k); [apply release_run | done].
Qed.

Lemma clear_unfold s :
  ParticlePool.clear cfg s
  = for_range 0 (length (ParticlePool.active (ParticlePool.this s))) (clear_visit cfg) s.
Proof. reflexivity. Qed.

Lemma visits_past_the_end m : ∀ k s,
  length (ParticlePool.active (ParticlePool.this s)) ≤ k →
  for_range k m (clear_visit cfg) s = (Return tt, s).
Proof.
  induction m as [|m IH]; intros k s Hk; [done|].
  simpl. rewrite (bind_return _ _ _ _ _ (clear_visit_run k s)).
  rewrite lookup_ge_None_2 by done. apply IH. lia.
Qed.

Lemma visits_skip m : ∀ k s,
  NoDup (ParticlePool.active (ParticlePool.this s)) →
  k ≤ length (ParticlePool.active (ParticlePool.this s)) →
  (length (ParticlePool.active (ParticlePool.this s)) - k + 1) / 2 ≤ m →
  ∃ s', for_range k m (clear_visit cfg) s = (Return tt, s') ∧
        length (ParticlePool.active (ParticlePool.this s'))
          = (k + length (ParticlePool.active (ParticlePool.this s))) / 2.
Proof.
  induction m as [|m IH]; intros k s Hnd Hk Hm.
  - exists s. split; [done|].
    rewrite (half_gap_zero _ _ Hk Hm). by rewrite half_double.
  - cbn [for_range]. rewrite (bind_return _ _ _ _ _ (clear_visit_run k s)).
    destruct (ParticlePool.active (ParticlePool.this s) !! k) as [v|] eqn:Hv.
    + pose proof (indexOf_NoDup _ _ _ Hnd Hv) as Hi.
      assert (ParticlePool.active (ParticlePool.this (after_release cfg v s))
              = delete k (ParticlePool.active (ParticlePool.this s))) as Hact
        by (simpl; by rewrite Hi).
      assert (length (delete k (ParticlePool.active (ParticlePool.this s)))
              = length (ParticlePool.active (ParticlePool.this s)) - 1) as Hlen
        by (rewrite length_delete; [done | by eexists]).
      apply lookup_lt_Some in Hv.
      destruct (decide (S k ≤ length (ParticlePool.active (ParticlePool.this s)) - 1))
        as [Hmore|Hlast].
      * destruct (IH (S k) (after_release cfg v s)) as (s' & Hrun & Hlen').
        { rewrite Hact. exact (sublist_NoDup _ _ Hnd (sublist_delete _ _)). }
        { by rewrite Hact, Hlen. }
        { rewrite Hact, Hlen. by apply half_gap_step. }
        exists s'. split; [done|]. rewrite Hlen', Hact, Hlen.
        f_equal. lia.
      * exists (after_release cfg v s). split.
        { apply visits_past_the_end. rewrite Hact, Hlen. lia. }
        rewrite Hact, Hlen.
        assert (length (ParticlePool.active (ParticlePool.this s)) = S k) as -> by lia.
        rewrite half_double_succ. lia.
    + apply lookup_ge_None in Hv.
      exists s. split; [apply visits_past_the_end; lia|].
      assert (length (ParticlePool.active (ParticlePool.this s)) = k) as -> by lia.
      by rewrite half_double.
Qed.

(** [clear] releases the particles at the even positions of the live
    set only: every [splice] moves the next particle into the index
    [forEach] has just left. *)
Lemma clear_leaves_half s :
  NoDup (ParticlePool.active (ParticlePool.this s)) →
  ∃ s', ParticlePool.clear cfg s = (Return tt, s') ∧
        length (ParticlePool.active (ParticlePool.this s'))
          = length (ParticlePool.active (ParticlePool.this s)) / 2.
Proof.
  intros Hnd. rewrite clear_unfold.
  destruct (visits_skip (length (ParticlePool.active (ParticlePool.this s))) 0 s Hnd)
    as (s' & Hrun & Hlen); [lia | apply half_le | by exists s'].
Qed.
End clearing.

Section sweeping.
Context (cfg : Config.t).
Implicit Types (s : ParticlePool.state).

Lemma update_unfold deltaTime s :
  ParticlePool.update cfg deltaTime s
  = for_down (length (ParticlePool.active (ParticlePool.this s))) (update_turn cfg deltaTime) s.
Proof. reflexivity. Qed.

(** The turn of [update] on an expired particle at the end of the live
    set releases it. *)
Lemma update_turn_expired deltaTime s l r :
  ParticlePool.active (ParticlePool.this s) = l ++ [r] →
  NoDup (l ++ [r]) →
  expired s r →
  ∃ s', update_turn cfg deltaTime (length l) s = (Return tt, s') ∧
        ParticlePool.active (ParticlePool.this s') = l ∧
        ParticlePool.ambient s' = ParticlePool.ambient s ∧
        length (ParticlePool.heap s') = length (ParticlePool.heap s) ∧
        ∀ r', r' ≠ r → ParticlePool.heap s' !! r' = ParticlePool.heap s !! r'.
Proof.
  intros Hact Hnd (p & Hp & Halive & Hmax & Hlate).
  assert ((l ++ [r]) !! length l = Some r) as Hlast by (by rewrite list_lookup_middle).
  destruct (update_active cfg deltaTime p (ParticlePool.ambient s) Halive)
    as (q & Hupd & Hlife & _ & _ & Hq).
  assert (Particle.active q = false) as Hdead.
  { rewrite Hq, bool_decide_eq_true_2; [done|]. rewrite Hlife.
    assert (1 <= (clock (ParticlePool.ambient s) - Particle.birthTime p) / Particle.maxLife p)%R;
      [|lra].
    apply quotient_at_least_one; lra. }
  unfold update_turn.
  erewrite bind_return; [|unfold gets; by rewrite Hact, Hlast].
  cbv beta iota.
  erewrite bind_return; [|rewrite invoke_run, Hp, Hupd; reflexivity].
  erewrite bind_return;
    [|unfold gets; cbn [ParticlePool.heap];
      rewrite list_lookup_insert_eq by (by eapply lookup_lt_Some); reflexivity].
  cbv beta iota. rewrite Hdead. cbn [negb]. rewrite release_run.
  eexists. split; [reflexivity|].
  unfold after_release. cbn [ParticlePool.this ParticlePool.active ParticlePool.heap
                             ParticlePool.ambient ParticlePool.pool].
  rewrite Hact, (indexOf_NoDup _ _ _ Hnd Hlast).
  rewrite list_lookup_insert_eq by (by eapply lookup_lt_Some).
  split; [|split; [by destruct (ParticlePool.ambient s)|split]].
  - rewrite delete_take_drop, take_app_length, drop_ge; [by rewrite app_nil_r|].
    rewrite length_app. simpl. lia.
  - by rewrite !length_insert.
  - intros r' Hne. by rewrite !list_lookup_insert_ne.
Qed.

(** After a pause longer than every lifetime, one [update] empties the
    live set. *)
Lemma update_sweeps_expired deltaTime n : ∀ s,
  length (ParticlePool.active (ParticlePool.this s)) = n →
  NoDup (ParticlePool.active (ParticlePool.this s)) →
  (∀ r, r ∈ ParticlePool.active (ParticlePool.this s) → expired s r) →
  ∃ s', for_down n (update_turn cfg deltaTime) s = (Return tt, s') ∧
        ParticlePool.active (ParticlePool.this s') = [].
Proof.
  induction n as [|n IH]; intros s Hlen Hnd Hexp.
  - exists s. split; [done|]. by apply length_zero_iff_nil.
  - destruct (ParticlePool.active (ParticlePool.this s)) as [|r0 l0] eqn:Hact using rev_ind;
      [done|]. clear IHl0. rename r0 into r, l0 into l.
    rewrite length_app in Hlen. simpl in Hlen.
    assert (length l = n) as Hl by lia.
    destruct (update_turn_expired deltaTime s l r Hact Hnd) as (s1 & Hturn & Hact1 & Hamb & _ & Hrest).
    { apply Hexp. rewrite elem_of_app, list_elem_of_singleton. tauto. }
    apply NoDup_app in Hnd as (Hndl & Hdisj & _).
    destruct (IH s1) as (s' & Hrun & Hempty); [by rewrite Hact1|by rewrite Hact1| |].
    { intros r' Hr'. rewrite Hact1 in Hr'.
      destruct (Hexp r') as (p & Hp & Hrest'); [rewrite elem_of_app; tauto|].
      exists p. rewrite Hamb, Hrest; [done|].
      intros ->. apply (Hdisj r); [done|]. by apply list_elem_of_singleton. }
    exists s'. cbn [for_down]. rewrite <- Hl at 1.
    by rewrite (bind_return _ _ _ _ _ Hturn).
Qed.
(** After a pause longer than every lifetime, the first [update] leaves
    no live particle, whatever [deltaTime] it is given. *)
Lemma update_after_a_pause deltaTime s :
  NoDup (ParticlePool.active (ParticlePool.this s)) →
  (∀ r, r ∈ ParticlePool.active (ParticlePool.this s) → expired s r) →
  ∃ s', ParticlePool.update cfg deltaTime s = (Return tt, s') ∧
        ParticlePool.getActiveCount s' = (Return 0, s').
Proof.
  intros Hnd Hexp. rewrite update_unfold.
  destruct (update_sweeps_expired deltaTime _ s eq_refl Hnd Hexp) as (s' & Hrun & Hempty).
  exists s'. split; [done|]. unfold ParticlePool.getActiveCount, gets. by rewrite Hempty.
Qed.
End sweeping.

(** C2, on the code: with two live particles, [clear()] returns
    normally and one particle is still live.  [forEach] iterates over
    [active] while [release] splices it, so every other particle is
    skipped ([clear_leaves_half] gives the count for any live set). *)
Theorem clear_leaves_live_particles :
  let w := snd (ParticleEngine.spawnTrail desktop 100 100 2 Particle.no_options (started false)) in
  fst (activeCount w) = Return 2 ∧
  fst (ParticleEngine.clear desktop w) = Return tt ∧
  fst (activeCount (snd (ParticleEngine.clear desktop w))) = Return 1.
Proof. cbv zeta. split; [reflexivity|]. split; reflexivity. Qed.

Lemma ceil_IZR (z : Z) : ceil (IZR z) = z.
Proof.
  unfold ceil, Int_part. rewrite <- opp_IZR.
  rewrite <- (up_tech (IZR (- z)) (- z)); [lia | lra |].
  rewrite plus_IZR. lra.
Qed.

(** C3, on the code: on the mobile profile with spawn rate 0.5,
    [spawnTrail(x, y, 4)] below the budget spawns 4 particles, although
    [ceil(4 * 0.5)] is 2: [spawnTrail] does not read the spawn rate.  (The
    other three patterns do, see [reduced_patterns_round_up] and
    [reduced_burst_of_twenty].) *)
Theorem trail_ignores_the_spawn_rate :
  fst (activeCount (started true)) = Return 0 ∧
  fst (activeCount
         (snd (ParticleEngine.spawnTrail phone 100 100 4 Particle.no_options (started true))))
    = Return 4 ∧
  ceil (IZR 4 * Config.spawnRate (Config.mobile phone)) = 2%Z.
Proof.
  split; [reflexivity|]. split; [reflexivity|].
  simpl. replace (4 * 0.5)%R with (IZR 2) by lra. apply ceil_IZR.
Qed.

(** ** Lifetime *)

Section lifetime.
Local Open Scope R_scope.

(** C7.  For an active particle with a positive [maxLife], the life
    that [update] computes is [1 - (now - birthTime) / maxLife]: over two
    successive updates at times [t1 <= t2] it does not increase, it is at
    most 0 once [now] has reached [birthTime + maxLife], and an update
    that computes a life of 0 or less leaves the particle inactive in
    that same call. *)
Theorem normalizedLife_never_increases (cfg : Config.t) (d1 d2 : R)
    (p : Particle.t) (a1 a2 : Ambient) :
  Particle.active p = true →
  0 < Particle.maxLife p →
  clock a1 <= clock a2 →
  ∃ p1 p2,
    Particle.update cfg d1 p a1 = (Return p1, a1) ∧
    Particle.update cfg d2 p1 a2 = (Return p2, a2) ∧
    Particle.life p1 = 1 - (clock a1 - Particle.birthTime p) / Particle.maxLife p ∧
    Particle.life p2 <= Particle.life p1 ∧
    (Particle.birthTime p + Particle.maxLife p <= clock a1 → Particle.life p1 <= 0) ∧
    (Particle.life p1 <= 0 → Particle.active p1 = false) ∧
    (Particle.life p2 <= 0 → Particle.active p2 = false).
Proof.
  intros Hact Hmax Hclock.
  destruct (update_active cfg d1 p a1 Hact) as (p1 & Hrun1 & Hlife1 & Hmax1 & Hbirth1 & Hact1).
  assert (∀ q, Particle.life q <= 0 →
               Particle.active q = negb (bool_decide (Particle.life q <= 0)) →
               Particle.active q = false) as Hdead.
  { intros q Hq ->. by rewrite bool_decide_eq_true_2. }
  assert (Particle.birthTime p + Particle.maxLife p <= clock a1 → Particle.life p1 <= 0)
    as Hexpired.
  { intros Hlate. rewrite Hlife1.
    assert (1 <= (clock a1 - Particle.birthTime p) / Particle.maxLife p); [|lra].
    apply quotient_at_least_one; lra. }
  destruct (Particle.active p1) eqn:Halive.
  - destruct (update_active cfg d2 p1 a2 Halive) as (p2 & Hrun2 & Hlife2 & _ & _ & Hact2).
    exists p1, p2. split; [done|]. split; [done|]. split; [done|].
    split; [|split; [done|]; split; [|by eauto]].
    + rewrite Hlife2, Hlife1, Hmax1, Hbirth1.
      assert ((clock a1 - Particle.birthTime p) / Particle.maxLife p
              <= (clock a2 - Particle.birthTime p) / Particle.maxLife p); [|lra].
      apply division_monotone; lra.
    + intros Hneg. rewrite Hact1 in Halive. by rewrite bool_decide_eq_true_2 in Halive.
  - exists p1, p1. rewrite (update_inactive cfg d2 p1 a2 Halive).
    split; [done|]. split; [done|]. split; [done|].
    split; [lra|]. split; [done|]. by split.
Qed.

(** C7 for a particle born at 1000 with lifetime 2000, updated at 1500 and at 4000. *)
Lemma normalizedLife_never_increases_witness :
  ∃ p1 p2,
    Particle.update desktop 16 young_particle (at_time 1500) = (Return p1, at_time 1500) ∧
    Particle.update desktop 16 p1 (at_time 4000) = (Return p2, at_time 4000) ∧
    Particle.life p1
      = 1 - (clock (at_time 1500) - Particle.birthTime young_particle)
            / Particle.maxLife young_particle ∧
    Particle.life p2 <= Particle.life p1 ∧
    (Particle.birthTime young_particle + Particle.maxLife young_particle
       <= clock (at_time 1500) → Particle.life p1 <= 0) ∧
    (Particle.life p1 <= 0 → Particle.active p1 = false) ∧
    (Particle.life p2 <= 0 → Particle.active p2 = false).
Proof.
  apply (normalizedLife_never_increases desktop 16 16 young_particle (at_time 1500) (at_time 4000)).
  - reflexivity.
  - simpl. lra.
  - simpl. lra.
Defined.

(** C10.  A particle spawned with a positive lifetime records the
    clock as its [birthTime]; [update] does not read its [deltaTime]
    argument; a single update made after [birthTime + maxLife] on the
    clock deactivates the particle, however many updates ran in between
    (none is needed), and any update made before that time leaves it
    active with the same [birthTime] and [maxLife]. *)
Theorem aging_follows_the_wall_clock (cfg : Config.t) (x y : R)
    (options : Particle.options) (before : Particle.t) (a : Ambient) :
  0 < coalesce (Particle.o_lifetime options) (Config.lifetime cfg) →
  ∃ p a',
    Particle.spawn cfg x y options before a = (Return p, a') ∧
    Particle.birthTime p = clock a ∧
    Particle.maxLife p = coalesce (Particle.o_lifetime options) (Config.lifetime cfg) ∧
    (∀ d1 d2 later, Particle.update cfg d1 p later = Particle.update cfg d2 p later) ∧
    (∀ d later, clock a + Particle.maxLife p < clock later →
       ∃ q, Particle.update cfg d p later = (Return q, later) ∧
            Particle.active q = false) ∧
    (∀ d later, clock later < clock a + Particle.maxLife p →
       ∃ q, Particle.update cfg d p later = (Return q, later) ∧
            Particle.active q = true ∧
            Particle.birthTime q = Particle.birthTime p ∧
            Particle.maxLife q = Particle.maxLife p).
Proof.
  intros Hmax.
  destruct (spawn_returns cfg x y options before a)
    as (p & Hspawn & Hact & _ & _ & _ & Hlife & Hbirth & _).
  exists p, (mk_ambient (randoms a) (draws options + drawn a) (clock a)).
  split; [done|]. split; [done|]. split; [done|].
  split; [intros; apply update_ignores_deltaTime|].
  rewrite <- Hlife in Hmax. rewrite <- Hbirth.
  split; intros d later Hlate;
    destruct (update_active cfg d p later Hact) as (q & Hrun & Hq & Hqmax & Hqbirth & Hqact);
    exists q; (split; [done|]); rewrite Hqact.
  - rewrite bool_decide_eq_true_2; [done|]. rewrite Hq.
    assert (1 <= (clock later - Particle.birthTime p) / Particle.maxLife p); [|lra].
    apply quotient_at_least_one; lra.
  - rewrite bool_decide_eq_false_2; [done|]. rewrite Hq.
    assert ((clock later - Particle.birthTime p) / Particle.maxLife p < 1); [|lra].
    apply quotient_below_one; lra.
Qed.

(** C10 for a spawn at time 1000 with the default lifetime. *)
Lemma aging_follows_the_wall_clock_witness :
  ∃ p a',
    Particle.spawn desktop 100 100 Particle.no_options young_particle (at_time 1000)
      = (Return p, a') ∧
    Particle.birthTime p = clock (at_time 1000) ∧
    Particle.maxLife p = coalesce (Particle.o_lifetime Particle.no_options) (Config.lifetime desktop) ∧
    (∀ d1 d2 later, Particle.update desktop d1 p later = Particle.update desktop d2 p later) ∧
    (∀ d later, clock (at_time 1000) + Particle.maxLife p < clock later →
       ∃ q, Particle.update desktop d p later = (Return q, later) ∧
            Particle.active q = false) ∧
    (∀ d later, clock later < clock (at_time 1000) + Particle.maxLife p →
       ∃ q, Particle.update desktop d p later = (Return q, later) ∧
            Particle.active q = true ∧
            Particle.birthTime q = Particle.birthTime p ∧
            Particle.maxLife q = Particle.maxLife p).
Proof.
  apply (aging_follows_the_wall_clock desktop 100 100 Particle.no_options young_particle
           (at_time 1000)).
  simpl. lra.
Defined.
End lifetime.

(** ** Instances *)

(** C6 for the burst of a white piano key on the desktop page. *)
Lemma burst_is_evenly_spaced_witness :
  ∃ w' rs,
    ParticleEngine.spawnBurst false desktop 640 360 8 white_key (started false) = (Return tt, w') ∧
    (ParticlePool.active <$> ParticleEngine.pool (ParticleEngine.engine w'))
      = Some (ParticlePool.active (ParticlePool.mk (seq 0 300) []) ++ rs) ∧
    NoDup (ParticlePool.active (ParticlePool.mk (seq 0 300) []) ++ rs) ∧
    length rs = Z.to_nat 8 ∧
    fst (activeCount w')
      = Return (length (ParticlePool.active (ParticlePool.mk (seq 0 300) [])) + Z.to_nat 8) ∧
    ∀ i r, rs !! i = Some r →
      ∃ q, ParticleEngine.heap w' !! r = Some q ∧
           Particle.active q = true ∧
           Particle.vx q = (cos (2 * PI * INR i / IZR 8)
                            * burst_speed desktop white_key
                                (ParticleEngine.ambient (started false)) i)%R ∧
           Particle.vy q = (sin (2 * PI * INR i / IZR 8)
                            * burst_speed desktop white_key
                                (ParticleEngine.ambient (started false)) i)%R.
Proof.
  apply (burst_is_evenly_spaced desktop 640 360 8 white_key (started false)
           (ParticlePool.mk (seq 0 300) [])).
  - lia.
  - reflexivity.
  - apply started_pool.
  - simpl. lia.
  - apply started_wf.
Defined.

(** C8 on the desktop page, for a pool constructed with 5 particles where
    no particle exists before, and 7 calls of [get]. *)
Lemma release_keeps_up_to_the_configured_poolSize_witness :
  ∃ s0 ps sn,
    ParticlePool.constructor desktop 5
      (ParticlePool.mk_state still_ambient [] (ParticlePool.mk [] [])) = (Return tt, s0) ∧
    length (ParticlePool.pool (ParticlePool.this s0)) = 5 ∧
    get_many desktop 7 s0 = (Return ps, sn) ∧
    length ps = 7 ∧ NoDup ps ∧
    take 5 ps ≡ₚ ParticlePool.pool (ParticlePool.this s0) ∧
    (∀ p, p ∈ drop 5 ps → length (ParticlePool.heap s0) ≤ p < length (ParticlePool.heap sn)) ∧
    length (ParticlePool.heap sn) = length (ParticlePool.heap s0) + (7 - 5) ∧
    ParticlePool.getActiveCount sn = (Return 7, sn) ∧
    ∀ order, order ≡ₚ ps →
      ∃ s', release_all desktop order sn = (Return tt, s') ∧
            ParticlePool.pool (ParticlePool.this s') = take (Config.poolSize desktop) order ∧
            length (ParticlePool.pool (ParticlePool.this s')) = 7 `min` Config.poolSize desktop ∧
            ParticlePool.active (ParticlePool.this s') = [] ∧
            length (ParticlePool.heap s') = length (ParticlePool.heap sn).
Proof.
  apply (release_keeps_up_to_the_configured_poolSize desktop still_ambient [] 5 7). lia.
Defined.

(** C8 as stated fails: the limit [release] applies is the configured
    [poolSize] (300 on both profiles), not the size the pool was
    constructed with.  A pool made by [new ParticlePool(5)] hands out 7
    distinct particles to 7 calls of [get]; when the 7 are released, all
    7 are on its free list and none is dropped, on the desktop and on
    the phone. *)
Lemma constructor_size_is_not_the_limit :
  (fst (get_many desktop 7 (snd (ParticlePool.constructor desktop 5 fresh_state)))
   = Return [4; 3; 2; 1; 0; 5; 6] ∧
   fst (release_all desktop [4; 3; 2; 1; 0; 5; 6]
          (snd (get_many desktop 7 (snd (ParticlePool.constructor desktop 5 fresh_state)))))
   = Return tt ∧
   ParticlePool.pool
     (ParticlePool.this
        (snd (release_all desktop [4; 3; 2; 1; 0; 5; 6]
                (snd (get_many desktop 7
                        (snd (ParticlePool.constructor desktop 5 fresh_state)))))))
   = [4; 3; 2; 1; 0; 5; 6]) ∧
  (fst (get_many phone 7 (snd (ParticlePool.constructor phone 5 fresh_state)))
   = Return [4; 3; 2; 1; 0; 5; 6] ∧
   length
     (ParticlePool.pool
        (ParticlePool.this
           (snd (release_all phone [4; 3; 2; 1; 0; 5; 6]
                   (snd (get_many phone 7
                           (snd (ParticlePool.constructor phone 5 fresh_state))))))))
   = 7).
Proof. split; [split; [|split]; reflexivity | split; reflexivity]. Qed.

(** C9 for a live particle that was coral in one state and pink in the other. *)
Lemma recycled_particle_has_no_history_witness :
  recycle desktop 0 100 100 Particle.no_options (one_live "#FF7F50")
  = recycle desktop 0 100 100 Particle.no_options (one_live "#FF6B9D").
Proof.
  apply (recycled_particle_has_no_history desktop 0 100 100 Particle.no_options
           (one_live "#FF7F50") (one_live "#FF6B9D")).
  - reflexivity.
  - reflexivity.
  - reflexivity.
  - intros [|r] Hr; [done | reflexivity].
Defined.

(** The three patterns that read the spawn rate round the product up. *)
Lemma reduced_patterns_round_up (cfg : Config.t) (x y : R) (count : Z)
    (options : Particle.options) :
  turns true cfg (Burst x y count options)
    = Z.to_nat (ceil (IZR count * Config.spawnRate (Config.mobile cfg))) ∧
  turns true cfg (Explosion x y count options)
    = Z.to_nat (ceil (IZR count * Config.spawnRate (Config.mobile cfg))) ∧
  turns true cfg (Fountain x y count options)
    = Z.to_nat (ceil (IZR count * Config.spawnRate (Config.mobile cfg))) ∧
  turns true cfg (Trail x y count options) = Z.to_nat count.
Proof. by repeat split. Qed.

(** On a phone a burst of 20 below the budget spawns 10 particles. *)
Lemma reduced_burst_of_twenty (w : ParticleEngine.World) (P : ParticlePool.t) :
  ParticleEngine.pool (ParticleEngine.engine w) = Some P →
  length (ParticlePool.active P) < Config.maxParticles phone →
  ∃ w', ParticleEngine.spawnBurst true phone 100 100 20 Particle.no_options w
          = (Return tt, w') ∧
        fst (activeCount w') = Return (length (ParticlePool.active P) + 10).
Proof.
  intros HP Hroom.
  destruct (call_run true phone (Burst 100 100 20 Particle.no_options) w P HP)
    as (s' & Hrun & Hlen & _).
  exists (ParticleEngine.put_pool_state s' w). split; [exact Hrun|].
  rewrite (activeCount_run (ParticleEngine.put_pool_state s' w) (ParticlePool.this s') eq_refl).
  cbn [fst]. rewrite Hlen, bool_decide_eq_false_2 by lia.
  do 2 f_equal. cbn [turns ParticleEngine.mobile_count].
  change (Config.spawnRate (Config.mobile phone)) with 0.5%R.
  replace (20 * 0.5)%R with (IZR 10) by lra. by rewrite ceil_IZR.
Qed.

(** * The pool, the frame loop and the script as a whole *)

Section update_facts.
Context (cfg : Config.t).
Implicit Types (s : ParticlePool.state).

Lemma update_returns deltaTime (p : Particle.t) (a : Ambient) :
  Particle.update cfg deltaTime p a = (Return (stepped cfg a p), a).
Proof.
  unfold stepped, Particle.update. destruct (Particle.active p); [|done].
  run. by case_bool_decide.
Qed.

Lemma stepped_active (a : Ambient) (p : Particle.t) :
  Particle.active (stepped cfg a p) = true →
  Particle.active p = true ∧ (0 < Particle.life (stepped cfg a p))%R.
Proof.
  destruct (Particle.active p) eqn:Hp.
  - destruct (update_active cfg 0 p a Hp) as (q & Hupd & _ & _ & _ & Hq).
    unfold stepped. rewrite Hupd. simpl. rewrite Hq. intros Hact. split; [done|].
    apply negb_true_iff, bool_decide_eq_false in Hact. lra.
  - unfold stepped. rewrite update_inactive by done. simpl. by rewrite Hp.
Qed.

(** One turn of [update], at any index of the live set. *)
Lemma update_turn_run deltaTime s i r :
  ParticlePool.active (ParticlePool.this s) !! i = Some r →
  update_turn cfg deltaTime i s
  = (Return tt,
     match ParticlePool.heap s !! r with
     | Some p =>
         let s1 := ParticlePool.mk_state (ParticlePool.ambient s)
                     (<[r := stepped cfg (ParticlePool.ambient s) p]> (ParticlePool.heap s))
                     (ParticlePool.this s) in
         if Particle.active (stepped cfg (ParticlePool.ambient s) p) then s1
         else after_release cfg r s1
     | None => s
     end).
Proof.
  intros Hi. unfold update_turn.
  erewrite bind_return; [|unfold gets; by rewrite Hi].
  cbv beta iota.
  destruct (ParticlePool.heap s !! r) as [p|] eqn:Hr.
  - erewrite bind_return; [|rewrite invoke_run, Hr, update_returns; reflexivity].
    erewrite bind_return;
      [|unfold gets; cbn [ParticlePool.heap];
        rewrite list_lookup_insert_eq by (by eapply lookup_lt_Some); reflexivity].
    cbv beta iota zeta. destruct (Particle.active _); cbn [negb]; [done|].
    apply release_run.
  - erewrite bind_return; [|rewrite invoke_run, Hr; reflexivity].
    erewrite bind_return; [|unfold gets; rewrite Hr; reflexivity].
    done.
Qed.

(** A turn returns, and takes at most one particle off the live set. *)
Lemma update_turn_returns deltaTime s i :
  i < length (ParticlePool.active (ParticlePool.this s)) →
  ∃ s', update_turn cfg deltaTime i s = (Return tt, s') ∧
        length (ParticlePool.active (ParticlePool.this s)) - 1
          ≤ length (ParticlePool.active (ParticlePool.this s')) ∧
        length (ParticlePool.pool (ParticlePool.this s'))
          ≤ length (ParticlePool.pool (ParticlePool.this s)) `max` Config.poolSize cfg.
Proof.
  intros Hi. destruct (lookup_lt_is_Some_2 _ _ Hi) as [r Hr].
  rewrite (update_turn_run _ _ _ _ Hr). eexists. split; [reflexivity|].
  destruct (ParticlePool.heap s !! r) as [p|]; [|lia].
  cbv zeta. destruct (Particle.active _); cbn; [lia|].
  split.
  - destruct (indexOf _ _) as [j|] eqn:Hj; [|lia].
    rewrite length_delete; [lia|]. apply indexOf_Some in Hj. by eexists.
  - case_decide; [rewrite length_app; simpl|]; lia.
Qed.

Lemma update_loop_returns deltaTime n : ∀ s,
  n ≤ length (ParticlePool.active (ParticlePool.this s)) →
  ∃ s', for_down n (update_turn cfg deltaTime) s = (Return tt, s') ∧
        length (ParticlePool.pool (ParticlePool.this s'))
          ≤ length (ParticlePool.pool (ParticlePool.this s)) `max` Config.poolSize cfg.
Proof.
  induction n as [|n IH]; intros s Hn.
  - exists s. split; [done|lia].
  - destruct (update_turn_returns deltaTime s n) as (s1 & Hturn & Hlen & Hpool); [lia|].
    destruct (IH s1) as (s' & Hrun & Hpool'); [lia|].
    exists s'. cbn [for_down]. rewrite (bind_return _ _ _ _ _ Hturn).
    split; [done|lia].
Qed.

End update_facts.

Section survivors.
Context (cfg : Config.t).
Implicit Types (s : ParticlePool.state).


Lemma indexOf_middle (l t : list nat) r : NoDup (l ++ r :: t) → indexOf (l ++ r :: t) r = Some (length l).
Proof. intros Hnd. apply indexOf_NoDup; [done|]. by rewrite list_lookup_middle. Qed.

Lemma delete_middle {A} (l t : list A) r : delete (length l) (l ++ r :: t) = l ++ t.
Proof. induction l as [|a l IH]; simpl; [done|]. by rewrite IH. Qed.

Lemma update_turn_survivor deltaTime s l r t :
  ParticlePool.active (ParticlePool.this s) = l ++ r :: t →
  NoDup (l ++ r :: t) →
  ∃ s', update_turn cfg deltaTime (length l) s = (Return tt, s') ∧
        ParticlePool.active (ParticlePool.this s')
          = l ++ (if survives cfg s r then r :: t else t) ∧
        ParticlePool.ambient s' = ParticlePool.ambient s ∧
        length (ParticlePool.heap s') = length (ParticlePool.heap s) ∧
        (∀ r', r' ≠ r → ParticlePool.heap s' !! r' = ParticlePool.heap s !! r') ∧
        ParticlePool.heap s' !! r = swept cfg (ParticlePool.ambient s) <$> ParticlePool.heap s !! r.
Proof.
  intros Hact Hnd.
  assert (ParticlePool.active (ParticlePool.this s) !! length l = Some r) as Hi
    by (by rewrite Hact, list_lookup_middle).
  rewrite (update_turn_run _ _ _ _ _ Hi). eexists. split; [reflexivity|].
  unfold survives, swept.
  destruct (ParticlePool.heap s !! r) as [p|] eqn:Hr; [|by rewrite Hr].
  pose proof (lookup_lt_Some _ _ _ Hr) as Hlt.
  cbv zeta. destruct (Particle.active (stepped cfg _ p)) eqn:Hq.
  - cbn. split; [exact Hact|]. split; [done|]. split; [by rewrite length_insert|].
    split; [intros r' Hne; by rewrite list_lookup_insert_ne|].
    rewrite list_lookup_insert_eq by done. simpl. by rewrite Hq.
  - unfold after_release.
    cbn [ParticlePool.this ParticlePool.active ParticlePool.heap ParticlePool.ambient
         ParticlePool.pool].
    rewrite Hact, indexOf_middle, delete_middle by done.
    rewrite list_lookup_insert_eq by done.
    split; [done|]. split; [by destruct (ParticlePool.ambient s)|].
    split; [by rewrite !length_insert|].
    split; [intros r' Hne; by rewrite !list_lookup_insert_ne|].
    rewrite list_lookup_insert_eq by (by rewrite length_insert). simpl. by rewrite Hq.
Qed.

Lemma survives_proper s s' r :
  ParticlePool.ambient s' = ParticlePool.ambient s →
  ParticlePool.heap s' !! r = ParticlePool.heap s !! r →
  survives cfg s' r = survives cfg s r.
Proof. intros Ha Hr. unfold survives. by rewrite Ha, Hr. Qed.

Lemma filter_survives_proper s s' (l : list nat) :
  ParticlePool.ambient s' = ParticlePool.ambient s →
  (∀ r, r ∈ l → ParticlePool.heap s' !! r = ParticlePool.heap s !! r) →
  List.filter (survives cfg s') l = List.filter (survives cfg s) l.
Proof.
  intros Ha. induction l as [|a l IH]; intros Hl; simpl; [done|].
  rewrite (survives_proper s s' a), IH; [done| |done|].
  - intros r Hr. apply Hl. by right.
  - apply Hl. by left.
Qed.

Lemma update_loop_survivors deltaTime (l : list nat) : ∀ t s,
  ParticlePool.active (ParticlePool.this s) = l ++ t →
  NoDup (l ++ t) →
  ∃ s', for_down (length l) (update_turn cfg deltaTime) s = (Return tt, s') ∧
        ParticlePool.active (ParticlePool.this s') = List.filter (survives cfg s) l ++ t ∧
        ParticlePool.ambient s' = ParticlePool.ambient s ∧
        length (ParticlePool.heap s') = length (ParticlePool.heap s) ∧
        (∀ r, r ∉ l → ParticlePool.heap s' !! r = ParticlePool.heap s !! r) ∧
        (∀ r, r ∈ l → ParticlePool.heap s' !! r
                        = swept cfg (ParticlePool.ambient s) <$> ParticlePool.heap s !! r).
Proof.
  induction l as [|r l IH] using rev_ind; intros t s Hact Hnd.
  - exists s. split; [done|]. split; [done|]. split; [done|]. split; [done|].
    split; [done|]. by intros r ?%elem_of_nil.
  - rewrite <- (assoc_L (++)) in Hact, Hnd. simpl in Hact, Hnd.
    destruct (update_turn_survivor deltaTime s l r t Hact Hnd)
      as (s1 & Hturn & Hact1 & Hamb1 & Hlen1 & Hrest1 & Hr1).
    assert (r ∉ l) as Hrl.
    { apply NoDup_app in Hnd as (_ & Hdisj & _). intros Hr. apply (Hdisj r Hr). by left. }
    destruct (IH (if survives cfg s r then r :: t else t) s1 Hact1)
      as (s' & Hrun & Hact' & Hamb' & Hlen' & Hrest' & Hl').
    { destruct (survives cfg s r); [done|].
      apply NoDup_app in Hnd as (Hl & Hdisj & Ht). apply NoDup_cons in Ht as [_ Ht].
      apply NoDup_app. split; [done|]. split; [|done].
      intros x Hx Hxt. apply (Hdisj x Hx). by right. }
    exists s'. rewrite length_app, Nat.add_1_r. cbn [for_down].
    rewrite (bind_return _ _ _ _ _ Hturn).
    split; [done|]. split.
    { rewrite Hact', List.filter_app. simpl.
      rewrite (filter_survives_proper s s1 l Hamb1).
      - destruct (survives cfg s r); by rewrite <- (assoc_L (++)).
      - intros x Hx. apply Hrest1. by intros ->. }
    split; [congruence|]. split; [congruence|]. split.
    + intros x Hx. rewrite elem_of_app, list_elem_of_singleton in Hx.
      rewrite Hrest' by tauto. apply Hrest1. tauto.
    + intros x [Hx | ->%list_elem_of_singleton]%elem_of_app.
      * rewrite (Hl' x Hx), Hamb1, Hrest1; [done|]. by intros ->.
      * by rewrite (Hrest' r Hrl).
Qed.

(** [update] in closed form: the live set afterwards is the former one
    without the particles whose step has ended their life, and each
    particle that was live is [swept]. *)
Lemma update_run_swept deltaTime s :
  NoDup (ParticlePool.active (ParticlePool.this s)) →
  ∃ s', ParticlePool.update cfg deltaTime s = (Return tt, s') ∧
        ParticlePool.active (ParticlePool.this s')
          = List.filter (survives cfg s) (ParticlePool.active (ParticlePool.this s)) ∧
        ParticlePool.ambient s' = ParticlePool.ambient s ∧
        length (ParticlePool.heap s') = length (ParticlePool.heap s) ∧
        (∀ r, r ∉ ParticlePool.active (ParticlePool.this s) →
              ParticlePool.heap s' !! r = ParticlePool.heap s !! r) ∧
        (∀ r, r ∈ ParticlePool.active (ParticlePool.this s) →
              ParticlePool.heap s' !! r
              = swept cfg (ParticlePool.ambient s) <$> ParticlePool.heap s !! r).
Proof.
  intros Hnd. rewrite update_unfold.
  destruct (update_loop_survivors deltaTime (ParticlePool.active (ParticlePool.this s)) [] s)
    as (s' & Hrun & Hact & Hrest);
    [by rewrite app_nil_r | by rewrite app_nil_r |].
  rewrite app_nil_r in Hact. by exists s'.
Qed.

(** A particle that [update] keeps is active and has life left. *)
Lemma survivor_is_alive s r (p : Particle.t) :
  r ∈ List.filter (survives cfg s) (ParticlePool.active (ParticlePool.this s)) →
  swept cfg (ParticlePool.ambient s) <$> ParticlePool.heap s !! r = Some p →
  Particle.active p = true ∧ (0 < Particle.life p)%R.
Proof.
  intros Hr Hp. apply list_elem_of_In, List.filter_In in Hr as [_ Hs].
  unfold survives in Hs. destruct (ParticlePool.heap s !! r) as [p0|]; [|done].
  injection Hp as <-. unfold swept. rewrite Hs. split; [done|]. by apply stepped_active.
Qed.

End survivors.

Section clearing_exactly.
Context (cfg : Config.t).
Implicit Types (s : ParticlePool.state).

Lemma odd_positions_length {A} (l : list A) : length (odd_positions l) = length l / 2.
Proof.
  revert l. fix IH 1. intros [|a [|b l]]; [done | done |].
  cbn [odd_positions length]. rewrite IH.
  replace (S (S (length l))) with (length l + 1 * 2) by lia.
  by rewrite Nat.div_add, Nat.add_1_r.
Qed.

Lemma clear_visits (m : nat) : ∀ (kept rest : list nat) s,
  ParticlePool.active (ParticlePool.this s) = kept ++ rest →
  NoDup (kept ++ rest) →
  length rest ≤ m →
  ∃ s', for_range (length kept) m (clear_visit cfg) s = (Return tt, s') ∧
        ParticlePool.active (ParticlePool.this s') = kept ++ odd_positions rest ∧
        ParticlePool.pool (ParticlePool.this s')
          = ParticlePool.pool (ParticlePool.this s)
            ++ take (Config.poolSize cfg - length (ParticlePool.pool (ParticlePool.this s)))
                    (even_positions rest) ∧
        ParticlePool.ambient s' = ParticlePool.ambient s ∧
        length (ParticlePool.heap s') = length (ParticlePool.heap s).
Proof.
  induction m as [|m IH]; intros kept rest s Hact Hnd Hm.
  - destruct rest; [|simpl in Hm; lia]. exists s. simpl. rewrite take_nil, !app_nil_r.
    rewrite app_nil_r in Hact. done.
  - cbn [for_range]. rewrite (bind_return _ _ _ _ _ (clear_visit_run cfg (length kept) s)).
    destruct rest as [|a rest].
    + rewrite app_nil_r in Hact. rewrite lookup_ge_None_2 by (by rewrite Hact).
      rewrite visits_past_the_end by (rewrite Hact; lia).
      exists s. simpl. by rewrite take_nil, !app_nil_r.
    + rewrite Hact, list_lookup_middle by done.
      assert (ParticlePool.active (ParticlePool.this (after_release cfg a s)) = kept ++ rest)
        as Hact1.
      { simpl. by rewrite Hact, indexOf_middle, delete_middle. }
      assert (NoDup (kept ++ rest)) as Hnd1.
      { apply NoDup_app in Hnd as (Hl & Hdisj & Ht). apply NoDup_cons in Ht as [_ Ht].
        apply NoDup_app. split; [done|]. split; [|done].
        intros x Hx Hxt. apply (Hdisj x Hx). by right. }
      assert (length (ParticlePool.heap (after_release cfg a s)) = length (ParticlePool.heap s))
        as Hheap1.
      { simpl. destruct (_ !! a); [by rewrite length_insert | done]. }
      destruct rest as [|b rest].
      * rewrite app_nil_r in Hact1.
        rewrite visits_past_the_end by (rewrite Hact1; lia).
        eexists. split; [reflexivity|]. rewrite Hact1, app_nil_r. split; [done|].
        split; [|split; [reflexivity | done]].
        simpl. case_decide as Hroom.
        -- destruct (Config.poolSize cfg - _) as [|k] eqn:Hk; [lia|]. simpl. by rewrite take_nil.
        -- replace (Config.poolSize cfg - _) with 0 by lia. by rewrite app_nil_r.
      * destruct (IH (kept ++ [b]) rest (after_release cfg a s))
          as (s' & Hrun & Hact' & Hpool' & Hamb' & Hheap').
        { rewrite Hact1. by rewrite <- (assoc_L (++)). }
        { by rewrite <- (assoc_L (++)). }
        { simpl in Hm. lia. }
        rewrite length_app, Nat.add_1_r in Hrun.
        exists s'. split; [done|]. split.
        { rewrite Hact'. by rewrite <- (assoc_L (++)). }
        split; [|split; [rewrite Hamb'; reflexivity | congruence]].
        rewrite Hpool'. cbn [after_release ParticlePool.this ParticlePool.pool even_positions].
        case_decide as Hroom.
        -- rewrite length_app. simpl.
           destruct (Config.poolSize cfg - length (ParticlePool.pool (ParticlePool.this s)))
             as [|k] eqn:Hk; [lia|].
           replace (Config.poolSize cfg - (length (ParticlePool.pool (ParticlePool.this s)) + 1))
             with k by lia.
           simpl. by rewrite <- (assoc_L (++)).
        -- replace (Config.poolSize cfg - _) with 0 by lia. by rewrite !take_0.
Qed.

End clearing_exactly.

Section pool_invariants.
Context (cfg : Config.t).
Implicit Types (s : ParticlePool.state).

Lemma wf_heap s s' :
  ParticlePool.this s' = ParticlePool.this s →
  length (ParticlePool.heap s') = length (ParticlePool.heap s) →
  wf s → wf s'.
Proof. unfold wf. intros -> ->. done. Qed.

Lemma after_release_wf r s :
  wf s → r ∈ ParticlePool.active (ParticlePool.this s) → wf (after_release cfg r s).
Proof.
  intros [Hnd Hlt] Hr.
  destruct (indexOf_elem_of _ _ Hr) as [i Hi].
  pose proof (delete_Permutation _ _ _ (indexOf_Some _ _ _ Hi)) as Hperm.
  assert (length (ParticlePool.heap (after_release cfg r s)) = length (ParticlePool.heap s))
    as Hheap.
  { simpl. destruct (_ !! r); [by rewrite length_insert | done]. }
  unfold wf. rewrite Hheap. simpl. rewrite Hi.
  rewrite Hperm in Hnd. setoid_rewrite Hperm in Hlt.
  case_decide.
  - split.
    + eapply NoDup_Permutation_proper; [|exact Hnd].
      rewrite <- (assoc_L (++)). apply Permutation_app_head. simpl.
      done.
    + intros r' Hr'. apply Hlt. rewrite !elem_of_app, list_elem_of_singleton in Hr'.
      rewrite elem_of_app, elem_of_cons. tauto.
  - split.
    + apply NoDup_app in Hnd as (Hp & Hdisj & Ha). apply NoDup_cons in Ha as [_ Ha].
      apply NoDup_app. split; [done|]. split; [|done].
      intros x Hx Hxa. apply (Hdisj x Hx). by right.
    + intros r' Hr'. apply Hlt. rewrite elem_of_app in Hr'.
      rewrite elem_of_app, elem_of_cons. tauto.
Qed.

Lemma after_release_bound r s :
  length (ParticlePool.pool (ParticlePool.this (after_release cfg r s)))
    ≤ length (ParticlePool.pool (ParticlePool.this s)) `max` Config.poolSize cfg.
Proof. simpl. case_decide; [rewrite length_app; simpl|]; lia. Qed.

(** A well-formed pool stays so through one turn of [update]. *)
Lemma update_turn_wf deltaTime s i :
  wf s →
  i < length (ParticlePool.active (ParticlePool.this s)) →
  ∃ s', update_turn cfg deltaTime i s = (Return tt, s') ∧ wf s' ∧
        length (ParticlePool.active (ParticlePool.this s)) - 1
          ≤ length (ParticlePool.active (ParticlePool.this s')).
Proof.
  intros Hwf Hi. destruct (lookup_lt_is_Some_2 _ _ Hi) as [r Hr].
  rewrite (update_turn_run _ _ _ _ _ Hr). eexists. split; [reflexivity|].
  destruct (ParticlePool.heap s !! r) as [p|]; [|split; [done|lia]].
  cbv zeta.
  assert (wf (ParticlePool.mk_state (ParticlePool.ambient s)
                (<[r:=stepped cfg (ParticlePool.ambient s) p]> (ParticlePool.heap s))
                (ParticlePool.this s))) as Hwf1.
  { apply (wf_heap s); [done | simpl; by rewrite length_insert | done]. }
  destruct (Particle.active _); [split; [done | simpl; lia]|].
  split.
  - apply after_release_wf; [done|]. by eapply list_elem_of_lookup_2.
  - simpl. destruct (indexOf _ _) as [j|] eqn:Hj; [|lia].
    rewrite length_delete; [lia|]. apply indexOf_Some in Hj. by eexists.
Qed.

Lemma update_loop_wf deltaTime n : ∀ s,
  wf s →
  n ≤ length (ParticlePool.active (ParticlePool.this s)) →
  ∃ s', for_down n (update_turn cfg deltaTime) s = (Return tt, s') ∧ wf s'.
Proof.
  induction n as [|n IH]; intros s Hwf Hn.
  - by exists s.
  - destruct (update_turn_wf deltaTime s n) as (s1 & Hturn & Hwf1 & Hlen); [done|lia|].
    destruct (IH s1) as (s' & Hrun & Hwf'); [done|lia|].
    exists s'. cbn [for_down]. by rewrite (bind_return _ _ _ _ _ Hturn).
Qed.

Lemma clear_loop_wf m : ∀ k s,
  wf s → ∃ s', for_range k m (clear_visit cfg) s = (Return tt, s') ∧ wf s'.
Proof.
  induction m as [|m IH]; intros k s Hwf.
  - by exists s.
  - cbn [for_range]. rewrite (bind_return _ _ _ _ _ (clear_visit_run cfg k s)).
    apply IH. destruct (_ !! k) as [v|] eqn:Hv; [|done].
    apply after_release_wf; [done|]. by eapply list_elem_of_lookup_2.
Qed.

Lemma clear_loop_bound m : ∀ k s,
  ∃ s', for_range k m (clear_visit cfg) s = (Return tt, s') ∧
        length (ParticlePool.pool (ParticlePool.this s'))
          ≤ length (ParticlePool.pool (ParticlePool.this s)) `max` Config.poolSize cfg.
Proof.
  induction m as [|m IH]; intros k s.
  - exists s. split; [done|lia].
  - cbn [for_range]. rewrite (bind_return _ _ _ _ _ (clear_visit_run cfg k s)).
    destruct (ParticlePool.active (ParticlePool.this s) !! k) as [v|].
    + destruct (IH (S k) (after_release cfg v s)) as (s' & Hrun & Hb).
      exists s'. split; [done|]. pose proof (after_release_bound v s). lia.
    + apply IH.
Qed.

Lemma pool_step_wf (c : pool_call) s :
  wf s →
  match c with
  | Release particle => particle ∈ ParticlePool.active (ParticlePool.this s)
  | _ => True
  end →
  ∃ s', pool_step cfg c s = (Return tt, s') ∧ wf s'.
Proof.
  intros Hwf Hc. destruct c as [|r|r x y o|deltaTime| |now]; simpl.
  - rewrite (bind_return _ _ _ _ _ (get_run cfg s)). eexists. split; [reflexivity|].
    by apply after_get_wf.
  - rewrite release_run. eexists. split; [reflexivity|]. by apply after_release_wf.
  - rewrite invoke_run. destruct (ParticlePool.heap s !! r) as [p|]; [|by exists s].
    destruct (spawn_returns cfg x y o p (ParticlePool.ambient s)) as (q & -> & _).
    eexists. split; [reflexivity|]. apply (wf_heap s); [done | simpl; by rewrite length_insert | done].
  - rewrite update_unfold. by apply update_loop_wf.
  - rewrite clear_unfold. by apply clear_loop_wf.
  - eexists. split; [reflexivity|]. by apply (wf_heap s).
Qed.

Lemma pool_step_bound (c : pool_call) s :
  ∃ s', pool_step cfg c s = (Return tt, s') ∧
        length (ParticlePool.pool (ParticlePool.this s'))
          ≤ length (ParticlePool.pool (ParticlePool.this s)) `max` Config.poolSize cfg.
Proof.
  destruct c as [|r|r x y o|deltaTime| |now]; simpl.
  - rewrite (bind_return _ _ _ _ _ (get_run cfg s)). eexists. split; [reflexivity|].
    simpl. destruct (ParticlePool.pool (ParticlePool.this s)) as [|a l _] using rev_ind;
      [simpl; lia|].
    rewrite removelast_last, length_app. lia.
  - rewrite release_run. eexists. split; [reflexivity|]. apply after_release_bound.
  - rewrite invoke_run. destruct (ParticlePool.heap s !! r) as [p|]; [|exists s; split; [done|lia]].
    destruct (spawn_returns cfg x y o p (ParticlePool.ambient s)) as (q & -> & _).
    eexists. split; [reflexivity|]. simpl. lia.
  - rewrite update_unfold.
    destruct (update_loop_returns cfg deltaTime _ s (le_n _)) as (s' & Hrun & Hlen).
    by exists s'.
  - rewrite clear_unfold. apply clear_loop_bound.
  - eexists. split; [reflexivity|]. simpl. lia.
Qed.

End pool_invariants.

Lemma three_live_wf : wf three_live.
Proof.
  split.
  - simpl. apply (NoDup_ListNoDup [3; 0; 1; 2]).
    repeat (constructor; [simpl; intros ?; lia|]). constructor.
  - intros r Hr. apply list_elem_of_In in Hr. simpl in *. lia.
Qed.

Lemma three_live_live_NoDup : NoDup (ParticlePool.active (ParticlePool.this three_live)).
Proof.
  apply (NoDup_ListNoDup [0; 1; 2]).
  repeat (constructor; [simpl; intros ?; lia|]). constructor.
Qed.

(** X1.  On a well-formed pool [get] never returns a particle that is
    live: the particle it returns was not on the live list, is appended
    to it and is no longer on the free list; a new object is allocated
    exactly when the free list was empty; and the pool is well-formed
    again. *)
Theorem get_returns_a_particle_that_is_not_live (cfg : Config.t) (s : ParticlePool.state) :
  wf s →
  ∃ p s', ParticlePool.get cfg s = (Return p, s') ∧
          (p ∉ ParticlePool.active (ParticlePool.this s)) ∧
          ParticlePool.active (ParticlePool.this s')
            = ParticlePool.active (ParticlePool.this s) ++ [p] ∧
          (p ∉ ParticlePool.pool (ParticlePool.this s')) ∧
          (ParticlePool.heap s' = ParticlePool.heap s
           ↔ ParticlePool.pool (ParticlePool.this s) ≠ []) ∧
          wf s'.
Proof.
  intros Hwf. exists (acquired s), (after_get cfg s). split; [apply get_run|].
  pose proof (after_get_wf cfg s Hwf) as Hwf'.
  destruct Hwf as [Hnd Hlt], Hwf' as [Hnd' Hlt'].
  split; [|split; [done|split; [|split; [|done]]]].
  - unfold acquired. destruct (last _) as [r|] eqn:Hlast.
    + apply last_Some in Hlast as [l Hl]. rewrite Hl in Hnd.
      apply NoDup_app in Hnd as (_ & Hdisj & _). intros Hr.
      apply (Hdisj r); [|done]. rewrite elem_of_app, list_elem_of_singleton. tauto.
    + intros Hr. assert (length (ParticlePool.heap s) < length (ParticlePool.heap s)); [|lia].
      apply Hlt. rewrite elem_of_app. tauto.
  - simpl in Hnd'. apply NoDup_app in Hnd' as (_ & Hdisj & _). intros Hr.
    apply (Hdisj _ Hr). rewrite elem_of_app, list_elem_of_singleton. tauto.
  - simpl. destruct (last _) as [r|] eqn:Hlast.
    + split; [|done]. intros _ Hnil. by rewrite Hnil in Hlast.
    + apply last_None in Hlast. split; [|done].
      intros Heq. apply (f_equal length) in Heq. rewrite length_app in Heq. simpl in Heq. lia.
Qed.

Lemma get_returns_a_particle_that_is_not_live_witness :
  ∃ p s', ParticlePool.get desktop three_live = (Return p, s') ∧
          (p ∉ ParticlePool.active (ParticlePool.this three_live)) ∧
          ParticlePool.active (ParticlePool.this s')
            = ParticlePool.active (ParticlePool.this three_live) ++ [p] ∧
          (p ∉ ParticlePool.pool (ParticlePool.this s')) ∧
          (ParticlePool.heap s' = ParticlePool.heap three_live
           ↔ ParticlePool.pool (ParticlePool.this three_live) ≠ []) ∧
          wf s'.
Proof.
  apply (get_returns_a_particle_that_is_not_live desktop three_live). apply three_live_wf.
Defined.

(** X2.  Every sequence of calls on a pool ([get], [release] of any
    reference, [spawn] on any reference, [update], [clear]), from every
    state of the pool, returns without an exception; and the free list
    never grows beyond the configured [poolSize] (or beyond the length it
    had, if that was larger). *)
Theorem pool_calls_return_and_bound_the_free_list (cfg : Config.t) (cs : list pool_call) :
  ∀ s : ParticlePool.state,
  ∃ s', pool_steps cfg cs s = (Return tt, s') ∧
        length (ParticlePool.pool (ParticlePool.this s'))
          ≤ length (ParticlePool.pool (ParticlePool.this s)) `max` Config.poolSize cfg.
Proof.
  induction cs as [|c cs IH]; intros s.
  - exists s. split; [done|lia].
  - destruct (pool_step_bound cfg c s) as (s1 & Hstep & Hb1).
    destruct (IH s1) as (s' & Hrun & Hb').
    exists s'. simpl. rewrite (bind_return _ _ _ _ _ Hstep). split; [done|lia].
Qed.

(** X3.  A well-formed pool stays well-formed (references of the free
    list and of the live list pairwise distinct and allocated) through
    every sequence of calls in which [release] is only given particles
    that are live at that moment. *)
Theorem pool_stays_well_formed (cfg : Config.t) (cs : list pool_call) :
  ∀ s : ParticlePool.state,
  wf s → releases_live cfg cs s →
  ∃ s', pool_steps cfg cs s = (Return tt, s') ∧ wf s'.
Proof.
  induction cs as [|c cs IH]; intros s Hwf Hlive.
  - by exists s.
  - destruct Hlive as [Hc Hlive].
    destruct (pool_step_wf cfg c s Hwf Hc) as (s1 & Hstep & Hwf1).
    rewrite Hstep in Hlive.
    destruct (IH s1 Hwf1 Hlive) as (s' & Hrun & Hwf').
    exists s'. simpl. by rewrite (bind_return _ _ _ _ _ Hstep).
Qed.

Lemma pool_stays_well_formed_witness :
  ∃ s', pool_steps desktop [Release 1; Get; Spawn 1 10 20 Particle.no_options; Clear] three_live
          = (Return tt, s') ∧ wf s'.
Proof.
  apply (pool_stays_well_formed desktop
           [Release 1; Get; Spawn 1 10 20 Particle.no_options; Clear] three_live).
  - apply three_live_wf.
  - split; [|done]. apply list_elem_of_In. simpl. tauto.
Defined.

(** X4.  [ParticlePool.update] returns and keeps, in their order, exactly
    the live particles that are still active after their own [update];
    every particle it keeps is active with a positive life, every
    particle it takes off the live list has been reset, no other
    particle is touched, and no random number is drawn. *)
Theorem update_keeps_the_survivors (cfg : Config.t) (deltaTime : R) (s : ParticlePool.state) :
  NoDup (ParticlePool.active (ParticlePool.this s)) →
  ∃ s', ParticlePool.update cfg deltaTime s = (Return tt, s') ∧
        ParticlePool.active (ParticlePool.this s')
          = List.filter (survives cfg s) (ParticlePool.active (ParticlePool.this s)) ∧
        ParticlePool.ambient s' = ParticlePool.ambient s ∧
        length (ParticlePool.heap s') = length (ParticlePool.heap s) ∧
        (∀ r p, r ∈ ParticlePool.active (ParticlePool.this s') →
                ParticlePool.heap s' !! r = Some p →
                Particle.active p = true ∧ (0 < Particle.life p)%R) ∧
        (∀ r p, r ∈ ParticlePool.active (ParticlePool.this s) →
                r ∉ ParticlePool.active (ParticlePool.this s') →
                ParticlePool.heap s' !! r = Some p →
                p = Particle.new cfg) ∧
        (∀ r, r ∉ ParticlePool.active (ParticlePool.this s) →
              ParticlePool.heap s' !! r = ParticlePool.heap s !! r).
Proof.
  intros Hnd.
  destruct (update_run_swept cfg deltaTime s Hnd) as (s' & Hrun & Hact & Hamb & Hlen & Hrest & Hlive).
  exists s'. split; [done|]. split; [done|]. split; [done|]. split; [done|].
  split; [|split; [|done]].
  - intros r p Hr Hp. rewrite Hact in Hr.
    assert (r ∈ ParticlePool.active (ParticlePool.this s)) as Hr0.
    { apply list_elem_of_In, List.filter_In in Hr as [Hr _]. by apply list_elem_of_In. }
    rewrite (Hlive r Hr0) in Hp. by apply (survivor_is_alive cfg s r p).
  - intros r p Hr Hgone Hp. rewrite (Hlive r Hr) in Hp.
    destruct (ParticlePool.heap s !! r) as [p0|] eqn:Hp0; [|done].
    injection Hp as <-. unfold swept.
    destruct (Particle.active (stepped cfg _ p0)) eqn:Hs; [|done].
    exfalso. apply Hgone. rewrite Hact. apply list_elem_of_In, List.filter_In.
    split; [by apply list_elem_of_In|]. unfold survives. by rewrite Hp0.
Qed.

Lemma update_keeps_the_survivors_witness :
  ∃ s', ParticlePool.update desktop 16 three_live = (Return tt, s') ∧
        ParticlePool.active (ParticlePool.this s')
          = List.filter (survives desktop three_live)
                        (ParticlePool.active (ParticlePool.this three_live)) ∧
        ParticlePool.ambient s' = ParticlePool.ambient three_live ∧
        length (ParticlePool.heap s') = length (ParticlePool.heap three_live) ∧
        (∀ r p, r ∈ ParticlePool.active (ParticlePool.this s') →
                ParticlePool.heap s' !! r = Some p →
                Particle.active p = true ∧ (0 < Particle.life p)%R) ∧
        (∀ r p, r ∈ ParticlePool.active (ParticlePool.this three_live) →
                r ∉ ParticlePool.active (ParticlePool.this s') →
                ParticlePool.heap s' !! r = Some p →
                p = Particle.new desktop) ∧
        (∀ r, r ∉ ParticlePool.active (ParticlePool.this three_live) →
              ParticlePool.heap s' !! r = ParticlePool.heap three_live !! r).
Proof.
  apply (update_keeps_the_survivors desktop 16 three_live). apply three_live_live_NoDup.
Defined.

(** X5.  [ParticlePool.clear] releases the live particles at the
    positions 0, 2, 4, ... and leaves those at the positions 1, 3, 5, ...
    live, in their order: [release] splices the array [forEach] is
    walking.  The released ones go to the free list as far as it has
    room. *)
Theorem clear_releases_every_other_particle (cfg : Config.t) (s : ParticlePool.state) :
  NoDup (ParticlePool.active (ParticlePool.this s)) →
  ∃ s', ParticlePool.clear cfg s = (Return tt, s') ∧
        ParticlePool.active (ParticlePool.this s')
          = odd_positions (ParticlePool.active (ParticlePool.this s)) ∧
        ParticlePool.pool (ParticlePool.this s')
          = ParticlePool.pool (ParticlePool.this s)
            ++ take (Config.poolSize cfg - length (ParticlePool.pool (ParticlePool.this s)))
                    (even_positions (ParticlePool.active (ParticlePool.this s))).
Proof.
  intros Hnd. rewrite clear_unfold.
  destruct (clear_visits cfg (length (ParticlePool.active (ParticlePool.this s))) []
              (ParticlePool.active (ParticlePool.this s)) s)
    as (s' & Hrun & Hact & Hpool & _); [done | done | done |].
  by exists s'.
Qed.

Lemma clear_releases_every_other_particle_witness :
  ∃ s', ParticlePool.clear desktop three_live = (Return tt, s') ∧
        ParticlePool.active (ParticlePool.this s')
          = odd_positions (ParticlePool.active (ParticlePool.this three_live)) ∧
        ParticlePool.pool (ParticlePool.this s')
          = ParticlePool.pool (ParticlePool.this three_live)
            ++ take (Config.poolSize desktop
                     - length (ParticlePool.pool (ParticlePool.this three_live)))
                    (even_positions (ParticlePool.active (ParticlePool.this three_live))).
Proof.
  apply (clear_releases_every_other_particle desktop three_live). apply three_live_live_NoDup.
Defined.

(** X6.  [release] does not check that the particle is live: when the
    free list has room for two, releasing the same particle twice puts
    it on the free list twice, and the next two calls of [get] both
    return that one object, which is then listed twice as live. *)
Theorem a_particle_released_twice_is_handed_out_twice
    (cfg : Config.t) (particle : nat) (s : ParticlePool.state) :
  length (ParticlePool.pool (ParticlePool.this s)) + 2 ≤ Config.poolSize cfg →
  ∃ s' live,
    (ParticlePool.release cfg particle ;; ParticlePool.release cfg particle ;;
     a ← ParticlePool.get cfg; b ← ParticlePool.get cfg; mret (a, b)) s
    = (Return (particle, particle), s') ∧
    ParticlePool.active (ParticlePool.this s') = live ++ [particle; particle] ∧
    ParticlePool.pool (ParticlePool.this s') = ParticlePool.pool (ParticlePool.this s).
Proof.
  intros Hroom.
  rewrite (bind_return _ _ _ _ _ (release_run cfg particle s)).
  rewrite (bind_return _ _ _ _ _ (release_run cfg particle _)).
  rewrite (bind_return _ _ _ _ _ (get_run cfg _)).
  rewrite (bind_return _ _ _ _ _ (get_run cfg _)).
  assert (∀ s0, length (ParticlePool.pool (ParticlePool.this s0)) < Config.poolSize cfg →
                ParticlePool.pool (ParticlePool.this (after_release cfg particle s0))
                = ParticlePool.pool (ParticlePool.this s0) ++ [particle]) as Hpush.
  { intros s0 H0. simpl. by rewrite decide_True. }
  pose proof (Hpush s ltac:(lia)) as Hp1.
  set (s1 := after_release cfg particle s) in *.
  pose proof (Hpush s1 ltac:(rewrite Hp1, length_app; simpl; lia)) as Hp2.
  set (s2 := after_release cfg particle s1) in *.
  rewrite Hp1 in Hp2. clearbody s2. clear Hpush.
  assert (acquired s2 = particle) as Ha.
  { unfold acquired. by rewrite Hp2, last_snoc. }
  assert (ParticlePool.pool (ParticlePool.this (after_get cfg s2))
          = ParticlePool.pool (ParticlePool.this s) ++ [particle]) as Hp3.
  { simpl. by rewrite Hp2, removelast_last. }
  assert (acquired (after_get cfg s2) = particle) as Hb.
  { unfold acquired. by rewrite Hp3, last_snoc. }
  rewrite Ha, Hb. eexists _, (ParticlePool.active (ParticlePool.this s2)).
  split; [reflexivity|]. split.
  - cbn [after_get ParticlePool.this ParticlePool.active]. rewrite Ha, Hb.
    by rewrite <- (assoc_L (++)).
  - simpl. by rewrite Hp2, !removelast_last.
Qed.

Lemma a_particle_released_twice_is_handed_out_twice_witness :
  ∃ s' live,
    (ParticlePool.release desktop 1 ;; ParticlePool.release desktop 1 ;;
     a ← ParticlePool.get desktop; b ← ParticlePool.get desktop; mret (a, b)) three_live
    = (Return (1, 1), s') ∧
    ParticlePool.active (ParticlePool.this s') = live ++ [1; 1] ∧
    ParticlePool.pool (ParticlePool.this s') = ParticlePool.pool (ParticlePool.this three_live).
Proof.
  apply (a_particle_released_twice_is_handed_out_twice desktop 1 three_live). simpl. lia.
Defined.

Section motion.
Context (cfg : Config.t).
Local Open Scope R_scope.

Lemma geometric_step (f : R) (n : nat) : geometric f (S n) = f * (1 + geometric f n).
Proof.
  induction n as [|n IH]; [simpl; ring|].
  change (geometric f (S (S n))) with (f ^ S (S n) + geometric f (S n)).
  rewrite IH at 1. change (geometric f (S n)) with (f ^ S n + geometric f n).
  simpl. ring.
Qed.

(** One [update] of a particle that outlives it. *)
Lemma stepped_alive (now : R) (p : Particle.t) :
  Particle.active p = true →
  0 < Particle.maxLife p →
  now < Particle.birthTime p + Particle.maxLife p →
  let q := stepped cfg (at_time now) p in
  Particle.active q = true ∧
  Particle.vx q = Particle.vx p * Config.friction cfg ∧
  Particle.vy q = (Particle.vy p + Config.gravity cfg) * Config.friction cfg ∧
  Particle.x q = Particle.x p + Particle.vx p * Config.friction cfg ∧
  Particle.y q = Particle.y p + (Particle.vy p + Config.gravity cfg) * Config.friction cfg ∧
  Particle.rotation q = Particle.rotation p + Particle.rotationSpeed p ∧
  Particle.rotationSpeed q = Particle.rotationSpeed p ∧
  Particle.maxLife q = Particle.maxLife p ∧
  Particle.birthTime q = Particle.birthTime p ∧
  Particle.size q = Particle.size p ∧
  Particle.color q = Particle.color p.
Proof.
  intros Hact Hmax Hnow. cbv zeta. unfold stepped, Particle.update. rewrite Hact. run.
  rewrite bool_decide_eq_false_2; [by simpl|].
  assert ((now - Particle.birthTime p) / Particle.maxLife p < 1); [|lra].
  apply quotient_below_one; lra.
Qed.

End motion.

(** X7.  How far a particle has moved depends on the number of frames
    it has lived through, not on the time: after [n] calls of [update],
    whatever the times of the frames (as long as the particle outlives
    them), the velocity has been damped by [friction ^ n], gravity has
    been added and damped [n] times, the position has advanced by the
    sum of the velocities, and the rotation by [n] times its speed. *)
Theorem motion_counts_frames_not_time (cfg : Config.t) (nows : list R) :
  ∀ p : Particle.t,
  Particle.active p = true →
  (0 < Particle.maxLife p)%R →
  Forall (λ now, now < Particle.birthTime p + Particle.maxLife p)%R nows →
  let q := frames cfg nows p in
  let n := length nows in
  Particle.active q = true ∧
  Particle.vx q = (Particle.vx p * Config.friction cfg ^ n)%R ∧
  Particle.vy q = (Particle.vy p * Config.friction cfg ^ n
                   + Config.gravity cfg * geometric (Config.friction cfg) n)%R ∧
  Particle.x q = (Particle.x p + Particle.vx p * geometric (Config.friction cfg) n)%R ∧
  Particle.rotation q = (Particle.rotation p + INR n * Particle.rotationSpeed p)%R ∧
  Particle.size q = Particle.size p ∧
  Particle.color q = Particle.color p.
Proof.
  induction nows as [|now nows IH]; intros p Hact Hmax Hnows; cbv zeta.
  - simpl. repeat split; try done; ring.
  - apply Forall_cons in Hnows as [Hnow Hnows].
    destruct (stepped_alive cfg now p Hact Hmax Hnow)
      as (Hact1 & Hvx & Hvy & Hx & _ & Hrot & Hspeed & Hmax1 & Hbirth & Hsize & Hcolor).
    destruct (IH (stepped cfg (at_time now) p))
      as (Hact' & Hvx' & Hvy' & Hx' & Hrot' & Hsize' & Hcolor').
    { done. } { by rewrite Hmax1. } { by rewrite Hmax1, Hbirth. }
    change (frames cfg (now :: nows) p) with (frames cfg nows (stepped cfg (at_time now) p)).
    rewrite Hact', Hvx', Hvy', Hx', Hrot', Hsize', Hcolor'.
    rewrite Hvx, Hvy, Hx, Hrot, Hspeed, Hsize, Hcolor.
    change (length (now :: nows)) with (S (length nows)).
    rewrite S_INR.
    split; [done|]. split; [simpl; ring|]. split; [simpl; ring|].
    split; [rewrite geometric_step; ring|]. split; [ring|]. done.
Qed.

Lemma motion_counts_frames_not_time_witness :
  let q := frames desktop [1016; 1033; 1050]%R young_particle in
  let n := length [1016; 1033; 1050]%R in
  Particle.active q = true ∧
  Particle.vx q = (Particle.vx young_particle * Config.friction desktop ^ n)%R ∧
  Particle.vy q = (Particle.vy young_particle * Config.friction desktop ^ n
                   + Config.gravity desktop * geometric (Config.friction desktop) n)%R ∧
  Particle.x q = (Particle.x young_particle
                  + Particle.vx young_particle * geometric (Config.friction desktop) n)%R ∧
  Particle.rotation q = (Particle.rotation young_particle
                         + INR n * Particle.rotationSpeed young_particle)%R ∧
  Particle.size q = Particle.size young_particle ∧
  Particle.color q = Particle.color young_particle.
Proof.
  apply (motion_counts_frames_not_time desktop [1016; 1033; 1050]%R young_particle).
  - reflexivity.
  - simpl. lra.
  - repeat (apply Forall_cons; split; [simpl; lra|]). apply Forall_nil. done.
Defined.

Section loop_facts.
Context (cfg : Config.t).
Implicit Types (st : Loop.Stage) (w : ParticleEngine.World).

Lemma update_outcome deltaTime (s : ParticlePool.state) :
  ParticlePool.update cfg deltaTime s = (Return tt, snd (ParticlePool.update cfg deltaTime s)).
Proof.
  rewrite update_unfold.
  destruct (update_loop_returns cfg deltaTime _ s (le_n _)) as (s' & -> & _). done.
Qed.

Lemma animate_run currentTime st :
  Loop.animate cfg currentTime st
  = match ParticleEngine.ctx (ParticleEngine.engine (Loop.world st)) with
    | None => (Throw (TypeError "Cannot read properties of null"), Loop.timed currentTime st)
    | Some _ =>
        let st1 := Loop.call_canvas
                     [Canvas.clearRect 0 0
                        (ParticleEngine.width (ParticleEngine.engine (Loop.world st)))
                        (ParticleEngine.height (ParticleEngine.engine (Loop.world st)))]
                     (Loop.timed currentTime st) in
        match ParticleEngine.pool (ParticleEngine.engine (Loop.world st)) with
        | None => (Throw (TypeError "Cannot read properties of null"), st1)
        | Some P =>
            let deltaTime := match currentTime, Loop.lastTime (Loop.timing st) with
                             | Some t, Some l => Some (t - l)%R
                             | _, _ => None
                             end in
            let s' := snd (ParticlePool.update cfg (default 0%R deltaTime)
                             (ParticleEngine.pool_state P (Loop.world st))) in
            (Return tt,
             Loop.call_canvas (Drawing.ParticlePool_draw cfg s')
               (Loop.set_world (ParticleEngine.put_pool_state s' (Loop.world st1)) st1))
        end
    end.
Proof.
  unfold Loop.animate, Loop.timed, Loop.updateFPS, Loop.set_this_animationId, Loop.in_world,
    Loop.requestAnimationFrame, ParticleEngine.this_ctx, ParticleEngine.this_pool.
  unfold mbind, M_bind, mret, M_ret, gets, modify, throw, zoom.
  destruct st as [tm cc rq nx [a h ho [cv cx pl ai wi he]]].
  destruct currentTime as [t|]; [case_bool_decide|]; simpl;
    (destruct cx as [c|]; simpl; [|reflexivity]);
    (destruct pl as [P|]; simpl; [|reflexivity]);
    unfold ParticleEngine.pool_state; simpl;
    rewrite update_outcome; simpl; by destruct (snd _).
Qed.

(** What the request and the timing leave of the stage. *)
Lemma timed_shape currentTime st :
  Loop.timed currentTime st
  = Loop.mk_stage (Loop.timing (Loop.timed currentTime st))
      (Loop.canvas_calls st)
      (Loop.requests st ++ [Loop.next_request st])
      (S (Loop.next_request st))
      (ParticleEngine.set_engine
         (ParticleEngine.set_animationId (Some (Loop.next_request st))
            (ParticleEngine.engine (Loop.world st)))
         (Loop.world st)).
Proof.
  unfold Loop.timed, Loop.updateFPS, Loop.set_this_animationId, Loop.in_world,
    Loop.requestAnimationFrame.
  unfold mbind, M_bind, mret, M_ret, gets, modify, throw, zoom.
  destruct currentTime as [t|]; [simpl; case_bool_decide|]; reflexivity.
Qed.

Lemma timed_lastTime currentTime st :
  Loop.lastTime (Loop.timing (Loop.timed currentTime st)) = currentTime.
Proof.
  unfold Loop.timed, Loop.updateFPS, Loop.set_this_animationId, Loop.in_world,
    Loop.requestAnimationFrame.
  unfold mbind, M_bind, mret, M_ret, gets, modify, throw, zoom.
  destruct currentTime as [t|]; [simpl; case_bool_decide|]; reflexivity.
Qed.

(** Whatever [animate] does after its first statement, the frame it has
    requested stays requested. *)
Lemma animate_loop currentTime st :
  let st' := snd (Loop.animate cfg currentTime st) in
  Loop.requests st' = Loop.requests st ++ [Loop.next_request st] ∧
  Loop.next_request st' = S (Loop.next_request st) ∧
  ParticleEngine.animationId (ParticleEngine.engine (Loop.world st'))
    = Some (Loop.next_request st).
Proof.
  cbv zeta. rewrite animate_run.
  destruct (ParticleEngine.ctx _); [destruct (ParticleEngine.pool _)|];
    cbv zeta; rewrite timed_shape; done.
Qed.

Lemma this_pool_animationId {A} (method : M ParticlePool.state A) w :
  ParticleEngine.animationId (ParticleEngine.engine (snd (ParticleEngine.this_pool method w)))
  = ParticleEngine.animationId (ParticleEngine.engine w).
Proof.
  unfold ParticleEngine.this_pool. destruct (ParticleEngine.pool _); [|done].
  by destruct (method _).
Qed.

Lemma animate_one_loop currentTime st :
  0 < Loop.next_request st → Loop.requests st = [] →
  Loop.one_loop (snd (Loop.animate cfg currentTime st)).
Proof.
  intros Hnext Hnone. destruct (animate_loop currentTime st) as (Hrq & Hnx & Hid).
  unfold Loop.one_loop. rewrite Hid, Hrq, Hnx, Hnone. split; [lia|]. by split.
Qed.

Lemma pause_run st :
  Loop.one_loop st →
  ∃ st', Loop.pause st = (Return tt, st') ∧ Loop.one_loop st' ∧ Loop.requests st' = [] ∧
         ParticleEngine.animationId (ParticleEngine.engine (Loop.world st')) = None ∧
         ParticleEngine.pool (ParticleEngine.engine (Loop.world st'))
           = ParticleEngine.pool (ParticleEngine.engine (Loop.world st)) ∧
         Loop.canvas_calls st' = Loop.canvas_calls st.
Proof.
  intros [Hnext Hloop]. unfold Loop.pause, Loop.this_animationId, Loop.cancelAnimationFrame,
    Loop.set_this_animationId, Loop.in_world.
  unfold mbind, M_bind, mret, M_ret, gets, modify, throw, zoom.
  destruct (ParticleEngine.animationId _) as [[|h]|] eqn:Hid.
  - lia.
  - destruct Hloop as [_ Hrq]. simpl. rewrite Hrq. simpl. rewrite Nat.eqb_refl. simpl.
    eexists. split; [reflexivity|]. unfold Loop.one_loop. simpl. done.
  - simpl. eexists. split; [reflexivity|]. unfold Loop.one_loop. rewrite Hid. done.
Qed.

Lemma handle_one_loop (e : Loop.event) st :
  Loop.one_loop st → Loop.one_loop (snd (Loop.handle cfg e st)).
Proof.
  intros Hloop. pose proof Hloop as [Hnext Hid].
  destruct e as [now| |now| |time|now]; simpl.
  - unfold Loop.start, Loop.this_animationId.
    unfold mbind at 1, M_bind at 1, gets at 1.
    destruct (ParticleEngine.animationId _) as [[|h]|] eqn:Ha; [lia|done|].
    simpl. unfold mbind at 1, M_bind at 1, modify at 1.
    apply animate_one_loop; done.
  - destruct (pause_run st Hloop) as (st' & -> & Hloop' & _). done.
  - unfold Loop.resume, Loop.this_animationId.
    unfold mbind at 1, M_bind at 1, gets at 1.
    destruct (ParticleEngine.animationId _) as [[|h]|] eqn:Ha; [lia|done|].
    simpl. unfold mbind at 1, M_bind at 1, modify at 1.
    apply animate_one_loop; done.
  - unfold Loop.destroy.
    destruct (pause_run st Hloop) as (st' & Hpause & [Hnext' Hloop'] & Hrq & Hid' & _).
    rewrite (bind_return _ _ _ _ _ Hpause).
    unfold Loop.in_world, zoom.
    pose proof (this_pool_animationId (ParticlePool.clear cfg) (Loop.world st')) as Hsame.
    destruct (ParticleEngine.this_pool _ _) as [o w']. simpl in *.
    unfold Loop.one_loop. simpl. rewrite Hsame, Hid'. done.
  - unfold mbind at 1, M_bind at 1, gets at 1.
    destruct (Loop.requests st) as [|h rest] eqn:Hrq; [exact Hloop|].
    unfold mbind at 1, M_bind at 1, modify at 1.
    apply animate_one_loop; [done|]. simpl.
    destruct (ParticleEngine.animationId _); [|done].
    destruct Hid as [_ Hid]. by injection Hid.
  - unfold Loop.in_world, zoom, modify. simpl. done.
Qed.

End loop_facts.

Section drawing_facts.
Context (cfg : Config.t).
Implicit Types (st : Loop.Stage) (w : ParticleEngine.World) (s : ParticlePool.state).

Lemma Particle_draw_scoped (p : Particle.t) depth rest :
  Canvas.scoped depth (Drawing.Particle_draw cfg p ++ rest) = Canvas.scoped depth rest.
Proof. unfold Drawing.Particle_draw. by destruct (_ || _). Qed.

Lemma Particle_draw_painted (p : Particle.t) :
  Canvas.painted (Drawing.Particle_draw cfg p)
  = if Particle.active p && negb (bool_decide (Particle.life p <= 0)%R) then 1 else 0.
Proof.
  unfold Drawing.Particle_draw. destruct (Particle.active p); simpl; [|done].
  by case_bool_decide.
Qed.

Lemma painted_app (c1 c2 : list Canvas.command) :
  Canvas.painted (c1 ++ c2) = Canvas.painted c1 + Canvas.painted c2.
Proof. unfold Canvas.painted. by rewrite List.filter_app, length_app. Qed.

(** [draw] leaves the context as it found it, whatever the pool holds. *)
Lemma draw_scoped s : Canvas.scoped 0 (Drawing.ParticlePool_draw cfg s) = true.
Proof.
  unfold Drawing.ParticlePool_draw.
  induction (ParticlePool.active (ParticlePool.this s)) as [|r l IH]; [done|].
  simpl. destruct (ParticlePool.heap s !! r) as [p|]; [|done].
  by rewrite Particle_draw_scoped.
Qed.

(** [draw] paints one square for each live particle that is active with
    a positive life. *)
Lemma draw_painted s :
  (∀ r, r ∈ ParticlePool.active (ParticlePool.this s) →
        ∃ p, ParticlePool.heap s !! r = Some p ∧
             Particle.active p = true ∧ (0 < Particle.life p)%R) →
  Canvas.painted (Drawing.ParticlePool_draw cfg s)
  = length (ParticlePool.active (ParticlePool.this s)).
Proof.
  unfold Drawing.ParticlePool_draw.
  induction (ParticlePool.active (ParticlePool.this s)) as [|r l IH]; intros Hlive; [done|].
  simpl. destruct (Hlive r) as (p & -> & Hact & Hlife); [by left|].
  rewrite painted_app, Particle_draw_painted, Hact, bool_decide_eq_false_2 by lra.
  simpl. f_equal. apply IH. intros r' Hr'. apply Hlive. by right.
Qed.

Lemma getStats_run st P :
  ParticleEngine.pool (ParticleEngine.engine (Loop.world st)) = Some P →
  Loop.getStats cfg st
  = (Return (Loop.mk_stats (length (ParticlePool.active P))
               (Config.maxParticles cfg) (Config.poolSize cfg)
               (Loop.fps (Loop.timing st))
               (ParticleEngine.width (ParticleEngine.engine (Loop.world st)),
                ParticleEngine.height (ParticleEngine.engine (Loop.world st)))), st).
Proof.
  intros HP. unfold Loop.getStats, Loop.in_world, zoom.
  unfold mbind at 1, M_bind at 1.
  rewrite (this_pool_run _ _ P HP). simpl. rewrite put_pool_state_id by done.
  destruct st as [tm cc rq nx w]. reflexivity.
Qed.

End drawing_facts.

Lemma play_app (cfg : Config.t) (es es' : list Loop.event) : ∀ st,
  Loop.play cfg (es ++ es') st = Loop.play cfg es' (Loop.play cfg es st).
Proof. induction es as [|e es IH]; intros st; simpl; [done | apply IH]. Qed.

Lemma play_one_loop (cfg : Config.t) (es : list Loop.event) : ∀ st,
  Loop.one_loop st → Loop.one_loop (Loop.play cfg es st).
Proof.
  induction es as [|e es IH]; intros st Hloop; simpl; [done|].
  by apply IH, handle_one_loop.
Qed.

(** X8.  The engine never runs two frame loops.  Through every sequence
    of [start], [pause], [resume] and [destroy] calls, frames run by the
    browser and clock changes -- also when a frame throws -- at most one
    frame request is outstanding, and it is the one whose handle
    [animationId] holds.  After [pause] or [destroy] none is outstanding;
    after [resume] exactly one is. *)
Theorem the_engine_runs_one_loop (cfg : Config.t) (es : list Loop.event) (st : Loop.Stage) :
  Loop.one_loop st →
  Loop.one_loop (Loop.play cfg es st) ∧
  length (Loop.requests (Loop.play cfg es st)) ≤ 1 ∧
  Loop.requests (Loop.play cfg (es ++ [Loop.Pause]) st) = [] ∧
  Loop.requests (Loop.play cfg (es ++ [Loop.Destroy]) st) = [] ∧
  ∀ now, length (Loop.requests (Loop.play cfg (es ++ [Loop.Resume now]) st)) = 1.
Proof.
  intros Hloop. pose proof (play_one_loop cfg es st Hloop) as Hes.
  split; [done|]. split; [|split; [|split]].
  - destruct Hes as [_ Hes]. destruct (ParticleEngine.animationId _).
    + destruct Hes as [_ ->]. simpl. lia.
    + rewrite Hes. simpl. lia.
  - rewrite play_app. simpl.
    by destruct (pause_run _ Hes) as (st' & -> & _ & Hrq & _).
  - rewrite play_app. simpl. unfold Loop.destroy.
    destruct (pause_run _ Hes) as (st' & Hpause & _ & Hrq & _).
    rewrite (bind_return _ _ _ _ _ Hpause). unfold Loop.in_world, zoom.
    by destruct (ParticleEngine.this_pool _ _).
  - intros now. rewrite play_app. simpl.
    unfold Loop.resume, Loop.this_animationId.
    unfold mbind at 1, M_bind at 1, gets at 1.
    destruct Hes as [Hnext Hes].
    destruct (ParticleEngine.animationId _) as [[|h]|] eqn:Ha.
    + lia.
    + simpl. destruct Hes as [_ ->]. done.
    + simpl. unfold mbind at 1, M_bind at 1, modify at 1.
      destruct (animate_loop cfg None
                  (Loop.set_timing (Loop.set_lastTime (Some now)
                     (Loop.timing (Loop.play cfg es st))) (Loop.play cfg es st)))
        as (-> & _ & _).
      simpl. rewrite Hes. done.
Qed.

Lemma the_engine_runs_one_loop_witness :
  Loop.one_loop (Loop.play desktop [Loop.Start 10; Loop.Frame 16; Loop.Resume 20]
                   (new_engine None)) ∧
  length (Loop.requests (Loop.play desktop [Loop.Start 10; Loop.Frame 16; Loop.Resume 20]
                           (new_engine None))) ≤ 1 ∧
  Loop.requests (Loop.play desktop ([Loop.Start 10; Loop.Frame 16; Loop.Resume 20]
                                    ++ [Loop.Pause]) (new_engine None)) = [] ∧
  Loop.requests (Loop.play desktop ([Loop.Start 10; Loop.Frame 16; Loop.Resume 20]
                                    ++ [Loop.Destroy]) (new_engine None)) = [] ∧
  ∀ now, length (Loop.requests (Loop.play desktop
                   ([Loop.Start 10; Loop.Frame 16; Loop.Resume 20] ++ [Loop.Resume now])
                   (new_engine None))) = 1.
Proof.
  apply (the_engine_runs_one_loop desktop [Loop.Start 10; Loop.Frame 16; Loop.Resume 20]
           (new_engine None)).
  split; [simpl; lia | reflexivity].
Defined.

(** X9.  [animate] requests the next frame before anything else: whether
    it returns or throws, one more frame request is outstanding,
    [animationId] holds its handle and [lastTime] is the time it was
    given.  It throws exactly when the engine has no 2D context or no
    pool. *)
Theorem animate_requests_the_next_frame_first
    (cfg : Config.t) (currentTime : option R) (st : Loop.Stage) :
  let st' := snd (Loop.animate cfg currentTime st) in
  (fst (Loop.animate cfg currentTime st) = Return tt
   ↔ is_Some (ParticleEngine.ctx (ParticleEngine.engine (Loop.world st))) ∧
     is_Some (ParticleEngine.pool (ParticleEngine.engine (Loop.world st)))) ∧
  Loop.requests st' = Loop.requests st ++ [Loop.next_request st] ∧
  ParticleEngine.animationId (ParticleEngine.engine (Loop.world st'))
    = Some (Loop.next_request st) ∧
  Loop.lastTime (Loop.timing st') = currentTime.
Proof.
  cbv zeta. destruct (animate_loop cfg currentTime st) as (Hrq & _ & Hid).
  split; [|split; [done|split; [done|]]].
  - rewrite animate_run.
    destruct (ParticleEngine.ctx _) as [c|]; [destruct (ParticleEngine.pool _) as [P|]|];
      simpl; split; try done.
    + intros [_ [? [=]]].
    + intros [[? [=]] _].
  - rewrite animate_run.
    destruct (ParticleEngine.ctx _) as [c|]; [destruct (ParticleEngine.pool _) as [P|]|];
      simpl; apply timed_lastTime.
Qed.

Lemma resume_run (cfg : Config.t) (now : R) (st : Loop.Stage) :
  Loop.resume cfg now st
  = if Loop.truthy (ParticleEngine.animationId (ParticleEngine.engine (Loop.world st)))
    then (Return tt, st)
    else Loop.animate cfg None
           (Loop.set_timing (Loop.set_lastTime (Some now) (Loop.timing st)) st).
Proof.
  unfold Loop.resume, Loop.this_animationId, mbind, M_bind, gets, modify.
  by destruct (Loop.truthy _).
Qed.

Lemma start_run (cfg : Config.t) (now : R) (st : Loop.Stage) :
  Loop.start cfg now st
  = if Loop.truthy (ParticleEngine.animationId (ParticleEngine.engine (Loop.world st)))
    then (Return tt, st)
    else Loop.animate cfg None
           (Loop.set_timing (Loop.set_lastTime (Some now) (Loop.timing st)) st).
Proof.
  unfold Loop.start, Loop.this_animationId, mbind, M_bind, gets, modify.
  by destruct (Loop.truthy _).
Qed.

(** X11.  The time [resume] and [start] read from [performance.now()]
    has no effect: the frame they run at once is called without a time
    and overwrites [lastTime] with [undefined], so the engine ends in the
    same state whatever the time was, and [lastTime] is [undefined] when
    the loop was not running. *)
Theorem resume_forgets_the_time_it_reads (cfg : Config.t) (now1 now2 : R) (st : Loop.Stage) :
  Loop.resume cfg now1 st = Loop.resume cfg now2 st ∧
  Loop.start cfg now1 st = Loop.start cfg now2 st ∧
  Loop.lastTime (Loop.timing (snd (Loop.resume cfg now1 st)))
    = (if Loop.truthy (ParticleEngine.animationId (ParticleEngine.engine (Loop.world st)))
       then Loop.lastTime (Loop.timing st)
       else None).
Proof.
  assert (∀ now, Loop.animate cfg None
                   (Loop.set_timing (Loop.set_lastTime (Some now) (Loop.timing st)) st)
                 = Loop.animate cfg None
                     (Loop.set_timing (Loop.set_lastTime None (Loop.timing st)) st)) as Hsame.
  { intros now. rewrite !animate_run. reflexivity. }
  rewrite !resume_run, !start_run, !Hsame.
  split; [done|]. split; [done|].
  destruct (Loop.truthy _); [done|]. rewrite animate_run.
  destruct (ParticleEngine.ctx _) as [c|]; [destruct (ParticleEngine.pool _) as [P|]|];
    reflexivity.
Qed.

(** X10.  On an initialised engine with a well-formed pool, a frame
    returns, clears the canvas once and then paints one square for each
    particle that is live after the update of that frame: the number of
    squares painted is the [activeParticles] that [getStats] reports
    afterwards, the number of particles that survived the update; and the
    drawing leaves the state of the context as it found it (every
    transform, alpha and fill style is set between a [save] and its
    [restore]). *)
Theorem a_frame_paints_every_live_particle
    (cfg : Config.t) (currentTime : option R) (st : Loop.Stage)
    (c : ParticleEngine.Context2D) (P : ParticlePool.t) :
  ParticleEngine.ctx (ParticleEngine.engine (Loop.world st)) = Some c →
  ParticleEngine.pool (ParticleEngine.engine (Loop.world st)) = Some P →
  wf (ParticleEngine.pool_state P (Loop.world st)) →
  ∃ st' commands stats,
    Loop.animate cfg currentTime st = (Return tt, st') ∧
    Loop.canvas_calls st'
      = Loop.canvas_calls st
        ++ Canvas.clearRect 0 0 (ParticleEngine.width (ParticleEngine.engine (Loop.world st)))
                                (ParticleEngine.height (ParticleEngine.engine (Loop.world st)))
           :: commands ∧
    Canvas.scoped 0 commands = true ∧
    Loop.getStats cfg st' = (Return stats, st') ∧
    Canvas.painted commands = Loop.activeParticles stats ∧
    Loop.activeParticles stats
      = length (List.filter (survives cfg (ParticleEngine.pool_state P (Loop.world st)))
                            (ParticlePool.active P)).
Proof.
  intros Hctx HP [Hnd Hlt]. rewrite animate_run, Hctx, HP. cbv zeta.
  set (deltaTime := default 0%R _).
  apply NoDup_app in Hnd as (_ & _ & Hnd).
  destruct (update_run_swept cfg deltaTime (ParticleEngine.pool_state P (Loop.world st)) Hnd)
    as (s' & Hrun & Hact & _ & Hlen & _ & Hlive).
  rewrite Hrun. cbn [snd].
  eexists _, (Drawing.ParticlePool_draw cfg s'), _.
  split; [reflexivity|]. split.
  { rewrite timed_shape. cbn [Loop.call_canvas Loop.set_world Loop.canvas_calls].
    by rewrite <- (assoc_L (++)). }
  split; [apply draw_scoped|]. split.
  { apply (getStats_run cfg _ (ParticlePool.this s')). reflexivity. }
  cbn [Loop.activeParticles]. split; [|by rewrite Hact].
  apply draw_painted. intros r Hr.
  assert (r < length (ParticlePool.heap s')) as Halloc.
  { rewrite Hlen. apply Hlt. rewrite Hact in Hr.
    apply list_elem_of_In, List.filter_In in Hr as [Hr _]. apply list_elem_of_In in Hr.
    rewrite elem_of_app. by right. }
  destruct (lookup_lt_is_Some_2 _ _ Halloc) as [p Hp].
  exists p. split; [done|].
  rewrite Hact in Hr. apply (survivor_is_alive cfg _ r p Hr).
  rewrite <- Hp. symmetry. apply Hlive.
  apply list_elem_of_In, List.filter_In in Hr as [Hr _]. by apply list_elem_of_In.
Qed.

Lemma a_frame_paints_every_live_particle_witness :
  ∃ st' commands stats,
    Loop.animate desktop (Some 16%R) small_stage = (Return tt, st') ∧
    Loop.canvas_calls st'
      = Loop.canvas_calls small_stage
        ++ Canvas.clearRect 0 0
             (ParticleEngine.width (ParticleEngine.engine (Loop.world small_stage)))
             (ParticleEngine.height (ParticleEngine.engine (Loop.world small_stage)))
           :: commands ∧
    Canvas.scoped 0 commands = true ∧
    Loop.getStats desktop st' = (Return stats, st') ∧
    Canvas.painted commands = Loop.activeParticles stats ∧
    Loop.activeParticles stats
      = length (List.filter
                  (survives desktop (ParticleEngine.pool_state (ParticlePool.this three_live)
                                       (Loop.world small_stage)))
                  (ParticlePool.active (ParticlePool.this three_live))).
Proof.
  apply (a_frame_paints_every_live_particle desktop (Some 16%R) small_stage
           ParticleEngine.context_2d (ParticlePool.this three_live)).
  - reflexivity.
  - reflexivity.
  - exact three_live_wf.
Defined.

Section fps_facts.
Local Open Scope R_scope.
Implicit Types (st : Loop.Stage).

Lemma updateFPS_run (t : R) st :
  Loop.updateFPS (Some t) st
  = (Return tt,
     Loop.set_timing
       (if bool_decide (Loop.fpsUpdateTime (Loop.timing st) + 1000 <= t)
        then Loop.mk_timing (Loop.lastTime (Loop.timing st))
               (Math_round (INR (S (Loop.frameCount (Loop.timing st))) * 1000
                            / (t - Loop.fpsUpdateTime (Loop.timing st))))
               0 t
        else Loop.mk_timing (Loop.lastTime (Loop.timing st)) (Loop.fps (Loop.timing st))
               (S (Loop.frameCount (Loop.timing st)))
               (Loop.fpsUpdateTime (Loop.timing st)))
       st).
Proof.
  unfold Loop.updateFPS, mbind, M_bind, gets, modify, mret, M_ret. cbn -[INR].
  case_bool_decide; reflexivity.
Qed.

(** Frames short of a second after the last report are counted only. *)
Lemma counted_within (d : R) (k : nat) : ∀ (j : nat) st,
  0 < d →
  INR (j + k) * d < 1000 →
  let st' := Loop.counted (map (λ i, Loop.fpsUpdateTime (Loop.timing st) + INR i * d)
                               (seq (S j) k)) st in
  Loop.timing st'
  = Loop.mk_timing (Loop.lastTime (Loop.timing st)) (Loop.fps (Loop.timing st))
      (Loop.frameCount (Loop.timing st) + k) (Loop.fpsUpdateTime (Loop.timing st)).
Proof.
  induction k as [|k IH]; intros j st Hd Hlt; cbv zeta.
  - simpl. rewrite Nat.add_0_r. by destruct (Loop.timing st).
  - cbn [seq map Loop.counted fold_left]. rewrite updateFPS_run. cbn [snd].
    rewrite bool_decide_eq_false_2.
    2:{ assert (INR (S j) * d <= INR (j + S k) * d); [|lra].
        apply Rmult_le_compat_r; [lra|]. apply le_INR. lia. }
    pose proof (IH (S j) (Loop.set_timing
                  (Loop.mk_timing (Loop.lastTime (Loop.timing st)) (Loop.fps (Loop.timing st))
                     (S (Loop.frameCount (Loop.timing st)))
                     (Loop.fpsUpdateTime (Loop.timing st))) st) Hd) as IH'.
    cbv zeta in IH'. cbn [Loop.timing Loop.set_timing Loop.fpsUpdateTime Loop.lastTime
                          Loop.fps Loop.frameCount] in IH'.
    unfold Loop.counted in IH' |- *. rewrite IH'.
    + f_equal. lia.
    + replace (S j + k)%nat with (j + S k)%nat by lia. done.
Qed.

End fps_facts.

(** X15.  For frames that arrive every [d] milliseconds, starting at a
    report of the counter, the next report comes with the first frame
    that is a second or more after the last report, and the rate it
    reports is [1000 / d] rounded: the frames counted divided by the time
    they took, whatever the length of that window. *)
Theorem steady_frames_report_their_rate (d : R) (n : nat) (st : Loop.Stage) :
  (0 < d)%R → 0 < n →
  Loop.frameCount (Loop.timing st) = 0 →
  (INR (n - 1) * d < 1000)%R → (1000 <= INR n * d)%R →
  let t0 := Loop.fpsUpdateTime (Loop.timing st) in
  let st' := Loop.counted (map (λ i, t0 + INR i * d)%R (seq 1 n)) st in
  Loop.fps (Loop.timing st') = Math_round (1000 / d) ∧
  Loop.frameCount (Loop.timing st') = 0 ∧
  Loop.fpsUpdateTime (Loop.timing st') = (t0 + INR n * d)%R.
Proof.
  intros Hd Hn Hzero Hbefore Hafter. cbv zeta.
  destruct n as [|k]; [lia|]. clear Hn.
  replace (S k - 1) with k in Hbefore by lia.
  rewrite seq_S, map_app. unfold Loop.counted. rewrite fold_left_app.
  pose proof (counted_within d k 0 st Hd Hbefore) as Hk. cbv zeta in Hk.
  unfold Loop.counted in Hk.
  set (st1 := fold_left _ _ st) in *.
  cbn [map fold_left]. rewrite updateFPS_run. cbn [snd].
  rewrite Hk. cbn [Loop.fpsUpdateTime Loop.frameCount Loop.lastTime Loop.fps].
  rewrite Hzero. replace (1 + k)%nat with (S k) by lia.
  rewrite bool_decide_eq_true_2 by lra.
  cbn [Loop.set_timing Loop.timing Loop.fps Loop.frameCount Loop.fpsUpdateTime].
  split; [|done]. f_equal.
  replace (0 + k)%nat with k by lia.
  assert (0 < INR (S k))%R as Hpos by (apply lt_0_INR; lia).
  field. split; lra.
Qed.

Lemma steady_frames_report_their_rate_witness :
  let t0 := Loop.fpsUpdateTime (Loop.timing (new_engine None)) in
  let st' := Loop.counted (map (λ i, t0 + INR i * 500)%R (seq 1 2)) (new_engine None) in
  Loop.fps (Loop.timing st') = Math_round (1000 / 500) ∧
  Loop.frameCount (Loop.timing st') = 0 ∧
  Loop.fpsUpdateTime (Loop.timing st') = (t0 + INR 2 * 500)%R.
Proof.
  apply (steady_frames_report_their_rate 500 2 (new_engine None)).
  - lra.
  - lia.
  - reflexivity.
  - simpl. lra.
  - simpl. lra.
Defined.

Section script_facts.
Context (IS_MOBILE_DEVICE : bool) (cfg : Config.t).
Implicit Types (p : Script.Page).

(** [initParticles] when the module has an engine already. *)
Lemma initParticles_again p e :
  Script.particleEngine p = Some e → Script.initParticles cfg p = (Return e, p).
Proof. intros He. unfold Script.initParticles, mbind, M_bind, gets. by rewrite He. Qed.

(** [initParticles] when it has none: the engine is constructed and
    assigned before [init] runs on it. *)
Lemma initParticles_first p :
  Script.particleEngine p = None →
  Script.initParticles cfg p
  = (let e := length (Script.engines p) in
     let '(o, w) := ParticleEngine.init cfg
                      (ParticleEngine.mk_world (Script.ambient p) (Script.heap p)
                         (Script.host p) ParticleEngine.constructor) in
     (match o with Return _ => Return e | Throw err => Throw err end,
      Script.mk_page (ParticleEngine.ambient w) (ParticleEngine.heap w) (Script.host p)
        (Script.engines p ++ [ParticleEngine.engine w]) (Some e) (Script.listener p)
        (Script.window_particleEngine p) (Script.window_spawnParticles p))).
Proof.
  intros Hnone.
  unfold Script.initParticles, Script.new_ParticleEngine, Script.on_engine,
    mbind, M_bind, gets, modify, mret, M_ret.
  rewrite Hnone. simpl. rewrite list_lookup_middle by done.
  destruct (ParticleEngine.init cfg _) as [[b|err] w]; simpl.
  - f_equal. f_equal.
    replace (length (Script.engines p)) with (length (Script.engines p) + 0) at 1 by lia.
    by rewrite insert_app_r.
  - f_equal. f_equal.
    replace (length (Script.engines p)) with (length (Script.engines p) + 0) at 1 by lia.
    by rewrite insert_app_r.
Qed.

End script_facts.

(** X13.  [initParticles] constructs at most one engine: after a call,
    whether [init] returned or threw, the module variable holds an
    engine, and every later call returns that engine and changes
    nothing.  A call constructs an engine only when the variable was
    empty. *)
Theorem initParticles_constructs_at_most_one_engine (cfg : Config.t) (p : Script.Page) :
  let p1 := snd (Script.initParticles cfg p) in
  ∃ e, Script.particleEngine p1 = Some e ∧
       Script.initParticles cfg p1 = (Return e, p1) ∧
       length (Script.engines p1)
         = length (Script.engines p)
           + match Script.particleEngine p with Some _ => 0 | None => 1 end.
Proof.
  cbv zeta. destruct (Script.particleEngine p) as [e|] eqn:He.
  - rewrite (initParticles_again cfg p e He). exists e. simpl.
    split; [done|]. split; [by apply initParticles_again | lia].
  - rewrite (initParticles_first cfg p He). cbv zeta.
    destruct (ParticleEngine.init cfg _) as [o w]. simpl.
    exists (length (Script.engines p)).
    split; [done|]. split; [by apply initParticles_again|].
    rewrite length_app. simpl. lia.
Qed.

Lemma evaluate_loading (cfg : Config.t) (p : Script.Page) :
  Script.evaluate cfg true p
  = (Return tt,
     Script.set_window_spawnParticles true
       (Script.set_window_particleEngine (Script.particleEngine p)
          (Script.set_listener true p))).
Proof. reflexivity. Qed.

Lemma evaluate_loaded (cfg : Config.t) (p : Script.Page) :
  Script.evaluate cfg false p
  = match Script.initParticles cfg p with
    | (Return _, p1) =>
        (Return tt,
         Script.set_window_spawnParticles true
           (Script.set_window_particleEngine (Script.particleEngine p1) p1))
    | (Throw e, p1) => (Throw e, p1)
    end.
Proof.
  unfold Script.evaluate, mbind, M_bind, gets, modify, mret, M_ret.
  by destruct (Script.initParticles cfg p) as [[e|err] p1].
Qed.

Lemma DOMContentLoaded_run (cfg : Config.t) (p : Script.Page) :
  Script.DOMContentLoaded cfg p
  = if Script.listener p
    then match Script.initParticles cfg p with
         | (Return _, p1) => (Return tt, p1)
         | (Throw e, p1) => (Throw e, p1)
         end
    else (Return tt, p).
Proof.
  unfold Script.DOMContentLoaded, mbind, M_bind, gets, modify, mret, M_ret.
  destruct (Script.listener p); [|done].
  by destruct (Script.initParticles cfg p) as [[e|err] p1].
Qed.

(** X12.  [window.particleEngine] is assigned once, when the script is
    evaluated.  If that is while the document is loading, [initParticles]
    runs later, on [DOMContentLoaded]: the engine is then constructed and
    initialised, but [window.particleEngine] stays [undefined], so the
    particle effects of the piano ([if (window.particleEngine) ...]) do
    nothing at all, while [window.spawnParticles] reaches the engine.
    Evaluated after loading, the script exports the engine. *)
Theorem a_script_evaluated_while_loading_exports_no_engine
    (IS_MOBILE_DEVICE : bool) (cfg : Config.t)
    (a : Ambient) (h : list Particle.t) (ho : ParticleEngine.Host)
    (c : ParticleEngine.Context2D) :
  ParticleEngine.getContext_2d ho = Some c →
  (∃ p eng,
     (Script.evaluate cfg true ;; Script.DOMContentLoaded cfg) (Script.before a h ho)
       = (Return tt, p) ∧
     Script.particleEngine p = Some 0 ∧
     Script.engines p = [eng] ∧
     ParticleEngine.pool eng
       = Some (ParticlePool.mk (seq (length h) (Config.poolSize cfg)) []) ∧
     Script.window_particleEngine p = None ∧
     (∀ x y count color size lifetime,
        Script.piano_key_particles IS_MOBILE_DEVICE cfg x y count color size lifetime p
        = (Return tt, p)) ∧
     (∀ centerX centerY,
        Script.piano_unlock_particles IS_MOBILE_DEVICE cfg centerX centerY p = (Return tt, p)) ∧
     (∀ x y count options,
        Script.spawnParticles IS_MOBILE_DEVICE cfg x y count options p
        = Script.on_engine 0 (ParticleEngine.spawnBurst IS_MOBILE_DEVICE cfg x y count options) p))
  ∧
  (∃ p, Script.evaluate cfg false (Script.before a h ho) = (Return tt, p) ∧
        Script.particleEngine p = Some 0 ∧
        Script.window_particleEngine p = Some 0).
Proof.
  intros Hctx.
  destruct (init_with_context cfg
              (ParticleEngine.mk_world a h ho ParticleEngine.constructor) c Hctx)
    as (w & Hinit & Hpool & _).
  split.
  - exists (Script.mk_page (ParticleEngine.ambient w) (ParticleEngine.heap w) ho
              [ParticleEngine.engine w] (Some 0) true None true), (ParticleEngine.engine w).
    split.
    { rewrite (bind_return _ _ _ _ _ (evaluate_loading cfg _)).
      rewrite DOMContentLoaded_run. simpl.
      rewrite initParticles_first by done. cbv zeta. simpl. by rewrite Hinit. }
    split; [done|]. split; [done|]. split; [done|]. split; [done|].
    split; [done|]. split; [done|]. done.
  - exists (Script.mk_page (ParticleEngine.ambient w) (ParticleEngine.heap w) ho
              [ParticleEngine.engine w] (Some 0) false (Some 0) true).
    split; [|done].
    rewrite evaluate_loaded, initParticles_first by done. cbv zeta. simpl. by rewrite Hinit.
Qed.

Lemma a_script_evaluated_while_loading_exports_no_engine_witness :
  (∃ p eng,
     (Script.evaluate desktop true ;; Script.DOMContentLoaded desktop)
       (Script.before still_ambient []
          (ParticleEngine.host (page (Some ParticleEngine.context_2d))))
       = (Return tt, p) ∧
     Script.particleEngine p = Some 0 ∧
     Script.engines p = [eng] ∧
     ParticleEngine.pool eng
       = Some (ParticlePool.mk (seq (length (@nil Particle.t)) (Config.poolSize desktop)) []) ∧
     Script.window_particleEngine p = None ∧
     (∀ x y count color size lifetime,
        Script.piano_key_particles false desktop x y count color size lifetime p
        = (Return tt, p)) ∧
     (∀ centerX centerY,
        Script.piano_unlock_particles false desktop centerX centerY p = (Return tt, p)) ∧
     (∀ x y count options,
        Script.spawnParticles false desktop x y count options p
        = Script.on_engine 0 (ParticleEngine.spawnBurst false desktop x y count options) p))
  ∧
  (∃ p, Script.evaluate desktop false
          (Script.before still_ambient []
             (ParticleEngine.host (page (Some ParticleEngine.context_2d))))
        = (Return tt, p) ∧
        Script.particleEngine p = Some 0 ∧
        Script.window_particleEngine p = Some 0).
Proof.
  apply (a_script_evaluated_while_loading_exports_no_engine false desktop still_ambient []
           (ParticleEngine.host (page (Some ParticleEngine.context_2d)))
           ParticleEngine.context_2d).
  reflexivity.
Defined.

(** X14.  When the canvas has no 2D context, [initParticles] throws, but
    the module variable already holds the new engine, whose pool is
    still [null]: a later [initParticles] returns that engine without
    initialising it, the script (evaluated after loading) stops at the
    exception before it exports anything, and a call of
    [spawnParticles] on that engine throws a TypeError. *)
Theorem a_failed_init_is_never_retried
    (IS_MOBILE_DEVICE : bool) (cfg : Config.t) (p : Script.Page) :
  Script.particleEngine p = None →
  ParticleEngine.getContext_2d (Script.host p) = None →
  ∃ p1 eng,
    Script.initParticles cfg p = (Throw (TypeError "Cannot read properties of null"), p1) ∧
    Script.particleEngine p1 = Some (length (Script.engines p)) ∧
    Script.engines p1 !! length (Script.engines p) = Some eng ∧
    ParticleEngine.pool eng = None ∧
    Script.initParticles cfg p1 = (Return (length (Script.engines p)), p1) ∧
    Script.window_spawnParticles p1 = Script.window_spawnParticles p ∧
    fst (Script.evaluate cfg false p) = Throw (TypeError "Cannot read properties of null") ∧
    snd (Script.evaluate cfg false p) = p1 ∧
    ∀ x y count options,
      fst (Script.spawnParticles IS_MOBILE_DEVICE cfg x y count options
             (Script.set_window_spawnParticles true p1))
      = Throw (TypeError "Cannot read properties of null").
Proof.
  intros Hnone Hctx.
  destruct (init_without_context cfg
              (ParticleEngine.mk_world (Script.ambient p) (Script.heap p) (Script.host p)
                 ParticleEngine.constructor) Hctx)
    as (w & Hinit & Hpool & _).
  pose proof (initParticles_first cfg p Hnone) as Hfirst. cbv zeta in Hfirst.
  rewrite Hinit in Hfirst.
  eexists _, (ParticleEngine.engine w). split; [exact Hfirst|].
  split; [done|]. split; [by apply list_lookup_middle|]. split; [done|].
  split; [by apply initParticles_again|]. split; [done|]. split; [|split].
  - by rewrite evaluate_loaded, Hfirst.
  - by rewrite evaluate_loaded, Hfirst.
  - intros x y count options.
    unfold Script.spawnParticles, Script.on_engine, mbind, M_bind, gets. simpl.
    rewrite list_lookup_middle by done.
    pose proof (call_null IS_MOBILE_DEVICE cfg (Burst x y count options)
                  (ParticleEngine.mk_world (ParticleEngine.ambient w) (ParticleEngine.heap w)
                     (Script.host p) (ParticleEngine.engine w)) Hpool) as Hcall.
    simpl in Hcall. by rewrite Hcall.
Qed.

Lemma a_failed_init_is_never_retried_witness :
  ∃ p1 eng,
    Script.initParticles desktop (Script.before still_ambient [] (ParticleEngine.host (page None)))
      = (Throw (TypeError "Cannot read properties of null"), p1) ∧
    Script.particleEngine p1
      = Some (length (Script.engines
                        (Script.before still_ambient [] (ParticleEngine.host (page None))))) ∧
    Script.engines p1
      !! length (Script.engines
                   (Script.before still_ambient [] (ParticleEngine.host (page None))))
      = Some eng ∧
    ParticleEngine.pool eng = None ∧
    Script.initParticles desktop p1
      = (Return (length (Script.engines
                           (Script.before still_ambient [] (ParticleEngine.host (page None))))),
         p1) ∧
    Script.window_spawnParticles p1
      = Script.window_spawnParticles
          (Script.before still_ambient [] (ParticleEngine.host (page None))) ∧
    fst (Script.evaluate desktop false
           (Script.before still_ambient [] (ParticleEngine.host (page None))))
      = Throw (TypeError "Cannot read properties of null") ∧
    snd (Script.evaluate desktop false
           (Script.before still_ambient [] (ParticleEngine.host (page None)))) = p1 ∧
    ∀ x y count options,
      fst (Script.spawnParticles false desktop x y count options
             (Script.set_window_spawnParticles true p1))
      = Throw (TypeError "Cannot read properties of null").
Proof.
  apply (a_failed_init_is_never_retried false desktop
           (Script.before still_ambient [] (ParticleEngine.host (page None)))).
  - reflexivity.
  - reflexivity.
Defined.

(** * The message form *)

(** ** Patterns *)

Lemma nullable_lang (r : RegExp.t) : RegExp.nullable r = true ↔ RegExp.lang r [].
Proof.
  split.
  - induction r as [| |p|r1 IH1 r2 IH2|r1 IH1 r2 IH2|r IH]; simpl; intros Hn; try done.
    + constructor.
    + apply andb_true_iff in Hn as [H1 H2].
      apply (RegExp.lang_cat r1 r2 [] []); auto.
    + apply orb_true_iff in Hn as [H|H]; [apply RegExp.lang_alt_l | apply RegExp.lang_alt_r]; auto.
    + constructor.
  - remember [] as s eqn:Hs. intros Hl.
    induction Hl as [|p c Hp|r1 r2 s1 s2 _ IH1 _ IH2|r1 r2 s _ IH|r1 r2 s _ IH|r|r s1 s2 _ _ _ _];
      simpl; try done.
    + apply app_eq_nil in Hs as [-> ->]. by rewrite IH1, IH2.
    + by rewrite IH.
    + rewrite IH by done. apply orb_true_r.
Qed.

Lemma deriv_lang (r : RegExp.t) (c : N) : ∀ s, RegExp.lang (RegExp.deriv c r) s ↔ RegExp.lang r (c :: s).
Proof.
  intros s. split.
  - revert s. induction r as [| |p|r1 IH1 r2 IH2|r1 IH1 r2 IH2|r IH]; simpl; intros s Hl.
    + inversion Hl.
    + inversion Hl.
    + destruct (p c) eqn:Hp; inversion Hl; subst. by constructor.
    + destruct (RegExp.nullable r1) eqn:Hn.
      * inversion Hl as [| | |? ? ? Hc|? ? ? Hd| |]; subst.
        -- inversion Hc as [| |? ? s1 s2 H1 H2| | | |]; subst.
           apply (RegExp.lang_cat r1 r2 (c :: s1) s2); auto.
        -- apply (RegExp.lang_cat r1 r2 [] (c :: s)); [by apply nullable_lang | auto].
      * inversion Hl as [| |? ? s1 s2 H1 H2| | | |]; subst.
        apply (RegExp.lang_cat r1 r2 (c :: s1) s2); auto.
    + inversion Hl; subst; [apply RegExp.lang_alt_l | apply RegExp.lang_alt_r]; auto.
    + inversion Hl as [| |? ? s1 s2 H1 H2| | | |]; subst.
      apply (RegExp.lang_star_cons r (c :: s1) s2); auto.
  - remember (c :: s) as w eqn:Hw. intros Hl. revert s Hw.
    induction Hl as [|p d Hp|r1 r2 s1 s2 H1 IH1 H2 IH2|r1 r2 w H IH|r1 r2 w H IH|r
                     |r s1 s2 H1 IH1 H2 IH2]; intros s Hw; simpl.
    + done.
    + injection Hw as -> <-. rewrite Hp. constructor.
    + destruct s1 as [|d s1]; simpl in Hw.
      * subst s2. apply nullable_lang in H1. rewrite H1.
        apply RegExp.lang_alt_r. by apply IH2.
      * injection Hw as -> <-.
        assert (RegExp.lang (RegExp.Cat (RegExp.deriv c r1) r2) (s1 ++ s2)) as Hcat
          by (constructor; [by apply IH1 | done]).
        destruct (RegExp.nullable r1); [by apply RegExp.lang_alt_l | done].
    + apply RegExp.lang_alt_l. by apply IH.
    + apply RegExp.lang_alt_r. by apply IH.
    + done.
    + destruct s1 as [|d s1]; simpl in Hw.
      * by apply IH2.
      * injection Hw as -> <-. constructor; [by apply IH1 | done].
Qed.

(** The matcher decides the language of the pattern. *)
Lemma test_lang (s : Str.t) : ∀ r, RegExp.test r s = true ↔ RegExp.lang r s.
Proof.
  induction s as [|c s IH]; intros r; simpl.
  - apply nullable_lang.
  - rewrite IH. apply deriv_lang.
Qed.

Lemma lang_class (p : N → bool) (s : Str.t) :
  RegExp.lang (RegExp.Class p) s ↔ ∃ c, s = [c] ∧ p c = true.
Proof.
  split.
  - intros Hl. inversion Hl; subst. by eexists.
  - intros (c & -> & Hp). by constructor.
Qed.

Lemma lang_star_class (p : N → bool) (s : Str.t) :
  RegExp.lang (RegExp.Star (RegExp.Class p)) s ↔ Forall (λ c, p c = true) s.
Proof.
  split.
  - remember (RegExp.Star (RegExp.Class p)) as r eqn:Hr. intros Hl.
    induction Hl as [| | | | | |r0 s1 s2 H1 _ H2 IH2]; try done.
    injection Hr as ->. apply Forall_app. split; [|by apply IH2].
    apply lang_class in H1 as (c & -> & Hp). by constructor.
  - induction 1 as [|c s Hp _ IH]; [constructor|].
    apply (RegExp.lang_star_cons _ [c] s); [by constructor | done].
Qed.

Lemma lang_plus_class (p : N → bool) (s : Str.t) :
  RegExp.lang (RegExp.Plus (RegExp.Class p)) s ↔ s ≠ [] ∧ Forall (λ c, p c = true) s.
Proof.
  unfold RegExp.Plus. split.
  - intros Hl. inversion Hl as [| |? ? s1 s2 H1 H2| | | |]; subst.
    apply lang_class in H1 as (c & -> & Hp). apply lang_star_class in H2.
    split; [done|]. by constructor.
  - intros [Hne Hall]. destruct s as [|c s]; [done|].
    apply Forall_cons in Hall as [Hp Hall].
    apply (RegExp.lang_cat _ _ [c] s); [by constructor | by apply lang_star_class].
Qed.

(** The addresses the pattern of [validateEmail] accepts. *)
Lemma email_regex_lang (s : Str.t) :
  RegExp.test email_regex s = true
  ↔ ∃ A B C, s = A ++ [0x40%N] ++ B ++ [0x2E%N] ++ C ∧
             A ≠ [] ∧ B ≠ [] ∧ C ≠ [] ∧
             Forall (λ c, email_class c = true) (A ++ B ++ C).
Proof.
  rewrite test_lang. unfold email_regex. split.
  - intros Hl.
    inversion Hl as [| |? ? A s1 HA H1| | | |]; subst.
    inversion H1 as [| |? ? at_ s2 Hat H2| | | |]; subst.
    inversion H2 as [| |? ? B s3 HB H3| | | |]; subst.
    inversion H3 as [| |? ? dot C Hdot HC| | | |]; subst.
    apply lang_plus_class in HA as [HA HAall], HB as [HB HBall], HC as [HC HCall].
    apply lang_class in Hat as (c1 & -> & ->%N.eqb_eq), Hdot as (c2 & -> & ->%N.eqb_eq).
    exists A, B, C. split; [done|]. split; [done|]. split; [done|]. split; [done|].
    rewrite !Forall_app. done.
  - intros (A & B & C & -> & HA & HB & HC & Hall).
    rewrite !Forall_app in Hall. destruct Hall as (HAall & HBall & HCall).
    apply RegExp.lang_cat; [by apply lang_plus_class|].
    apply (RegExp.lang_cat _ _ [_]); [by constructor|].
    apply RegExp.lang_cat; [by apply lang_plus_class|].
    apply (RegExp.lang_cat _ _ [_]); [by constructor|].
    by apply lang_plus_class.
Qed.

(** ** Strings *)

Lemma trimStart_split (s : Str.t) :
  ∃ pre, s = pre ++ Str.trimStart s ∧ Forall (λ c, Str.is_white_space c = true) pre.
Proof.
  induction s as [|c s (pre & Hs & Hpre)]; [by exists []|].
  simpl. destruct (Str.is_white_space c) eqn:Hc.
  - exists (c :: pre). split; [simpl; by rewrite <- Hs | by constructor].
  - by exists [].
Qed.

Lemma trimStart_head (s : Str.t) :
  match Str.trimStart s with
  | c :: _ => Str.is_white_space c = false
  | [] => True
  end.
Proof.
  induction s as [|c s IH]; [done|]. simpl.
  destruct (Str.is_white_space c) eqn:Hc; [done|]. simpl. done.
Qed.

Lemma trimStart_id (s : Str.t) :
  match s with c :: _ => Str.is_white_space c = false | [] => True end →
  Str.trimStart s = s.
Proof. destruct s as [|c s]; [done|]. simpl. by intros ->. Qed.

Lemma trimStart_snoc (s : Str.t) (c : N) :
  Str.is_white_space c = false → Str.trimStart (s ++ [c]) = Str.trimStart s ++ [c].
Proof.
  intros Hc. induction s as [|d s IH]; simpl; [by rewrite Hc|].
  by destruct (Str.is_white_space d).
Qed.

Lemma trimEnd_split (s : Str.t) :
  ∃ post, s = Str.trimEnd s ++ post ∧ Forall (λ c, Str.is_white_space c = true) post.
Proof.
  unfold Str.trimEnd. destruct (trimStart_split (rev s)) as (pre & Hs & Hpre).
  exists (rev pre). split.
  - rewrite <- rev_app_distr, <- Hs. by rewrite rev_involutive.
  - by apply Forall_rev.
Qed.

(** A string that starts with a character that is no white space does
    so after [trimEnd]. *)
Lemma trimEnd_cons (c : N) (s : Str.t) :
  Str.is_white_space c = false → ∃ s', Str.trimEnd (c :: s) = c :: s'.
Proof.
  intros Hc. unfold Str.trimEnd. simpl. rewrite trimStart_snoc by done.
  rewrite rev_app_distr. simpl. by eexists.
Qed.

Lemma trimEnd_last (s : Str.t) :
  match rev (Str.trimEnd s) with
  | c :: _ => Str.is_white_space c = false
  | [] => True
  end.
Proof. unfold Str.trimEnd. rewrite rev_involutive. apply trimStart_head. Qed.

(** [trim] takes white space off both ends, and only that. *)
Lemma trim_split (s : Str.t) :
  ∃ pre post, s = pre ++ Str.trim s ++ post ∧
              Forall (λ c, Str.is_white_space c = true) pre ∧
              Forall (λ c, Str.is_white_space c = true) post.
Proof.
  destruct (trimStart_split s) as (pre & Hs & Hpre).
  destruct (trimEnd_split (Str.trimStart s)) as (post & Ht & Hpost).
  exists pre, post. unfold Str.trim. by rewrite <- Ht.
Qed.

Lemma trim_length (s : Str.t) : length (Str.trim s) ≤ length s.
Proof.
  destruct (trim_split s) as (pre & post & Hs & _).
  rewrite Hs at 2. rewrite !length_app. lia.
Qed.

Lemma trim_idempotent (s : Str.t) : Str.trim (Str.trim s) = Str.trim s.
Proof.
  unfold Str.trim.
  assert (Str.trimStart (Str.trimEnd (Str.trimStart s)) = Str.trimEnd (Str.trimStart s)) as ->.
  { apply trimStart_id. pose proof (trimStart_head s) as Hh.
    destruct (Str.trimStart s) as [|c t]; [done|].
    by destruct (trimEnd_cons c t Hh) as [s' ->]. }
  unfold Str.trimEnd at 1. rewrite trimStart_id by apply trimEnd_last.
  apply rev_involutive.
Qed.

(** ** The pattern of repeated characters *)

Lemma run_of_replicate (c : N) (n : nat) (s : Str.t) :
  n ≤ run_of c s ↔ ∃ post, s = replicate n c ++ post.
Proof.
  revert s. induction n as [|n IH]; intros s.
  - split; [by exists s | lia].
  - destruct s as [|d s]; simpl.
    + split; [lia | by intros [post ?]].
    + destruct (N.eqb_spec d c) as [->|Hne].
      * rewrite <- Nat.succ_le_mono, IH. split; intros [post Hs]; exists post; congruence.
      * split; [lia | intros [post [= ? _]]; done].
Qed.

(** [spam_test] finds a run of eleven equal code units that are no line
    terminators. *)
Lemma spam_test_run (s : Str.t) :
  spam_test s = true
  ↔ ∃ pre c post, s = pre ++ replicate 11 c ++ post ∧ Str.is_line_terminator c = false.
Proof.
  induction s as [|d s IH]; cbn [spam_test].
  - split; [done|]. intros (pre & c & post & Hs & _). by destruct pre.
  - rewrite orb_true_iff, andb_true_iff, negb_true_iff, IH, Nat.leb_le, run_of_replicate.
    split.
    + intros [[Hd [post Hs]] | (pre & c & post & Hs & Hc)].
      * exists [], d, post. by rewrite Hs.
      * exists (d :: pre), c, post. by rewrite Hs.
    + intros (pre & c & post & Hs & Hc). destruct pre as [|d' pre].
      * left. injection Hs as -> Hs. split; [done|]. by exists post.
      * right. injection Hs as -> Hs. by exists pre, c, post.
Qed.

Lemma spam_test_infix (pre s post : Str.t) :
  spam_test (pre ++ s ++ post) = false → spam_test s = false.
Proof.
  intros Hwhole. apply not_true_is_false. intros Hs. apply spam_test_run in Hs
    as (p & c & q & -> & Hc).
  apply not_true_iff_false in Hwhole. apply Hwhole, spam_test_run.
  exists (pre ++ p), c, (q ++ post). by rewrite <- !(assoc_L (++)).
Qed.

Section validator_facts.
Context (cfg : MessageConfig.t).
Implicit Types (e : FormValidator.errors).

Lemma validateMessage_run (message : Str.t) e :
  FormValidator.validateMessage cfg message e
  = if bool_decide (length (Str.trim message) = 0)
    then (Return false, FormValidator.mk_errors (Some FormValidator.Blank) None None)
    else if bool_decide (length (Str.trim message) < MessageConfig.minChars cfg)
    then (Return false, FormValidator.mk_errors (Some FormValidator.TooShort) None None)
    else if bool_decide (MessageConfig.maxChars cfg < length message)
    then (Return false, FormValidator.mk_errors (Some FormValidator.TooLong) None None)
    else if spam_test message
    then (Return false, FormValidator.mk_errors (Some FormValidator.Repeats) None None)
    else (Return true, FormValidator.no_errors).
Proof.
  unfold FormValidator.validateMessage, mbind, M_bind, modify, mret, M_ret.
  repeat case_bool_decide; try reflexivity. by destruct (spam_test message).
Qed.

Lemma validateEmail_run (email : Str.t) e :
  FormValidator.validateEmail email e
  = if bool_decide (email = []) then (Return true, e)
    else if RegExp.test email_regex email then (Return true, e)
    else (Return false,
          FormValidator.mk_errors (FormValidator.e_message e) (Some FormValidator.BadEmail)
                                  (FormValidator.e_name e)).
Proof.
  unfold FormValidator.validateEmail, mbind, M_bind, modify, mret, M_ret.
  case_bool_decide; [done|]. by destruct (RegExp.test _ _).
Qed.

Lemma validateName_run (name : Str.t) e :
  FormValidator.validateName name e
  = if bool_decide (name = []) then (Return true, e)
    else if bool_decide (length (Str.trim name) < 2)
    then (Return false,
          FormValidator.mk_errors (FormValidator.e_message e) (FormValidator.e_email e)
                                  (Some FormValidator.ShortName))
    else (Return true, e).
Proof.
  unfold FormValidator.validateName, mbind, M_bind, modify, mret, M_ret.
  by repeat case_bool_decide.
Qed.

End validator_facts.

Lemma acceptable_message_decided (cfg : MessageConfig.t) (m : Str.t) :
  acceptable_message cfg m
  ↔ bool_decide (length (Str.trim m) = 0) = false ∧
    bool_decide (length (Str.trim m) < MessageConfig.minChars cfg) = false ∧
    bool_decide (MessageConfig.maxChars cfg < length m) = false ∧
    spam_test m = false.
Proof.
  unfold acceptable_message, has_run.
  rewrite !bool_decide_eq_false, <- not_true_iff_false, spam_test_run. intuition lia.
Qed.

(** X16. [FormValidator.validateMessage] always returns, and answers
    [true] exactly for the messages that, trimmed, are not empty and
    have [minChars] code units or more, that untrimmed have [maxChars]
    code units or fewer, and in which no code unit other than a line
    terminator stands eleven times in a row.  [errors.message] is set
    exactly when the answer is [false], and the errors of the other
    fields are cleared. *)
Theorem validateMessage_accepts_the_acceptable
    (cfg : MessageConfig.t) (message : Str.t) (e : FormValidator.errors) :
  ∃ b e', FormValidator.validateMessage cfg message e = (Return b, e') ∧
          (b = true ↔ acceptable_message cfg message) ∧
          (b = true ↔ FormValidator.e_message e' = None) ∧
          FormValidator.e_email e' = None ∧
          FormValidator.e_name e' = None.
Proof.
  rewrite validateMessage_run.
  pose proof (acceptable_message_decided cfg message) as Hacc.
  destruct (bool_decide (length (Str.trim message) = 0));
    [|destruct (bool_decide (length (Str.trim message) < MessageConfig.minChars cfg));
      [|destruct (bool_decide (MessageConfig.maxChars cfg < length message));
        [|destruct (spam_test message)]]];
    eexists _, _; (split; [reflexivity|]); simpl; intuition congruence.
Qed.

Lemma acceptable_email_decided (email : Str.t) :
  acceptable_email email
  ↔ bool_decide (email = []) = true ∨ RegExp.test email_regex email = true.
Proof. unfold acceptable_email. by rewrite bool_decide_eq_true, email_regex_lang. Qed.

Lemma acceptable_name_decided (name : Str.t) :
  acceptable_name name
  ↔ bool_decide (name = []) = true ∨ bool_decide (length (Str.trim name) < 2) = false.
Proof.
  unfold acceptable_name. rewrite bool_decide_eq_true, bool_decide_eq_false. intuition lia.
Qed.

(** X17. [FormValidator.validateEmail] always returns, and answers
    [true] exactly for the empty string and for the strings
    [local@domain.tld] whose three parts are not empty and hold neither
    white space nor [@] (the domain may hold further dots).  A rejected
    address sets [errors.email] and nothing else; an accepted one leaves
    [errors] as it finds it, an earlier entry for the email included. *)
Theorem validateEmail_accepts_the_acceptable (email : Str.t) (e : FormValidator.errors) :
  ∃ b e', FormValidator.validateEmail email e = (Return b, e') ∧
          (b = true ↔ acceptable_email email) ∧
          e' = (if b then e
                else FormValidator.mk_errors (FormValidator.e_message e)
                       (Some FormValidator.BadEmail) (FormValidator.e_name e)).
Proof.
  rewrite validateEmail_run.
  pose proof (acceptable_email_decided email) as Hacc. revert Hacc.
  destruct (bool_decide (email = [])); [|destruct (RegExp.test email_regex email)];
    eexists _, _; (split; [reflexivity|]); (split; [|done]); intuition congruence.
Qed.

Lemma validate_run (cfg : MessageConfig.t) (message name email : Str.t)
    (e : FormValidator.errors) :
  FormValidator.validate cfg message name email e
  = (let r1 := FormValidator.validateMessage cfg message FormValidator.no_errors in
     let r2 := FormValidator.validateEmail email (snd r1) in
     let r3 := FormValidator.validateName name (snd r2) in
     match fst r1, fst r2, fst r3 with
     | Return b1, Return b2, Return b3 => (Return (b1 && b2 && b3), snd r3)
     | Throw x, _, _ => (Throw x, snd r1)
     | _, Throw x, _ => (Throw x, snd r2)
     | _, _, Throw x => (Throw x, snd r3)
     end).
Proof.
  unfold FormValidator.validate, mbind, M_bind, modify, mret, M_ret. cbv zeta.
  destruct (FormValidator.validateMessage cfg message FormValidator.no_errors) as [[b1|x1] e1];
    [|reflexivity].
  cbn [fst snd].
  destruct (FormValidator.validateEmail email e1) as [[b2|x2] e2]; [|reflexivity].
  cbn [fst snd].
  destruct (FormValidator.validateName name e2) as [[b3|x3] e3]; reflexivity.
Qed.

(** X18. [FormValidator.validate] always returns, whatever [errors]
    held before: afterwards [errors] has an entry for the message, the
    email and the name exactly when that field is not acceptable, and
    the answer is [true] exactly when [errors] is empty, which is when
    all three fields are acceptable. *)
Theorem validate_reports_the_fields_it_rejects
    (cfg : MessageConfig.t) (message name email : Str.t) (e : FormValidator.errors) :
  ∃ b e', FormValidator.validate cfg message name email e = (Return b, e') ∧
          (FormValidator.e_message e' = None ↔ acceptable_message cfg message) ∧
          (FormValidator.e_email e' = None ↔ acceptable_email email) ∧
          (FormValidator.e_name e' = None ↔ acceptable_name name) ∧
          (b = true ↔ e' = FormValidator.no_errors) ∧
          (b = true ↔ acceptable_message cfg message ∧ acceptable_email email
                      ∧ acceptable_name name).
Proof.
  rewrite validate_run. cbv zeta. rewrite validateMessage_run.
  pose proof (acceptable_message_decided cfg message) as Hm.
  pose proof (acceptable_email_decided email) as He.
  pose proof (acceptable_name_decided name) as Hn.
  revert Hm He Hn.
  destruct (bool_decide (length (Str.trim message) = 0));
    [|destruct (bool_decide (length (Str.trim message) < MessageConfig.minChars cfg));
      [|destruct (bool_decide (MessageConfig.maxChars cfg < length message));
        [|destruct (spam_test message)]]];
    rewrite validateEmail_run;
    (destruct (bool_decide (email = [])); [|destruct (RegExp.test email_regex email)]);
    rewrite validateName_run;
    (destruct (bool_decide (name = [])); [|destruct (bool_decide (length (Str.trim name) < 2))]);
    eexists _, _; (split; [reflexivity|]); simpl;
    unfold FormValidator.no_errors; intuition congruence.
Qed.

Section form_facts.
Context (cfg : MessageConfig.t) (JSON_stringify : MessageForm.FormData → string).
Implicit Types (f : MessageForm.t).

(** [validate] returns, and what it accepts has an acceptable message. *)
Lemma validate_returns (message name email : Str.t) (e : FormValidator.errors) :
  ∃ b e', FormValidator.validate cfg message name email e = (Return b, e') ∧
          (b = true → acceptable_message cfg message).
Proof.
  rewrite validate_run. cbv zeta. rewrite validateMessage_run.
  pose proof (acceptable_message_decided cfg message) as Hm. revert Hm.
  destruct (bool_decide (length (Str.trim message) = 0));
    [|destruct (bool_decide (length (Str.trim message) < MessageConfig.minChars cfg));
      [|destruct (bool_decide (MessageConfig.maxChars cfg < length message));
        [|destruct (spam_test message)]]];
    rewrite validateEmail_run;
    (destruct (bool_decide (email = [])); [|destruct (RegExp.test email_regex email)]);
    rewrite validateName_run;
    (destruct (bool_decide (name = [])); [|destruct (bool_decide (length (Str.trim name) < 2))]);
    eexists _, _; (split; [reflexivity|]); simpl; intuition congruence.
Qed.

Lemma form_validateMessage_run f :
  ∃ b e, FormValidator.validate cfg (MessageForm.messageInput f)
           (default [] (MessageForm.nameInput f)) (default [] (MessageForm.emailInput f))
           (MessageForm.validator f) = (Return b, e) ∧
         (b = true → acceptable_message cfg (MessageForm.messageInput f)) ∧
         MessageForm.validateMessage cfg f = (Return tt, validated b e f).
Proof.
  destruct (validate_returns (MessageForm.messageInput f)
              (default [] (MessageForm.nameInput f)) (default [] (MessageForm.emailInput f))
              (MessageForm.validator f)) as (b & e & Hv & Hb).
  exists b, e. split; [done|]. split; [done|].
  unfold MessageForm.validateMessage, MessageForm.setState, MessageForm.updateSubmitButton,
    validated, mbind, M_bind, gets, modify, zoom, mret, M_ret.
  rewrite Hv. simpl. by destruct (MessageForm.submitBtn f).
Qed.

Lemma submitForm_run f :
  MessageForm.submitForm cfg JSON_stringify f
  = if MessageForm.isSubmitted f then (Return MessageForm.Ignored, f)
    else if FormStateManager.isValid (FormStateManager.state_of (MessageForm.stateManager f))
    then (Return (MessageForm.Submitted (form_data f)), submitted cfg JSON_stringify f)
    else (Return MessageForm.Rejected, MessageForm.alert f).
Proof.
  unfold MessageForm.submitForm, MessageForm.setState, MessageForm.disableForm,
    MessageForm.saveToStorage, submitted, form_data,
    mbind, M_bind, gets, modify, mret, M_ret.
  destruct (MessageForm.isSubmitted f); [done|]. simpl.
  destruct (FormStateManager.isValid _); [|done]. simpl.
  destruct (MessageForm.submitBtn f); simpl;
    destruct (MessageForm.storage_full f); simpl;
    destruct (MessageConfig.enableEmailSending cfg); reflexivity.
Qed.

End form_facts.

Lemma setItem_elem_of (k v : string) (st : Storage.t) (kv : string * string) :
  kv ∈ Storage.setItem k v st → kv = (k, v) ∨ kv ∈ st.
Proof.
  induction st as [|[k' v'] st IH]; simpl.
  - intros ->%list_elem_of_singleton. by left.
  - destruct (String.eqb k' k).
    + intros [->|H]%elem_of_cons; [by left | right; by right].
    + intros [->|H]%elem_of_cons; [right; by left|].
      destruct (IH H) as [->|?]; [by left | right; by right].
Qed.

Section form_invariants.
Context (cfg : MessageConfig.t) (JSON_stringify : MessageForm.FormData → string).
Implicit Types (f : MessageForm.t).

Lemma adds_nothing f f' :
  MessageForm.mail f' = MessageForm.mail f →
  MessageForm.localStorage f' = MessageForm.localStorage f →
  adds_well_formed cfg JSON_stringify f f'.
Proof. intros Hm Hs. unfold adds_well_formed. rewrite Hm, Hs. split; auto. Qed.

Lemma adds_trans f1 f2 f3 :
  adds_well_formed cfg JSON_stringify f1 f2 → adds_well_formed cfg JSON_stringify f2 f3 → adds_well_formed cfg JSON_stringify f1 f3.
Proof.
  intros [Hm12 Hs12] [Hm23 Hs23]. split.
  - intros d Hd. destruct (Hm23 d Hd) as [?|?]; auto.
  - intros k v Hkv. destruct (Hs23 k v Hkv) as [?|?]; auto.
Qed.

Lemma has_run_trim (m : Str.t) : has_run (Str.trim m) → has_run m.
Proof.
  intros (p & c & q & Hm & Hc). destruct (trim_split m) as (pre & post & Hs & _).
  exists (pre ++ p), c, (q ++ post). split; [|done].
  rewrite Hs at 1. rewrite Hm. by rewrite <- !(assoc_L (++)).
Qed.

Lemma form_data_well_formed f :
  acceptable_message cfg
    (FormStateManager.message (FormStateManager.state_of (MessageForm.stateManager f))) →
  well_formed_data cfg (form_data f).
Proof.
  intros (Hpos & Hmin & Hmax & Hrun). unfold well_formed_data, form_data.
  cbn [MessageForm.fd_message MessageForm.fd_name].
  split; [done|]. split; [done|]. split; [|split; [|split]].
  - etrans; [apply trim_length | done].
  - apply trim_idempotent.
  - intros H. by apply Hrun, has_run_trim.
  - unfold MessageForm.or_string. by destruct (Str.trim (FormStateManager.name _)).
Qed.

Lemma validated_fields b e f :
  MessageForm.stateManager (validated b e f)
  = FormStateManager.setState (MessageForm.now f)
      (FormStateManager.mk_updates
         (Some (MessageForm.messageInput f))
         (Some (default [] (MessageForm.nameInput f)))
         (Some (default [] (MessageForm.emailInput f)))
         (Some b) None None None)
      (MessageForm.stateManager f) ∧
  MessageForm.mail (validated b e f) = MessageForm.mail f ∧
  MessageForm.localStorage (validated b e f) = MessageForm.localStorage f ∧
  MessageForm.isSubmitted (validated b e f) = MessageForm.isSubmitted f ∧
  MessageForm.fields_disabled (validated b e f) = MessageForm.fields_disabled f ∧
  MessageForm.submitBtn (validated b e f)
  = (λ _, negb b || FormStateManager.isSubmitting
                      (FormStateManager.state_of (MessageForm.stateManager f)))
    <$> MessageForm.submitBtn f.
Proof.
  unfold validated. destruct (MessageForm.submitBtn f) eqn:Hbtn; simpl; rewrite ?Hbtn;
    repeat split; reflexivity.
Qed.

Lemma validateMessage_step f :
  sound cfg (snd (MessageForm.validateMessage cfg f)) ∧
  adds_well_formed cfg JSON_stringify f (snd (MessageForm.validateMessage cfg f)).
Proof.
  destruct (form_validateMessage_run cfg f) as (b & e & _ & Hb & ->). cbn [snd].
  destruct (validated_fields b e f) as (Hsm & Hmail & Hst & _).
  split; [|by apply adds_nothing].
  unfold sound. rewrite Hsm. cbn. done.
Qed.

Lemma submitted_fields f :
  FormStateManager.message
    (FormStateManager.state_of (MessageForm.stateManager (submitted cfg JSON_stringify f)))
  = FormStateManager.message (FormStateManager.state_of (MessageForm.stateManager f)) ∧
  FormStateManager.isValid
    (FormStateManager.state_of (MessageForm.stateManager (submitted cfg JSON_stringify f)))
  = FormStateManager.isValid (FormStateManager.state_of (MessageForm.stateManager f)) ∧
  FormStateManager.isSubmitting
    (FormStateManager.state_of (MessageForm.stateManager (submitted cfg JSON_stringify f)))
  = true ∧
  MessageForm.mail (submitted cfg JSON_stringify f)
  = MessageForm.mail f
    ++ (if MessageConfig.enableEmailSending cfg then [form_data f] else []) ∧
  MessageForm.localStorage (submitted cfg JSON_stringify f)
  = (if MessageForm.storage_full f then MessageForm.localStorage f
     else Storage.setItem ("msg_" +:+ pretty (MessageForm.now f))
            (JSON_stringify (form_data f)) (MessageForm.localStorage f)) ∧
  MessageForm.isSubmitted (submitted cfg JSON_stringify f) = true.
Proof.
  unfold submitted.
  destruct (MessageForm.submitBtn f), (MessageForm.storage_full f),
    (MessageConfig.enableEmailSending cfg); cbn; by rewrite ?app_nil_r.
Qed.

Lemma submitForm_step f :
  sound cfg f →
  sound cfg (snd (MessageForm.submitForm cfg JSON_stringify f)) ∧
  adds_well_formed cfg JSON_stringify f (snd (MessageForm.submitForm cfg JSON_stringify f)).
Proof.
  intros Hsound. rewrite submitForm_run.
  destruct (MessageForm.isSubmitted f); [split; [done | by apply adds_nothing]|].
  destruct (FormStateManager.isValid _) eqn:Hvalid;
    [|split; [done | by apply adds_nothing]].
  cbn [snd]. destruct (submitted_fields f) as (Hmsg & Hval & _ & Hmail & Hst & _).
  pose proof (form_data_well_formed f (Hsound Hvalid)) as Hwf.
  split.
  - unfold sound. rewrite Hmsg, Hval. done.
  - split.
    + intros d. rewrite Hmail, elem_of_app.
      destruct (MessageConfig.enableEmailSending cfg).
      * intros [? | ->%list_elem_of_singleton]; auto.
      * intros [? | []%elem_of_nil]; auto.
    + intros k v. rewrite Hst. destruct (MessageForm.storage_full f); [auto|].
      intros [Heq|?]%setItem_elem_of; [|by left].
      injection Heq as -> ->. right. by eexists.
Qed.

Lemma handle_TypeMessage_run (value : Str.t) f :
  MessageForm.handle cfg JSON_stringify (MessageForm.TypeMessage value) f
  = if bool_decide (MessageConfig.maxChars cfg < length value)
    then (Return tt,
          MessageForm.set_messageInput (Str.substring0 (MessageConfig.maxChars cfg) value) f)
    else MessageForm.validateMessage cfg (MessageForm.set_messageInput value f).
Proof.
  unfold MessageForm.handle, MessageForm.onMessageInput, mbind, M_bind, gets, modify.
  cbn [MessageForm.messageInput MessageForm.set_messageInput].
  by case_bool_decide.
Qed.

Lemma send_failed_run f :
  MessageForm.send_failed f
  = (Return tt,
     let f1 := MessageForm.set_fields_disabled false
                 (MessageForm.set_isSubmitted false
                    (MessageForm.alert (MessageForm.set_sending false f))) in
     match MessageForm.submitBtn f with
     | Some _ => MessageForm.set_submitBtn (Some false) f1
     | None => f1
     end).
Proof.
  unfold MessageForm.send_failed, MessageForm.enableForm, mbind, M_bind, gets, modify,
    mret, M_ret. simpl. by destruct (MessageForm.submitBtn f).
Qed.

Lemma handle_step (e : MessageForm.event) f :
  sound cfg f →
  sound cfg (snd (MessageForm.handle cfg JSON_stringify e f)) ∧
  adds_well_formed cfg JSON_stringify f (snd (MessageForm.handle cfg JSON_stringify e f)).
Proof.
  intros Hsound.
  destruct e as [value|value|value| | | | |now].
  - rewrite handle_TypeMessage_run. case_bool_decide.
    + split; [exact Hsound | apply adds_nothing; reflexivity].
    + destruct (validateMessage_step (MessageForm.set_messageInput value f)) as [Hs Ha].
      split; [done|]. done.
  - simpl. unfold modify. simpl. destruct (MessageForm.nameInput f);
      (split; [exact Hsound | apply adds_nothing; reflexivity]).
  - simpl. unfold modify. simpl. destruct (MessageForm.emailInput f);
      (split; [exact Hsound | apply adds_nothing; reflexivity]).
  - apply validateMessage_step.
  - pose proof (submitForm_step f Hsound) as Hstep. simpl.
    unfold mbind, M_bind, mret, M_ret.
    by destruct (MessageForm.submitForm cfg JSON_stringify f) as [[r|err] f'].
  - simpl. unfold mbind, M_bind, gets.
    destruct (MessageForm.sending f);
      (split; [exact Hsound | apply adds_nothing; reflexivity]).
  - assert (MessageForm.handle cfg JSON_stringify MessageForm.SendFailed f
            = if MessageForm.sending f then MessageForm.send_failed f else (Return tt, f))
      as -> by (simpl; unfold mbind, M_bind, gets; by destruct (MessageForm.sending f)).
    destruct (MessageForm.sending f);
      [|split; [exact Hsound | apply adds_nothing; reflexivity]].
    rewrite send_failed_run. cbn [snd].
    destruct (MessageForm.submitBtn f);
      (split; [exact Hsound | apply adds_nothing; reflexivity]).
  - split; [exact Hsound | apply adds_nothing; reflexivity].
Qed.

Lemma play_step (es : list MessageForm.event) : ∀ f,
  sound cfg f →
  sound cfg (MessageForm.play cfg JSON_stringify es f) ∧
  adds_well_formed cfg JSON_stringify f (MessageForm.play cfg JSON_stringify es f).
Proof.
  induction es as [|e es IH]; intros f Hsound; simpl.
  - split; [exact Hsound | apply adds_nothing; reflexivity].
  - destruct (handle_step e f Hsound) as [Hs Ha].
    destruct (IH _ Hs) as [Hs' Ha']. split; [done|]. by eapply adds_trans.
Qed.

End form_invariants.

(** X19. Whatever the user does with the form (typing, leaving the
    field, submitting, sends that succeed or fail, time passing), in any
    order: if the state, when marked valid, holds an acceptable message,
    this stays so, and every message that is added to the mails sent and
    to the storage is well formed: trimmed, not empty, of [minChars] to
    [maxChars] code units, without a run of eleven equal code units that
    are no line terminators (a run of line terminators is not excluded),
    and with a name that is not empty. *)
Theorem every_message_sent_or_stored_is_well_formed
    (cfg : MessageConfig.t) (JSON_stringify : MessageForm.FormData → string)
    (es : list MessageForm.event) (f : MessageForm.t) :
  sound cfg f →
  let f' := MessageForm.play cfg JSON_stringify es f in
  sound cfg f' ∧
  (∀ d, d ∈ MessageForm.mail f' → d ∈ MessageForm.mail f ∨ well_formed_data cfg d) ∧
  (∀ k v, (k, v) ∈ MessageForm.localStorage f' →
          (k, v) ∈ MessageForm.localStorage f
          ∨ ∃ d, v = JSON_stringify d ∧ well_formed_data cfg d).
Proof.
  intros Hsound. cbv zeta.
  destruct (play_step cfg JSON_stringify es f Hsound) as [Hs [Hmail Hstore]]. done.
Qed.

(** X20. An input longer than [maxChars] is cut to [maxChars] code units
    in the field and is not validated: the form state, the errors and
    the submit button stay as they were, so a submit that follows
    decides on, and sends, the message validated before. *)
Theorem an_oversize_input_never_reaches_the_state
    (cfg : MessageConfig.t) (JSON_stringify : MessageForm.FormData → string)
    (value : Str.t) (f : MessageForm.t) :
  MessageConfig.maxChars cfg < length value →
  let f1 := snd (MessageForm.handle cfg JSON_stringify (MessageForm.TypeMessage value) f) in
  MessageForm.messageInput f1 = take (MessageConfig.maxChars cfg) value ∧
  length (MessageForm.messageInput f1) = MessageConfig.maxChars cfg ∧
  MessageForm.stateManager f1 = MessageForm.stateManager f ∧
  MessageForm.validator f1 = MessageForm.validator f ∧
  MessageForm.submitBtn f1 = MessageForm.submitBtn f ∧
  fst (MessageForm.submitForm cfg JSON_stringify f1)
  = fst (MessageForm.submitForm cfg JSON_stringify f).
Proof.
  intros Hlong. cbv zeta. rewrite handle_TypeMessage_run, bool_decide_eq_true_2 by done.
  cbn [snd]. split; [done|]. split.
  { cbn [MessageForm.messageInput MessageForm.set_messageInput]. unfold Str.substring0.
    rewrite length_take. lia. }
  split; [done|]. split; [done|]. split; [done|].
  rewrite !submitForm_run.
  cbn [MessageForm.isSubmitted MessageForm.stateManager MessageForm.set_messageInput].
  destruct (MessageForm.isSubmitted f); [done|].
  destruct (FormStateManager.isValid _); reflexivity.
Qed.

(** X21. When the send of a valid form fails, [submitForm] enables the
    form again and clears [isSubmitted], but [isSubmitting] stays set in
    the form state.  So the next validation disables the submit button,
    whatever the fields hold, while a further [submitForm] is still
    accepted and sends the same message a second time. *)
Theorem a_failed_send_leaves_isSubmitting_set
    (cfg : MessageConfig.t) (JSON_stringify : MessageForm.FormData → string)
    (f : MessageForm.t) :
  MessageForm.isSubmitted f = false →
  FormStateManager.isValid (FormStateManager.state_of (MessageForm.stateManager f)) = true →
  MessageConfig.enableEmailSending cfg = true →
  let f1 := snd (MessageForm.submitForm cfg JSON_stringify f) in
  let f2 := snd (MessageForm.handle cfg JSON_stringify MessageForm.SendFailed f1) in
  let f3 := snd (MessageForm.handle cfg JSON_stringify MessageForm.Blur f2) in
  fst (MessageForm.submitForm cfg JSON_stringify f) = Return (MessageForm.Submitted (form_data f)) ∧
  MessageForm.isSubmitted f2 = false ∧
  MessageForm.fields_disabled f2 = false ∧
  MessageForm.submitBtn f2 = (λ _, false) <$> MessageForm.submitBtn f ∧
  FormStateManager.isSubmitting (FormStateManager.state_of (MessageForm.stateManager f2)) = true ∧
  MessageForm.isSubmitted f3 = false ∧
  MessageForm.submitBtn f3 = (λ _, true) <$> MessageForm.submitBtn f ∧
  ∃ d, fst (MessageForm.submitForm cfg JSON_stringify f2) = Return (MessageForm.Submitted d) ∧
       MessageForm.fd_message d = MessageForm.fd_message (form_data f) ∧
       MessageForm.mail (snd (MessageForm.submitForm cfg JSON_stringify f2))
       = MessageForm.mail f ++ [form_data f; d].
Proof.
  intros Hfresh Hvalid Hmail. cbv zeta.
  rewrite submitForm_run, Hfresh, Hvalid. cbn [fst snd].
  destruct (submitted_fields cfg JSON_stringify f) as (Hmsg & Hval & Hsub & Hsent & _ & _).
  rewrite Hmail in Hsent.
  assert (MessageForm.handle cfg JSON_stringify MessageForm.SendFailed (submitted cfg JSON_stringify f)
          = MessageForm.send_failed (submitted cfg JSON_stringify f)) as ->.
  { simpl. unfold mbind, M_bind, gets. unfold submitted at 1. rewrite Hmail.
    reflexivity. }
  rewrite send_failed_run. cbn [snd].
  set (f1 := submitted cfg JSON_stringify f) in *.
  assert (MessageForm.submitBtn f1 = (λ _, true) <$> MessageForm.submitBtn f) as Hbtn1.
  { subst f1. unfold submitted. rewrite Hmail.
    destruct (MessageForm.submitBtn f) eqn:Hb, (MessageForm.storage_full f); cbn;
      by rewrite ?Hb. }
  set (f2 := match MessageForm.submitBtn f1 with Some _ => _ | None => _ end).
  assert (MessageForm.stateManager f2 = MessageForm.stateManager f1 ∧
          MessageForm.isSubmitted f2 = false ∧
          MessageForm.fields_disabled f2 = false ∧
          MessageForm.submitBtn f2 = (λ _, false) <$> MessageForm.submitBtn f ∧
          MessageForm.mail f2 = MessageForm.mail f1 ∧
          MessageForm.now f2 = MessageForm.now f1) as (Hsm2 & Hs2 & Hf2 & Hb2 & Hm2 & Hn2).
  { subst f2. rewrite Hbtn1. destruct (MessageForm.submitBtn f); cbn; done. }
  split; [done|]. split; [done|]. split; [done|]. split; [done|].
  split; [by rewrite Hsm2|].
  change (MessageForm.handle cfg JSON_stringify MessageForm.Blur f2)
    with (MessageForm.validateMessage cfg f2).
  destruct (form_validateMessage_run cfg f2) as (b & e & _ & _ & ->). cbn [snd].
  destruct (validated_fields b e f2) as (_ & _ & _ & Hs3 & _ & Hb3).
  split; [by rewrite Hs3|]. split.
  { rewrite Hb3, Hsm2, Hsub, orb_true_r, Hb2. by destruct (MessageForm.submitBtn f). }
  rewrite submitForm_run, Hs2, Hsm2, Hval, Hvalid.
  eexists. split; [reflexivity|]. cbn [snd fst]. split.
  { unfold form_data. cbn [MessageForm.fd_message]. by rewrite Hsm2, Hmsg. }
  destruct (submitted_fields cfg JSON_stringify f2) as (_ & _ & _ & -> & _ & _).
  rewrite Hmail, Hm2, Hsent. by rewrite <- (assoc_L (++)).
Qed.

Lemma every_message_sent_or_stored_is_well_formed_witness :
  let JSON_stringify := λ d : MessageForm.FormData, pretty (MessageForm.fd_timestamp d) in
  let f := new_form 1000 [] in
  let f' := MessageForm.play MESSAGE_CONFIG JSON_stringify
              [MessageForm.TypeMessage (Str.lit "hello world"); MessageForm.Submit;
               MessageForm.SendFailed; MessageForm.Submit] f in
  sound MESSAGE_CONFIG f' ∧
  (∀ d, d ∈ MessageForm.mail f' → d ∈ MessageForm.mail f ∨ well_formed_data MESSAGE_CONFIG d) ∧
  (∀ k v, (k, v) ∈ MessageForm.localStorage f' →
          (k, v) ∈ MessageForm.localStorage f
          ∨ ∃ d, v = JSON_stringify d ∧ well_formed_data MESSAGE_CONFIG d).
Proof.
  apply (every_message_sent_or_stored_is_well_formed MESSAGE_CONFIG
           (λ d, pretty (MessageForm.fd_timestamp d))
           [MessageForm.TypeMessage (Str.lit "hello world"); MessageForm.Submit;
            MessageForm.SendFailed; MessageForm.Submit]
           (new_form 1000 [])).
  intros Hvalid. discriminate Hvalid.
Defined.

Lemma an_oversize_input_never_reaches_the_state_witness :
  let JSON_stringify := λ d : MessageForm.FormData, pretty (MessageForm.fd_timestamp d) in
  let value := replicate 2001 65%N in
  let f := new_form 1000 [] in
  let f1 := snd (MessageForm.handle MESSAGE_CONFIG JSON_stringify
                   (MessageForm.TypeMessage value) f) in
  MessageForm.messageInput f1 = take (MessageConfig.maxChars MESSAGE_CONFIG) value ∧
  length (MessageForm.messageInput f1) = MessageConfig.maxChars MESSAGE_CONFIG ∧
  MessageForm.stateManager f1 = MessageForm.stateManager f ∧
  MessageForm.validator f1 = MessageForm.validator f ∧
  MessageForm.submitBtn f1 = MessageForm.submitBtn f ∧
  fst (MessageForm.submitForm MESSAGE_CONFIG JSON_stringify f1)
  = fst (MessageForm.submitForm MESSAGE_CONFIG JSON_stringify f).
Proof.
  apply (an_oversize_input_never_reaches_the_state MESSAGE_CONFIG
           (λ d, pretty (MessageForm.fd_timestamp d)) (replicate 2001 65%N) (new_form 1000 [])).
  rewrite length_replicate. cbn [MessageConfig.maxChars MESSAGE_CONFIG]. lia.
Defined.

Lemma a_failed_send_leaves_isSubmitting_set_witness :
  let JSON_stringify := λ d : MessageForm.FormData, pretty (MessageForm.fd_timestamp d) in
  let f := typed_form in
  let f1 := snd (MessageForm.submitForm MESSAGE_CONFIG JSON_stringify f) in
  let f2 := snd (MessageForm.handle MESSAGE_CONFIG JSON_stringify MessageForm.SendFailed f1) in
  let f3 := snd (MessageForm.handle MESSAGE_CONFIG JSON_stringify MessageForm.Blur f2) in
  fst (MessageForm.submitForm MESSAGE_CONFIG JSON_stringify f)
  = Return (MessageForm.Submitted (form_data f)) ∧
  MessageForm.isSubmitted f2 = false ∧
  MessageForm.fields_disabled f2 = false ∧
  MessageForm.submitBtn f2 = (λ _, false) <$> MessageForm.submitBtn f ∧
  FormStateManager.isSubmitting (FormStateManager.state_of (MessageForm.stateManager f2)) = true ∧
  MessageForm.isSubmitted f3 = false ∧
  MessageForm.submitBtn f3 = (λ _, true) <$> MessageForm.submitBtn f ∧
  ∃ d, fst (MessageForm.submitForm MESSAGE_CONFIG JSON_stringify f2)
       = Return (MessageForm.Submitted d) ∧
       MessageForm.fd_message d = MessageForm.fd_message (form_data f) ∧
       MessageForm.mail (snd (MessageForm.submitForm MESSAGE_CONFIG JSON_stringify f2))
       = MessageForm.mail f ++ [form_data f; d].
Proof.
  apply (a_failed_send_leaves_isSubmitting_set MESSAGE_CONFIG
           (λ d, pretty (MessageForm.fd_timestamp d)) typed_form).
  - reflexivity.
  - reflexivity.
  - reflexivity.
Defined.

(** ** The storage utilities *)

Lemma collect_keys_run (k : nat) : ∀ i keys (st : Storage.t),
  MessageForm.collect_keys k i keys st
  = (Return (keys ++ map fst (List.filter is_message (take k (drop i st)))), st).
Proof.
  induction k as [|k IH]; intros i keys st; simpl.
  - by rewrite app_nil_r.
  - unfold mbind, M_bind, gets, Storage.key.
    destruct (st !! i) as [[key v]|] eqn:Hi; simpl.
    + rewrite (drop_S _ _ _ Hi). simpl. unfold is_message at 1. simpl.
      destruct (String.prefix "msg_" key); rewrite IH; simpl; [|done].
      by rewrite <- (assoc_L (++)).
    + rewrite IH. rewrite !drop_ge; [by rewrite !take_nil | |];
        apply lookup_ge_None in Hi; lia.
Qed.

Lemma filter_filter {A} (p q : A → bool) (l : list A) :
  List.filter q (List.filter p l) = List.filter (λ a, p a && q a) l.
Proof.
  induction l as [|a l IH]; simpl; [done|].
  destruct (p a); simpl; [|done]. destruct (q a); by rewrite IH.
Qed.

Lemma filter_all {A} (l : list A) : List.filter (λ _, true) l = l.
Proof. induction l as [|a l IH]; simpl; [done | by rewrite IH]. Qed.

Lemma remove_each_run (keys : list string) : ∀ (st : Storage.t),
  MessageForm.remove_each keys st
  = (Return tt,
     List.filter (λ kv, forallb (λ k, negb (String.eqb (fst kv) k)) keys) st).
Proof.
  induction keys as [|key keys IH]; intros st; simpl.
  - by rewrite filter_all.
  - unfold mbind, M_bind, modify. rewrite IH. unfold Storage.removeItem.
    by rewrite filter_filter.
Qed.

Lemma prefix_eqb (k k' : string) :
  String.eqb k k' = true → String.prefix "msg_" k = String.prefix "msg_" k'.
Proof. by intros ->%String.eqb_eq. Qed.

(** [clearAllMessages] in closed form. *)
Lemma clearAllMessages_run (st : Storage.t) :
  MessageForm.clearAllMessages st
  = (Return tt, List.filter (λ kv, negb (is_message kv)) st).
Proof.
  unfold MessageForm.clearAllMessages, mbind, M_bind, gets.
  rewrite collect_keys_run, remove_each_run. f_equal.
  rewrite drop_0, firstn_all. simpl.
  apply List.filter_ext_in. intros kv Hkv.
  destruct (is_message kv) eqn:Hm; simpl.
  - apply not_true_is_false. intros Hall.
    rewrite forallb_forall in Hall.
    specialize (Hall (fst kv)). rewrite String.eqb_refl in Hall.
    assert (negb true = true); [|done]. apply Hall.
    apply in_map, List.filter_In. done.
  - apply forallb_forall. intros k Hk.
    apply in_map_iff in Hk as (kv' & <- & Hkv').
    apply List.filter_In in Hkv' as [_ Hm'].
    apply negb_true_iff, not_true_is_false. intros Heq.
    unfold is_message in *. rewrite (prefix_eqb _ _ Heq) in Hm. congruence.
Qed.

Section reading.
Context {J : Type} (JSON_parse : string → option J).

Lemma collect_no_messages (k : nat) : ∀ i (ms : list J) (st : Storage.t),
  (∀ kv, kv ∈ st → is_message kv = false) →
  MessageForm.collect_messages JSON_parse k i ms st = (Return ms, st).
Proof.
  induction k as [|k IH]; intros i ms st Hst; simpl; [done|].
  unfold mbind, M_bind, gets, Storage.key.
  destruct (st !! i) as [[key v]|] eqn:Hi; simpl; [|by apply IH].
  assert (String.prefix "msg_" key = false) as ->.
  { apply (Hst (key, v)). by eapply list_elem_of_lookup_2. }
  by apply IH.
Qed.

Lemma getItem_lookup (st : Storage.t) : ∀ i k v,
  NoDup (map fst st) → st !! i = Some (k, v) → Storage.getItem k st = Some v.
Proof.
  unfold Storage.getItem.
  induction st as [|[k' v'] st IH]; intros i k v Hnd Hi; [done|].
  simpl in Hnd. apply NoDup_cons in Hnd as [Hk' Hnd].
  destruct i as [|i]; simpl in *.
  - injection Hi as -> ->. by rewrite String.eqb_refl.
  - destruct (String.eqb_spec k' k) as [->|Hne].
    + exfalso. apply Hk'. apply list_elem_of_lookup_2 in Hi.
      apply (list_elem_of_fmap_2 fst) in Hi. done.
    + by eapply IH.
Qed.

(** [getAllMessages] in closed form, on a storage with distinct keys. *)
Lemma collect_messages_run (st : Storage.t) (k : nat) : ∀ i (ms : list J),
  NoDup (map fst st) →
  MessageForm.collect_messages JSON_parse k i ms st
  = (Return (ms ++ omap (λ kv, JSON_parse (snd kv))
                        (List.filter is_message (take k (drop i st)))), st).
Proof.
  induction k as [|k IH]; intros i ms Hnd; simpl.
  - by rewrite app_nil_r.
  - unfold mbind, M_bind, gets, Storage.key.
    destruct (st !! i) as [[key v]|] eqn:Hi; simpl.
    + rewrite (drop_S _ _ _ Hi). simpl. unfold is_message at 1. simpl.
      destruct (String.prefix "msg_" key); [|by rewrite IH].
      rewrite (getItem_lookup st i key v Hnd Hi). simpl.
      destruct (JSON_parse v); rewrite IH by done; simpl; [|done].
      by rewrite <- (assoc_L (++)).
    + rewrite IH by done. rewrite !drop_ge; [by rewrite !take_nil | |];
        apply lookup_ge_None in Hi; lia.
Qed.

End reading.

Lemma setItem_keys (k v : string) (st : Storage.t) :
  map fst (Storage.setItem k v st)
  = if bool_decide (k ∈ map fst st) then map fst st else map fst st ++ [k].
Proof.
  induction st as [|[k' v'] st IH]; simpl.
  - done.
  - destruct (String.eqb_spec k' k) as [->|Hne]; simpl.
    + rewrite bool_decide_eq_true_2; [done | by left].
    + rewrite IH. case_bool_decide as Hin.
      * rewrite bool_decide_eq_true_2; [done | by right].
      * rewrite bool_decide_eq_false_2; [done|].
        intros [?|?]%elem_of_cons; [by subst | done].
Qed.

Lemma setItem_NoDup (k v : string) (st : Storage.t) :
  NoDup (map fst st) → NoDup (map fst (Storage.setItem k v st)).
Proof.
  intros Hnd. rewrite setItem_keys. case_bool_decide; [done|].
  apply NoDup_app. split; [done|]. split; [|apply NoDup_singleton].
  intros x Hx ->%list_elem_of_singleton. done.
Qed.

Lemma setItem_in (k v : string) (st : Storage.t) : (k, v) ∈ Storage.setItem k v st.
Proof.
  induction st as [|[k' v'] st IH]; simpl; [by left|].
  destruct (String.eqb k' k); [by left | by right].
Qed.

Lemma setItem_getItem (k v : string) (st : Storage.t) :
  Storage.getItem k (Storage.setItem k v st) = Some v.
Proof.
  unfold Storage.getItem. induction st as [|[k' v'] st IH]; simpl.
  - by rewrite String.eqb_refl.
  - destruct (String.eqb k' k) eqn:Hk; simpl; [by rewrite String.eqb_refl|].
    by rewrite Hk.
Qed.

Lemma setItem_twice (k v v' : string) (st : Storage.t) :
  length (Storage.setItem k v' (Storage.setItem k v st)) = length (Storage.setItem k v st).
Proof.
  induction st as [|[k0 v0] st IH]; simpl.
  - by rewrite String.eqb_refl.
  - destruct (String.eqb k0 k) eqn:Hk; simpl; [by rewrite String.eqb_refl|].
    rewrite Hk. simpl. by rewrite IH.
Qed.

Lemma prefix_append (s t : string) : String.prefix s (s +:+ t) = true.
Proof.
  induction s as [|a s IH]; simpl; [by destruct t|].
  by destruct (Ascii.ascii_dec a a).
Qed.

(** X22. [clearAllMessages] removes from the storage exactly the items
    whose key starts with [msg_], and keeps the others in their order;
    after it [getAllMessages] returns the empty list. *)
Theorem clearAllMessages_removes_the_messages_only
    {J : Type} (JSON_parse : string → option J) (st : Storage.t) :
  ∃ st', MessageForm.clearAllMessages st = (Return tt, st') ∧
         st' = List.filter (λ kv, negb (is_message kv)) st ∧
         (∀ kv, kv ∈ st' ↔ kv ∈ st ∧ is_message kv = false) ∧
         MessageForm.getAllMessages JSON_parse st' = (Return [], st').
Proof.
  rewrite clearAllMessages_run. eexists. split; [reflexivity|]. split; [reflexivity|].
  assert (∀ kv, kv ∈ List.filter (λ kv, negb (is_message kv)) st
                ↔ kv ∈ st ∧ is_message kv = false) as Hin.
  { intros kv. rewrite !list_elem_of_In, List.filter_In, negb_true_iff. done. }
  split; [done|].
  unfold MessageForm.getAllMessages, mbind, M_bind, gets.
  apply collect_no_messages. intros kv Hkv. apply Hin in Hkv as [_ Hkv]. exact Hkv.
Qed.

(** X23. While the storage has room, a message that [saveToStorage]
    saves is stored under the key [msg_] followed by the time in
    milliseconds, and [getAllMessages] returns it when its text parses.
    A second message saved within the same millisecond takes the same
    key: the storage does not grow and the first message is lost. *)
Theorem a_saved_message_is_read_back
    (JSON_stringify : MessageForm.FormData → string)
    {J : Type} (JSON_parse : string → option J)
    (f : MessageForm.t) (formData : MessageForm.FormData) (j : J) :
  MessageForm.storage_full f = false →
  NoDup (map fst (MessageForm.localStorage f)) →
  JSON_parse (JSON_stringify formData) = Some j →
  let key := "msg_" +:+ pretty (MessageForm.now f) in
  let f1 := snd (MessageForm.saveToStorage JSON_stringify formData f) in
  NoDup (map fst (MessageForm.localStorage f1)) ∧
  Storage.getItem key (MessageForm.localStorage f1) = Some (JSON_stringify formData) ∧
  (∃ ms, MessageForm.getAllMessages JSON_parse (MessageForm.localStorage f1)
           = (Return ms, MessageForm.localStorage f1) ∧ j ∈ ms) ∧
  ∀ later : MessageForm.FormData,
    let f2 := snd (MessageForm.saveToStorage JSON_stringify later f1) in
    length (MessageForm.localStorage f2) = length (MessageForm.localStorage f1) ∧
    Storage.getItem key (MessageForm.localStorage f2) = Some (JSON_stringify later).
Proof.
  intros Hroom Hnd Hparse. cbv zeta.
  assert (∀ d g, MessageForm.storage_full g = false →
                 MessageForm.localStorage (snd (MessageForm.saveToStorage JSON_stringify d g))
                 = Storage.setItem ("msg_" +:+ pretty (MessageForm.now g)) (JSON_stringify d)
                     (MessageForm.localStorage g) ∧
                 MessageForm.now (snd (MessageForm.saveToStorage JSON_stringify d g))
                 = MessageForm.now g ∧
                 MessageForm.storage_full (snd (MessageForm.saveToStorage JSON_stringify d g))
                 = false) as Hsave.
  { intros d g Hg. unfold MessageForm.saveToStorage, mbind, M_bind, gets, modify, mret, M_ret.
    rewrite Hg. done. }
  destruct (Hsave formData f Hroom) as (Hst1 & Hnow1 & Hroom1).
  set (f1 := snd (MessageForm.saveToStorage JSON_stringify formData f)) in *.
  pose proof (setItem_NoDup ("msg_" +:+ pretty (MessageForm.now f))
                (JSON_stringify formData) _ Hnd) as Hnd1.
  rewrite <- Hst1 in Hnd1.
  split; [done|]. split; [rewrite Hst1; apply setItem_getItem|]. split.
  - unfold MessageForm.getAllMessages, mbind, M_bind, gets.
    rewrite collect_messages_run by done. eexists. split; [reflexivity|].
    rewrite drop_0, firstn_all. simpl.
    apply list_elem_of_omap.
    exists ("msg_" +:+ pretty (MessageForm.now f), JSON_stringify formData).
    split; [|done]. apply list_elem_of_In, List.filter_In.
    split; [|apply prefix_append]. apply list_elem_of_In. rewrite Hst1. apply setItem_in.
  - intros later. destruct (Hsave later f1 Hroom1) as (Hst2 & _ & _).
    rewrite Hst2, Hnow1, Hst1. split; [apply setItem_twice | apply setItem_getItem].
Qed.

Lemma a_saved_message_is_read_back_witness :
  let JSON_stringify := λ d : MessageForm.FormData, pretty (MessageForm.fd_timestamp d) in
  let JSON_parse := λ s : string, Some s in
  let f := new_form 1000 [] in
  let formData := form_data typed_form in
  let key := "msg_" +:+ pretty (MessageForm.now f) in
  let f1 := snd (MessageForm.saveToStorage JSON_stringify formData f) in
  NoDup (map fst (MessageForm.localStorage f1)) ∧
  Storage.getItem key (MessageForm.localStorage f1) = Some (JSON_stringify formData) ∧
  (∃ ms, MessageForm.getAllMessages JSON_parse (MessageForm.localStorage f1)
           = (Return ms, MessageForm.localStorage f1) ∧ JSON_stringify formData ∈ ms) ∧
  ∀ later : MessageForm.FormData,
    let f2 := snd (MessageForm.saveToStorage JSON_stringify later f1) in
    length (MessageForm.localStorage f2) = length (MessageForm.localStorage f1) ∧
    Storage.getItem key (MessageForm.localStorage f2) = Some (JSON_stringify later).
Proof.
  apply (a_saved_message_is_read_back (λ d, pretty (MessageForm.fd_timestamp d))
           (λ s, Some s) (new_form 1000 []) (form_data typed_form)
           (pretty (MessageForm.fd_timestamp (form_data typed_form)))).
  - reflexivity.
  - apply NoDup_nil_2.
  - reflexivity.
Defined.

(** * The mail service *)

(** [send] as the source writes it. *)
Lemma send_unfold cfg retryCount n :
  EmailService.send cfg retryCount n
  = if negb (MessageConfig.enableEmailSending cfg) then (EmailService.Fulfilled, n) else
    match EmailService.sendEmailJS n with
    | (EmailService.Rejected error, n) =>
        if bool_decide (retryCount < MessageConfig.maxRetries cfg)
        then EmailService.send cfg (retryCount + 1)
               (EmailService.wait (1000 * INR (retryCount + 1)) n)
        else (EmailService.Rejected error, n)
    | (EmailService.Fulfilled, n) => (EmailService.Fulfilled, n)
    | (EmailService.Pending, n) => (EmailService.Pending, n)
    end.
Proof.
  unfold EmailService.send.
  destruct (MessageConfig.maxRetries cfg - retryCount) as [|left] eqn:Hleft.
  - simpl. rewrite bool_decide_eq_false_2 by lia. reflexivity.
  - simpl. rewrite bool_decide_eq_true_2 by lia.
    replace (MessageConfig.maxRetries cfg - (retryCount + 1)) with left by lia.
    reflexivity.
Qed.

Lemma send_from_run cfg :
  MessageConfig.enableEmailSending cfg = true →
  ∀ left retryCount n,
    ∃ k, k ≤ left ∧
      snd (EmailService.send_from cfg left retryCount n)
      = EmailService.mk_net (EmailService.outcomes n) (EmailService.calls n + k + 1)
          (EmailService.waits n
           ++ map (λ i, 1000 * INR (retryCount + i + 1))%R (seq 0 k)) ∧
      (∀ i, i < k → ∃ e, EmailService.outcomes n (EmailService.calls n + i)
                         = EmailService.Rejected e) ∧
      fst (EmailService.send_from cfg left retryCount n)
      = EmailService.outcomes n (EmailService.calls n + k) ∧
      (∀ e, EmailService.outcomes n (EmailService.calls n + k) = EmailService.Rejected e →
            k = left).
Proof.
  intros Hon. induction left as [|left IH]; intros retryCount n.
  - exists 0. split; [done|]. simpl. rewrite Hon. simpl.
    rewrite !Nat.add_0_r, app_nil_r, Nat.add_1_r.
    destruct (EmailService.outcomes n (EmailService.calls n)) as [|e|] eqn:Hout; simpl;
      (split; [done|]); (split; [lia|]); done.
  - simpl. rewrite Hon. simpl.
    destruct (EmailService.outcomes n (EmailService.calls n)) as [|e|] eqn:Hout.
    + exists 0. split; [lia|]. simpl. rewrite !Nat.add_0_r, app_nil_r, Nat.add_1_r.
      split; [done|]. split; [lia|]. split; [done|]. intros e. congruence.
    + set (n1 := EmailService.wait _ _).
      destruct (IH (retryCount + 1) n1) as (k & Hk & Hnet & Hfail & Hlast & Hrej).
      subst n1.
      cbn [EmailService.outcomes EmailService.calls EmailService.waits EmailService.wait]
        in Hnet, Hfail, Hlast, Hrej.
      exists (S k). split; [lia|].
      replace (EmailService.calls n + S k) with (S (EmailService.calls n) + k) by lia.
      split; [|split; [|split]].
      * rewrite Hnet. f_equal. rewrite <- app_assoc. f_equal.
        cbn [seq map app]. rewrite Nat.add_0_r. f_equal. rewrite <- seq_shift, map_map.
        apply map_ext. intros i. do 2 f_equal. lia.
      * intros [|i] Hi; [rewrite Nat.add_0_r; by exists e|].
        replace (EmailService.calls n + S i) with (S (EmailService.calls n) + i) by lia.
        apply Hfail. lia.
      * exact Hlast.
      * intros e' He'. f_equal. by apply (Hrej e').
    + exists 0. split; [lia|]. simpl. rewrite !Nat.add_0_r, app_nil_r, Nat.add_1_r.
      split; [done|]. split; [lia|]. split; [done|]. intros e. congruence.
Qed.

(** X26. [EmailService.send] gives up after [maxRetries] retries, and has
    no timeout.  When sending is disabled its promise is fulfilled
    without a call of [sendEmailJS].  Otherwise it makes [k + 1] calls of
    [sendEmailJS] for some [k] up to [maxRetries], each after the one
    before was rejected, and waits [1000 * i] milliseconds after the
    [i]-th rejection; its promise is in the state of the last of these
    calls: fulfilled when that call is fulfilled, pending for ever when
    that call never settles, and rejected, with the reason of that call,
    only when all [maxRetries + 1] calls have been rejected. *)
Theorem send_retries_maxRetries_times cfg (n : EmailService.Net) :
  if MessageConfig.enableEmailSending cfg then
    ∃ k, k ≤ MessageConfig.maxRetries cfg ∧
      snd (EmailService.send cfg 0 n)
      = EmailService.mk_net (EmailService.outcomes n) (EmailService.calls n + k + 1)
          (EmailService.waits n ++ map (λ i, 1000 * INR (i + 1))%R (seq 0 k)) ∧
      (∀ i, i < k → ∃ e, EmailService.outcomes n (EmailService.calls n + i)
                         = EmailService.Rejected e) ∧
      fst (EmailService.send cfg 0 n)
      = EmailService.outcomes n (EmailService.calls n + k) ∧
      (∀ e, fst (EmailService.send cfg 0 n) = EmailService.Rejected e →
            k = MessageConfig.maxRetries cfg)
  else EmailService.send cfg 0 n = (EmailService.Fulfilled, n).
Proof.
  destruct (MessageConfig.enableEmailSending cfg) eqn:Hon.
  - unfold EmailService.send. rewrite Nat.sub_0_r.
    destruct (send_from_run cfg Hon (MessageConfig.maxRetries cfg) 0 n)
      as (k & Hk & Hnet & Hfail & Hlast & Hrej).
    exists k. split; [done|]. split; [done|]. split; [done|]. split; [done|].
    intros e He. apply (Hrej e). by rewrite <- Hlast.
  - rewrite send_unfold, Hon. reflexivity.
Qed.

(** * The rain *)

(** ** Runs that return *)

Section steps_facts.
Context {S : Type} (P : S → Prop) (R : S → S → Prop).
Hypothesis R_refl : ∀ s, R s s.
Hypothesis R_trans : ∀ s1 s2 s3, R s1 s2 → R s2 s3 → R s1 s3.

Lemma steps_ret {A} (a : A) : steps P R (mret a).
Proof. intros s Hs. exists a, s. done. Qed.

Lemma steps_gets {A} (f : S → A) : steps P R (gets f).
Proof. intros s Hs. exists (f s), s. done. Qed.

Lemma steps_bind {A B} (m : M S A) (f : A → M S B) :
  steps P R m → (∀ a, steps P R (f a)) → steps P R (m ≫= f).
Proof.
  intros Hm Hf s Hs. destruct (Hm s Hs) as (a & s1 & Hrun & HR & HP).
  destruct (Hf a s1 HP) as (b & s2 & Hrun' & HR' & HP').
  exists b, s2. rewrite (bind_return _ _ _ _ _ Hrun). split; [done|]. split; [|done].
  by eapply R_trans.
Qed.

Lemma steps_modify (f : S → S) :
  (∀ s, P s → R s (f s) ∧ P (f s)) → steps P R (modify f).
Proof. intros Hf s Hs. exists tt, (f s). destruct (Hf s Hs). done. Qed.

Lemma steps_for_range (body : nat → M S unit) (n : nat) :
  (∀ i, steps P R (body i)) → ∀ start, steps P R (for_range start n body).
Proof.
  intros Hbody. induction n as [|n IH]; intros start; simpl.
  - apply steps_ret.
  - apply steps_bind; [apply Hbody | intros _; apply IH].
Qed.

End steps_facts.

(** ** RainEngine *)

Section rain_facts.
Context (cfg : MessageConfig.t).
Implicit Types (w : Rain.World).

Lemma rain_grows_engine w w' : Rain.engine w' = Rain.engine w → rain_grows w w'.
Proof.
  intros Heq. unfold rain_grows. rewrite Heq.
  split; [done|]. exists [], [], []. rewrite !app_nil_r.
  split; [done|]. split; [done|]. split.
  { destruct (Rain.container (Rain.engine w)) as [l|]; [|reflexivity].
    change (Some l = Some (l ++ [])). by rewrite app_nil_r. }
  split; [constructor|]. split; intros ? []%elem_of_nil.
Qed.

Lemma rain_grows_refl w : rain_grows w w.
Proof. by apply rain_grows_engine. Qed.

Lemma rain_grows_trans w1 w2 w3 : rain_grows w1 w2 → rain_grows w2 w3 → rain_grows w1 w3.
Proof.
  intros (Ha & tms & ps & cs & Ht & Hp & Hc & Hnb & Hps & Hcs)
         (Ha' & tms' & ps' & cs' & Ht' & Hp' & Hc' & Hnb' & Hps' & Hcs').
  split; [congruence|]. exists (tms ++ tms'), (ps ++ ps'), (cs ++ cs').
  rewrite Ht', Ht, Hp', Hp, Hc', Hc.
  split; [by rewrite app_assoc|]. split; [by rewrite app_assoc|]. split.
  { destruct (Rain.container (Rain.engine w1)) as [l|]; [|reflexivity].
    change (Some ((l ++ cs) ++ cs') = Some (l ++ cs ++ cs')). by rewrite app_assoc. }
  split; [by apply Forall_app|]. split.
  - intros p [Hin|Hin]%elem_of_app.
    + destruct (Hps p Hin) as (tm & Htm & Hact). exists tm. rewrite elem_of_app. auto.
    + destruct (Hps' p Hin) as (tm & Htm & Hact). exists tm. rewrite elem_of_app. auto.
  - intros n [Hin|Hin]%elem_of_app.
    + destruct (Hcs n Hin) as (tm & Htm & Hact). exists tm. rewrite elem_of_app. auto.
    + destruct (Hcs' n Hin) as (tm & Htm & Hact). exists tm. rewrite elem_of_app. auto.
Qed.

Lemma steps_random : steps rain_ready rain_grows Rain.random.
Proof.
  intros w Hw. unfold Rain.random, zoom, Math_random. eexists _, _.
  split; [reflexivity|]. split; [by apply rain_grows_engine | done].
Qed.

Lemma steps_pick (array : list string) : steps rain_ready rain_grows (Rain.pick array).
Proof.
  unfold Rain.pick.
  apply steps_bind; [apply rain_grows_trans | apply steps_random |].
  intros r. apply steps_ret. apply rain_grows_refl.
Qed.

(** An element is created, appended and given its timer. *)
Lemma steps_create (el : Rain.element) (listed : bool) (ms : R) :
  steps rain_ready rain_grows
    (node ← Rain.createElement el;
     Rain.appendChild node;;
     (if listed
      then modify (λ w, Rain.set_engine
                          (Rain.set_particles (Rain.particles (Rain.engine w) ++ [node])
                                              (Rain.engine w)) w)
      else mret tt);;
     Rain.setTimeout (if listed then Rain.remove_particle node else Rain.remove_sparkle node) ms).
Proof.
  intros [a iw ih [[children|] active ps els tms]] Hw; [|by destruct Hw].
  unfold Rain.createElement, Rain.appendChild, Rain.setTimeout, mbind, M_bind, modify.
  simpl. destruct listed; simpl; eexists _, _; (split; [reflexivity|]);
    (split; [|by eexists]); (split; [done|]); simpl.
  - exists [Rain.mk_timer ms (Rain.remove_particle (length els))], [length els], [length els].
    split; [done|]. split; [done|]. split; [done|].
    split; [by repeat constructor|].
    split; intros ? ->%list_elem_of_singleton; eexists; (split; [by left|]); simpl; auto.
  - exists [Rain.mk_timer ms (Rain.remove_sparkle (length els))], [], [length els].
    rewrite app_nil_r. split; [done|]. split; [done|]. split; [done|].
    split; [by repeat constructor|]. split; [intros ? []%elem_of_nil|].
    intros ? ->%list_elem_of_singleton; eexists; (split; [by left|]); simpl; auto.
Qed.

End rain_facts.

Section rain_bursts.
Context (cfg : MessageConfig.t).
Implicit Types (w : Rain.World).

Lemma rain_bind {A B} (m : M Rain.World A) (f : A → M Rain.World B) :
  steps rain_ready rain_grows m → (∀ a, steps rain_ready rain_grows (f a)) →
  steps rain_ready rain_grows (m ≫= f).
Proof. apply steps_bind, rain_grows_trans. Qed.

Lemma rain_gets {A} (f : Rain.World → A) : steps rain_ready rain_grows (gets f).
Proof. apply steps_gets, rain_grows_refl. Qed.

Lemma steps_chiikawa : steps rain_ready rain_grows (Rain.createChiikawaParticle cfg).
Proof.
  unfold Rain.createChiikawaParticle.
  apply rain_bind; [apply steps_pick | intros image].
  apply rain_bind; [apply steps_random | intros r1].
  apply rain_bind; [apply rain_gets | intros width].
  apply rain_bind; [apply steps_random | intros r2].
  apply (steps_create _ true).
Qed.

Lemma steps_emoji : steps rain_ready rain_grows (Rain.createEmojiParticle cfg).
Proof.
  unfold Rain.createEmojiParticle.
  apply rain_bind; [apply steps_pick | intros char].
  apply rain_bind; [apply steps_random | intros r1].
  apply rain_bind; [apply rain_gets | intros width].
  apply rain_bind; [apply steps_random | intros r2].
  apply (steps_create _ true).
Qed.

Lemma steps_sparkles : steps rain_ready rain_grows Rain.createSparkles.
Proof.
  unfold Rain.createSparkles.
  apply (steps_for_range rain_ready rain_grows rain_grows_refl rain_grows_trans).
  intros _.
  apply rain_bind; [apply steps_random | intros r1].
  apply rain_bind; [apply rain_gets | intros width].
  apply rain_bind; [apply steps_random | intros r2].
  apply rain_bind; [apply rain_gets | intros height].
  apply rain_bind; [apply steps_random | intros r3].
  apply (steps_create _ false).
Qed.

(** The particles of one burst. *)
Lemma steps_burst_particles :
  steps rain_ready rain_grows
    (for_range 0 6 (λ _,
       r ← Rain.random;
       if bool_decide (r <= 0.3)%R then Rain.createEmojiParticle cfg
       else Rain.createChiikawaParticle cfg)).
Proof.
  apply (steps_for_range rain_ready rain_grows rain_grows_refl rain_grows_trans).
  intros _. apply rain_bind; [apply steps_random | intros r].
  case_bool_decide; [apply steps_emoji | apply steps_chiikawa].
Qed.

(** A burst of a rain that is stopped does nothing, and the loop ends. *)
Lemma run_burst_stopped w :
  Rain.isActive (Rain.engine w) = false → Rain.run_burst cfg w = (Return tt, w).
Proof. intros Hw. unfold Rain.run_burst, mbind, M_bind, gets. by rewrite Hw. Qed.

(** A burst of a rain that is active creates its elements and asks for
    the next burst. *)
Lemma run_burst_active w :
  rain_ready w → Rain.isActive (Rain.engine w) = true →
  ∃ w1, rain_grows w w1 ∧ rain_ready w1 ∧
        Rain.run_burst cfg w
        = (Return tt,
           Rain.set_engine
             (Rain.mk (Rain.container (Rain.engine w1)) (Rain.isActive (Rain.engine w1))
                (Rain.particles (Rain.engine w1)) (Rain.elements (Rain.engine w1))
                (Rain.timers (Rain.engine w1)
                 ++ [Rain.mk_timer (MessageConfig.rainBurstInterval cfg) Rain.burst])) w1).
Proof.
  intros Hready Hactive.
  destruct (steps_burst_particles w Hready) as ([] & w1 & Hrun1 & Hgrows1 & Hready1).
  destruct (steps_sparkles w1 Hready1) as ([] & w2 & Hrun2 & Hgrows2 & Hready2).
  exists w2. split; [by eapply rain_grows_trans|]. split; [done|].
  unfold Rain.run_burst. unfold mbind at 1, M_bind at 1, gets at 1.
  rewrite Hactive. cbn [negb].
  rewrite (bind_return _ _ _ _ _ Hrun1), (bind_return _ _ _ _ _ Hrun2).
  reflexivity.
Qed.

End rain_bursts.

Lemma filter_delete_length {A} (p : A → bool) (l : list A) : ∀ i x,
  l !! i = Some x →
  length (List.filter p (delete i l)) = length (List.filter p l) - (if p x then 1 else 0).
Proof.
  induction l as [|a l IH]; intros i x Hi; [done|].
  destruct i as [|i]; simpl in *.
  - injection Hi as ->. destruct (p x); simpl; lia.
  - destruct (p a) eqn:Ha; simpl; rewrite (IH i x Hi); [|done].
    destruct (p x) eqn:Hx; [|lia].
    assert (0 < length (List.filter p l)); [|lia].
    apply list_elem_of_lookup_2, list_elem_of_In in Hi.
    assert (In x (List.filter p l)) as Hin by (by apply List.filter_In).
    destruct (List.filter p l); [done | simpl; lia].
Qed.

Lemma elem_of_delete_other {A} (l : list A) : ∀ i x y,
  l !! i = Some x → y ∈ l → y ≠ x → y ∈ delete i l.
Proof.
  induction l as [|a l IH]; intros i x y Hi Hy Hne; [done|].
  destruct i as [|i]; simpl in *.
  - injection Hi as ->. by apply elem_of_cons in Hy as [->|Hy].
  - apply elem_of_cons in Hy as [->|Hy]; [by left|]. right. by eapply IH.
Qed.

Section rain_loops.
Context (cfg : MessageConfig.t).
Implicit Types (w : Rain.World).

Lemma loops_grows w w1 : rain_grows w w1 → Rain.loops w1 = Rain.loops w.
Proof.
  intros (_ & tms & ps & cs & Ht & _ & _ & Hnb & _). unfold Rain.loops.
  rewrite Ht, List.filter_app, length_app.
  assert (List.filter (λ tm, match Rain.act tm with Rain.burst => true | _ => false end) tms
          = []) as ->; [|simpl; lia].
  clear Ht. induction Hnb as [|tm tms Htm _ IH]; [done|]. simpl.
  destruct (Rain.act tm); [congruence | exact IH | exact IH].
Qed.

Lemma tracked_grows w w1 : Rain.tracked w → rain_grows w w1 → Rain.tracked w1.
Proof.
  intros [Hp Hc] (_ & tms & ps & cs & Ht & Hps & Hcs & _ & Hnew_p & Hnew_c).
  unfold Rain.tracked. rewrite Ht, Hps, Hcs. split.
  - intros p [Hin|Hin]%elem_of_app.
    + destruct (Hp p Hin) as (tm & Htm & Hact). exists tm. rewrite elem_of_app. auto.
    + destruct (Hnew_p p Hin) as (tm & Htm & Hact). exists tm. rewrite elem_of_app. auto.
  - intros n Hn.
    destruct (Rain.container (Rain.engine w)) as [children|]; [|by apply elem_of_nil in Hn].
    simpl in Hn. apply elem_of_app in Hn as [Hin|Hin].
    + destruct (Hc n Hin) as (tm & Htm & Hact). exists tm. rewrite elem_of_app. auto.
    + destruct (Hnew_c n Hin) as (tm & Htm & Hact). exists tm. rewrite elem_of_app. auto.
Qed.

End rain_loops.

Section rain_events.
Context (cfg : MessageConfig.t).
Implicit Types (w : Rain.World).

Lemma tracked_same w w' :
  Rain.particles (Rain.engine w') = Rain.particles (Rain.engine w) →
  default [] (Rain.container (Rain.engine w')) = default [] (Rain.container (Rain.engine w)) →
  (∀ tm, tm ∈ Rain.timers (Rain.engine w) → tm ∈ Rain.timers (Rain.engine w')) →
  Rain.tracked w → Rain.tracked w'.
Proof.
  intros Hp Hc Ht [Htp Htc]. unfold Rain.tracked. rewrite Hp, Hc. split.
  - intros p Hin. destruct (Htp p Hin) as (tm & Htm & Hact). exists tm. auto.
  - intros n Hin. destruct (Htc n Hin) as (tm & Htm & Hact). exists tm. auto.
Qed.

Lemma start_step w :
  Rain.tracked w →
  let w' := snd (Rain.start cfg w) in
  rain_ready w' ∧ Rain.tracked w' ∧
  Rain.isActive (Rain.engine w') = true ∧ Rain.loops w' = Rain.loops w + 1.
Proof.
  intros Htracked. cbv zeta.
  set (w0 := Rain.set_engine
               (Rain.set_isActive true
                  (Rain.set_container (Some (default [] (Rain.container (Rain.engine w))))
                     (Rain.engine w))) w).
  assert (Rain.start cfg w = Rain.run_burst cfg w0) as ->.
  { unfold Rain.start, Rain.init, mbind, M_bind, gets, modify, mret, M_ret. subst w0.
    destruct w as [a iw ih [[children|] active ps els tms]]; reflexivity. }
  destruct (run_burst_active cfg w0) as (w1 & Hgrows & Hready & ->); [by eexists | done |].
  cbn [snd]. split; [exact Hready|].
  assert (Rain.tracked w0) as Htracked0.
  { apply (tracked_same w); [done | | done | done].
    subst w0. simpl. by destruct (Rain.container (Rain.engine w)). }
  pose proof (tracked_grows w0 w1 Htracked0 Hgrows) as Htracked1.
  pose proof (loops_grows w0 w1 Hgrows) as Hloops.
  destruct Hgrows as (Hactive & _).
  split; [|split].
  - apply (tracked_same w1); [done | done | | done].
    intros tm Htm. simpl. rewrite elem_of_app. by left.
  - simpl. by rewrite Hactive.
  - unfold Rain.loops in *. simpl. rewrite List.filter_app, length_app, Hloops. simpl. done.
Qed.

(** A timer fires. *)
Lemma fire_step w i tm :
  rain_ready w → Rain.tracked w →
  Rain.timers (Rain.engine w) !! i = Some tm →
  let w' := snd (Rain.handle cfg (Rain.Fire i) w) in
  rain_ready w' ∧ Rain.tracked w' ∧
  Rain.isActive (Rain.engine w') = Rain.isActive (Rain.engine w) ∧
  Rain.loops w'
  = match Rain.act tm with
    | Rain.burst => if Rain.isActive (Rain.engine w) then Rain.loops w else Rain.loops w - 1
    | _ => Rain.loops w
    end.
Proof.
  intros Hready Htracked Hi. cbv zeta.
  set (w0 := Rain.set_engine
               (Rain.mk (Rain.container (Rain.engine w)) (Rain.isActive (Rain.engine w))
                  (Rain.particles (Rain.engine w)) (Rain.elements (Rain.engine w))
                  (delete i (Rain.timers (Rain.engine w)))) w).
  assert (Rain.handle cfg (Rain.Fire i) w = Rain.fire cfg (Rain.act tm) w0) as ->.
  { unfold Rain.handle, mbind, M_bind, gets, modify. by rewrite Hi. }
  assert (Rain.loops w0
          = Rain.loops w - match Rain.act tm with Rain.burst => 1 | _ => 0 end) as Hloops0.
  { unfold Rain.loops. subst w0. simpl. rewrite (filter_delete_length _ _ i tm Hi).
    by destruct (Rain.act tm). }
  assert (∀ tm', tm' ∈ Rain.timers (Rain.engine w) → Rain.act tm' ≠ Rain.act tm →
                 tm' ∈ Rain.timers (Rain.engine w0)) as Hkept.
  { intros tm' Hin Hne. subst w0. simpl. eapply elem_of_delete_other; [done | done |].
    by intros ->. }
  destruct Htracked as [Htp Htc].
  destruct (Rain.act tm) as [|p|n] eqn:Hact.
  - (* burst *)
    assert (Rain.tracked w0) as Htracked0.
    { split.
      - intros p Hp. destruct (Htp p Hp) as (tm' & Hin & Ha). exists tm'.
        split; [|done]. apply Hkept; [done | congruence].
      - intros n Hn. destruct (Htc n Hn) as (tm' & Hin & Ha). exists tm'.
        split; [|done]. apply Hkept; [done | destruct Ha; congruence]. }
    assert (1 ≤ Rain.loops w) as Hone.
    { unfold Rain.loops.
      assert (In tm (List.filter (λ tm, match Rain.act tm with Rain.burst => true | _ => false end)
                       (Rain.timers (Rain.engine w)))) as Hin.
      { apply List.filter_In. split; [|by rewrite Hact].
        apply list_elem_of_In. by eapply list_elem_of_lookup_2. }
      destruct (List.filter _ _); [done | simpl; lia]. }
    cbn [Rain.fire].
    destruct (Rain.isActive (Rain.engine w)) eqn:Hactive.
    + destruct (run_burst_active cfg w0) as (w1 & Hgrows & Hready1 & ->); [done | done |].
      cbn [snd]. split; [exact Hready1|].
      pose proof (tracked_grows w0 w1 Htracked0 Hgrows) as Htracked1.
      pose proof (loops_grows w0 w1 Hgrows) as Hloops1.
      destruct Hgrows as (Hact1 & _).
      split; [|split].
      * apply (tracked_same w1); [done | done | | done].
        intros tm' Htm'. simpl. rewrite elem_of_app. by left.
      * simpl. by rewrite Hact1.
      * unfold Rain.loops in *. simpl. rewrite List.filter_app, length_app, Hloops1, Hloops0.
        simpl. lia.
    + rewrite run_burst_stopped by done. cbn [snd].
      split; [done|]. split; [done|]. split; [done|]. lia.
  - (* a particle is removed *)
    cbn [Rain.fire]. unfold Rain.remove, mbind, M_bind, modify. cbn [snd].
    destruct Hready as [children Hchildren].
    split; [|split; [|split]].
    + unfold rain_ready. simpl. rewrite Hchildren. by eexists.
    + split; simpl.
      * intros p' [Hp' Hne]%list_elem_of_In%List.filter_In.
        apply list_elem_of_In in Hp'. apply negb_true_iff, Nat.eqb_neq in Hne.
        destruct (Htp p' Hp') as (tm' & Hin & Ha). exists tm'. split; [|done].
        apply Hkept; [done | congruence].
      * rewrite Hchildren. simpl.
        intros n' [Hn' Hne]%list_elem_of_In%List.filter_In.
        apply list_elem_of_In in Hn'. apply negb_true_iff, Nat.eqb_neq in Hne.
        destruct (Htc n') as (tm' & Hin & Ha); [by rewrite Hchildren|]. exists tm'.
        split; [|done]. apply Hkept; [done | destruct Ha; congruence].
    + done.
    + unfold Rain.loops in *. simpl in *. lia.
  - (* a sparkle is removed *)
    cbn [Rain.fire]. unfold Rain.remove, modify. cbn [snd].
    destruct Hready as [children Hchildren].
    split; [|split; [|split]].
    + unfold rain_ready. simpl. rewrite Hchildren. by eexists.
    + split; simpl.
      * intros p' Hp'. destruct (Htp p' Hp') as (tm' & Hin & Ha). exists tm'. split; [|done].
        apply Hkept; [done | congruence].
      * rewrite Hchildren. simpl.
        intros n' [Hn' Hne]%list_elem_of_In%List.filter_In.
        apply list_elem_of_In in Hn'. apply negb_true_iff, Nat.eqb_neq in Hne.
        destruct (Htc n') as (tm' & Hin & Ha); [by rewrite Hchildren|]. exists tm'.
        split; [|done]. apply Hkept; [done | destruct Ha; congruence].
    + done.
    + unfold Rain.loops in *. simpl in *. lia.
Qed.

End rain_events.

Lemma rain_ready_sane w : rain_ready w → rain_sane w.
Proof. intros [c Hc] Hnone. congruence. Qed.

Lemma rain_handle_step cfg e w :
  rain_sane w → Rain.tracked w →
  let w' := snd (Rain.handle cfg e w) in
  rain_sane w' ∧ Rain.tracked w' ∧
  Rain.isActive (Rain.engine w')
  = match e with
    | Rain.Start => true
    | Rain.Stop => false
    | _ => Rain.isActive (Rain.engine w)
    end ∧
  Rain.loops w'
  = match e with
    | Rain.Start => Rain.loops w + 1
    | Rain.Fire i =>
        match Rain.act <$> Rain.timers (Rain.engine w) !! i with
        | Some Rain.burst =>
            if Rain.isActive (Rain.engine w) then Rain.loops w else Rain.loops w - 1
        | _ => Rain.loops w
        end
    | _ => Rain.loops w
    end.
Proof.
  intros Hsane Htracked. cbv zeta. destruct e as [| | |i].
  - destruct (start_step cfg w Htracked) as (Hready & Ht & Ha & Hl).
    split; [by apply rain_ready_sane | done].
  - cbn [Rain.handle]. unfold Rain.stop, modify. cbn [snd].
    split; [|split; [|done]].
    + intros Hnone. simpl in *. destruct (Hsane Hnone) as [-> _]. done.
    + by apply (tracked_same w).
  - cbn [Rain.handle]. unfold Rain.clear, modify. cbn [snd].
    split; [|split; [|done]].
    + intros Hnone. simpl in *. apply Hsane. by destruct (Rain.container (Rain.engine w)).
    + split; simpl.
      * by intros p []%elem_of_nil.
      * intros n. destruct (Rain.container (Rain.engine w)); by intros []%elem_of_nil.
  - destruct (Rain.timers (Rain.engine w) !! i) as [tm|] eqn:Hi.
    + assert (rain_ready w) as Hready.
      { unfold rain_ready. destruct (Rain.container (Rain.engine w)) eqn:Hc; [by eexists|].
        destruct (Hsane Hc) as [Hnil _]. by rewrite Hnil in Hi. }
      destruct (fire_step cfg w i tm Hready Htracked Hi) as (Hready' & Ht & Ha & Hl).
      split; [|split; [done|split; [done|]]].
      * by apply rain_ready_sane.
      * rewrite Hl. simpl. by destruct (Rain.act tm).
    + assert (Rain.handle cfg (Rain.Fire i) w = (Return tt, w)) as ->.
      { unfold Rain.handle, mbind, M_bind, gets. by rewrite Hi. }
      done.
Qed.

Lemma rain_play_app cfg es es' w :
  Rain.play cfg (es ++ es') w = Rain.play cfg es' (Rain.play cfg es w).
Proof. revert w. induction es as [|e es IH]; intros w; [done|]. simpl. apply IH. Qed.

Lemma rain_play_step cfg es : ∀ w,
  rain_sane w → Rain.tracked w →
  rain_sane (Rain.play cfg es w) ∧ Rain.tracked (Rain.play cfg es w) ∧
  Rain.loops (Rain.play cfg es w) ≤ Rain.loops w + length (List.filter is_start es).
Proof.
  induction es as [|e es IH]; intros w Hsane Htracked.
  - simpl. split; [done|]. split; [done|]. lia.
  - destruct (rain_handle_step cfg e w Hsane Htracked) as (Hsane' & Htracked' & _ & Hl).
    destruct (IH _ Hsane' Htracked') as (Hs & Ht & Hle).
    cbn [Rain.play]. split; [done|]. split; [done|].
    etrans; [exact Hle|]. rewrite Hl. simpl.
    destruct e as [| | |i]; simpl; try lia.
    destruct (Rain.act <$> _) as [[| |]|]; try lia.
    destruct (Rain.isActive (Rain.engine w)); lia.
Qed.

Lemma rain_play_unstopped cfg es : ∀ w,
  rain_sane w → Rain.tracked w →
  Rain.isActive (Rain.engine w) = true ∨ Rain.loops w = 0 →
  forallb (λ e, negb (is_stop e)) es = true →
  Rain.loops (Rain.play cfg es w) = Rain.loops w + length (List.filter is_start es).
Proof.
  induction es as [|e es IH]; intros w Hsane Htracked Hrun Hes.
  - simpl. lia.
  - apply andb_true_iff in Hes as [He Hes].
    destruct (rain_handle_step cfg e w Hsane Htracked) as (Hsane' & Htracked' & Ha & Hl).
    cbn [Rain.play]. rewrite IH; [| done | done | | done].
    + rewrite Hl. destruct e as [| | |i]; simpl; try lia; try done.
      destruct (Rain.act <$> _) as [[| |]|]; try lia.
      destruct Hrun as [-> | Hzero]; [lia|]. destruct (Rain.isActive (Rain.engine w)); lia.
    + rewrite Ha, Hl. destruct e as [| | |i]; [by left | done | done |].
      destruct Hrun as [-> | Hzero]; [by left|]. right.
      destruct (Rain.act <$> _) as [[| |]|]; try done.
      destruct (Rain.isActive (Rain.engine w)); lia.
Qed.

Lemma new_rain_sane a width height :
  rain_sane (new_rain a width height) ∧ Rain.tracked (new_rain a width height).
Proof.
  split; [done|]. split; simpl; by intros ? []%elem_of_nil.
Qed.

(** X24. [start()] does not look whether the rain is running, and
    [stop()] cancels no timer.  From a rain engine that has just been
    constructed, over any sequence of calls of [start()], [stop()] and
    [clear()] and of timers that fire: there are never more burst loops
    pending than [start()] was called; while [stop()] has not been called
    there are exactly as many, so that each further [start()] adds a loop
    to the ones that run; and [stop()] followed at once by [start()]
    leaves one loop more than before. *)
Theorem start_adds_a_burst_loop cfg a width height es :
  let w0 := new_rain a width height in
  Rain.loops (Rain.play cfg es w0) ≤ length (List.filter is_start es) ∧
  (forallb (λ e, negb (is_stop e)) es = true →
   Rain.loops (Rain.play cfg es w0) = length (List.filter is_start es)) ∧
  Rain.loops (Rain.play cfg (es ++ [Rain.Stop; Rain.Start]) w0)
  = Rain.loops (Rain.play cfg es w0) + 1.
Proof.
  cbv zeta. destruct (new_rain_sane a width height) as [Hsane Htracked].
  destruct (rain_play_step cfg es _ Hsane Htracked) as (Hs & Ht & Hle).
  split; [exact Hle|]. split.
  - intros Hes. by rewrite rain_play_unstopped; [| | | right |].
  - rewrite rain_play_app. cbn [Rain.play].
    destruct (rain_handle_step cfg Rain.Stop _ Hs Ht) as (Hs1 & Ht1 & _ & Hl1).
    destruct (rain_handle_step cfg Rain.Start _ Hs1 Ht1) as (_ & _ & _ & Hl2).
    by rewrite Hl2, Hl1.
Qed.

(** X25. The rain removes what it creates.  From a rain engine that has
    just been constructed, after any sequence of calls of [start()],
    [stop()] and [clear()] and of timers that fire, every element of
    [this.particles] and every child of the container has a timer
    pending that removes it; so once no timer is pending, [this.particles]
    and the container are empty. *)
Theorem every_rain_element_has_its_removal_pending cfg a width height es :
  let w := Rain.play cfg es (new_rain a width height) in
  Rain.tracked w ∧
  (Rain.timers (Rain.engine w) = [] →
   Rain.particles (Rain.engine w) = [] ∧ default [] (Rain.container (Rain.engine w)) = []).
Proof.
  cbv zeta. destruct (new_rain_sane a width height) as [Hsane Htracked].
  destruct (rain_play_step cfg es _ Hsane Htracked) as (_ & Ht & _).
  split; [exact Ht|]. intros Hnil. destruct Ht as [Htp Htc]. split.
  - destruct (Rain.particles _) as [|p ps]; [done|].
    destruct (Htp p) as (tm & Hin & _); [by left|]. rewrite Hnil in Hin.
    by apply elem_of_nil in Hin.
  - destruct (default [] _) as [|n ns]; [done|].
    destruct (Htc n) as (tm & Hin & _); [by left|]. rewrite Hnil in Hin.
    by apply elem_of_nil in Hin.
Qed.

